(** * pi_music_server: the tagger pipeline

    A shallow embedding of the identify / validate / reorganize / ledger
    pipeline of

    - [config/fingerprint_tagger.py]  (resolver, album consensus, names and
      the application of an analysis), and
    - [config/tagger-app/app.py]      (history ledger, backup, save, undo,
      delete, the editor's view of an album, the matches and the releases
      offered by the lookup services),

    followed by the properties of the specification that concern them and
    by further properties of the code.

    Conventions of the embedding.

    - A Python [str] is a [string] whose characters are code points below
      256; [lower], [strip] and the whitespace test follow Python on that
      range.
    - A Python float that is a score or a ratio is a rational ([Q]); the
      thresholds 0.80 and 0.70 are [80 # 100] and [70 # 100].  A ratio of two
      track counts compares with 0.70 in floating point as it does in [Q].
    - The directory tree is a finite map from the path of a directory, as
      the program writes it, to its listing, a finite map from file name to
      file.  Album and backup directories hold files: [copytree], [rmtree]
      and [move] act on the one entry they name, and a directory below
      another one is an entry of its own.  A path is looked up as it is
      written.  The properties that depend on the spelling of a path, on
      what lies below a folder or on a path being free are therefore stated
      for canonical paths, flat albums and plain names ([canonical],
      [no_dir_below], [nothing_at], [plain_move] below), where the look-up
      by spelling and the file system agree.
    - The history file is the list of entries it holds, oldest first.
    - The clock, the lookup service and the request form are inputs.  An
      exception that leaves a handler is the response [Crashed].
    - The comments of a FLAC file are the list of its pairs of key and
      value, in the order of the file; keys compare without letter case,
      and setting a key removes the values it had and adds the new one at
      the end.
    - A value the code hands to [int] is a numeral, or is none (then [int]
      raises).  The percentage [round(score * 100)] of a match is computed
      in floating point: it is an input of the handler that shows it.
    - [os.path.realpath] is an input of [delete_album]. *)

From Stdlib Require Import ZArith QArith String Ascii List DecimalString.
From Stdlib Require DecimalNat DecimalFacts.
From Stdlib Require Import Qround.
From stdpp Require Import gmap strings list fin_maps sorting.

Open Scope string_scope.
Open Scope list_scope.
Open Scope nat_scope.

(* ===================================================================== *)
(** * Python strings *)
(* ===================================================================== *)

Module PyStr.

(** [str.isspace] on one character. *)
Definition is_space (c : ascii) : bool :=
  let n := nat_of_ascii c in
  (((9 <=? n) && (n <=? 13)) || ((28 <=? n) && (n <=? 32))
   || (n =? 133) || (n =? 160))%nat.

(** [str.lower] on one character. *)
Definition lower_char (c : ascii) : ascii :=
  let n := nat_of_ascii c in
  if (((65 <=? n) && (n <=? 90))
      || ((192 <=? n) && (n <=? 222) && negb (n =? 215)))%nat
  then ascii_of_nat (n + 32) else c.

Fixpoint lower (s : string) : string :=
  match s with
  | "" => ""
  | String c r => String (lower_char c) (lower r)
  end.

Fixpoint all_space (s : string) : bool :=
  match s with
  | "" => true
  | String c r => is_space c && all_space r
  end.

Fixpoint lstrip (s : string) : string :=
  match s with
  | "" => ""
  | String c r => if is_space c then lstrip r else s
  end.

Fixpoint rstrip (s : string) : string :=
  match s with
  | "" => ""
  | String c r => if all_space s then "" else String c (rstrip r)
  end.

(** [s.strip()] *)
Definition strip (s : string) : string := rstrip (lstrip s).

(** Truth value of a string: non-empty. *)
Definition truthy (s : string) : bool :=
  match s with "" => false | _ => true end.

(** Truth value of an optional string ([None] and [''] are false). *)
Definition truthy_opt (o : option string) : bool :=
  match o with Some s => truthy s | None => false end.

(** [o or d] for an optional string. *)
Definition or_else (o : option string) (d : string) : string :=
  match o with
  | Some s => if truthy s then s else d
  | None => d
  end.

(** [s[:n]] and [s[n:]] *)
Fixpoint take (n : nat) (s : string) : string :=
  match n, s with
  | S k, String c r => String c (take k r)
  | _, _ => ""
  end.

Fixpoint drop (n : nat) (s : string) : string :=
  match n, s with
  | S k, String _ r => drop k r
  | _, _ => s
  end.

(** [s.startswith(p)] *)
Definition startswith (p s : string) : bool := String.prefix p s.

(** [s.endswith(p)] *)
Definition endswith (p s : string) : bool :=
  (String.length p <=? String.length s)%nat
  && String.eqb (drop (String.length s - String.length p) s) p.

(** [sub in s] *)
Fixpoint contains (sub s : string) : bool :=
  String.prefix sub s
  || match s with
     | "" => false
     | String _ r => contains sub r
     end.

(** [s.split(sep, 1)] when [sep] occurs in [s]: the text before the first
    occurrence and the text after it; [None] when [sep] does not occur
    (Python then returns the one-element list [[s]]). *)
Fixpoint split_once (sep s : string) : option (string * string) :=
  if String.prefix sep s then Some ("", drop (String.length sep) s)
  else match s with
       | "" => None
       | String c r =>
           match split_once sep r with
           | Some (a, b) => Some (String c a, b)
           | None => None
           end
       end.

(** [s.replace(old, new)] for one-character [old] and [new]. *)
Fixpoint replace_char (old new : ascii) (s : string) : string :=
  match s with
  | "" => ""
  | String c r =>
      String (if Ascii.eqb c old then new else c) (replace_char old new r)
  end.

(** [str(n)] for a natural number. *)
Definition of_nat (n : nat) : string :=
  NilEmpty.string_of_uint (Nat.to_uint n).

(** [f"{n:02d}"] *)
Definition of_nat_02 (n : nat) : string :=
  let d := of_nat n in
  if (String.length d <? 2)%nat then "0" +:+ d else d.

End PyStr.

(** Rational comparison as a boolean. *)
Definition Qltb (a b : Q) : bool := negb (Qle_bool b a).

(* ===================================================================== *)
(** * fingerprint_tagger.py: the resolver *)
(* ===================================================================== *)

Module Resolver.

Definition MIN_CONFIDENCE : Q := 80 # 100.

(** The reply of the identification service, as the code reads it. *)
Record artist_credit := { ac_name : option string }.

Record release := {
  rel_title : option string;
  rel_date : option string
}.

Record recording := {
  rec_id : option string;
  rec_title : option string;
  rec_artists : list artist_credit;          (* [.get('artists', [])] *)
  rec_releases : option (list release)       (* key may be absent *)
}.

Record result_group := {
  res_score : option Q;                      (* [.get('score', 0)] *)
  res_recordings : option (list recording)   (* key may be absent *)
}.

(** Fingerprinting or the lookup may raise; otherwise the reply carries
    [results] or not. *)
Inductive lookup_reply :=
| LookupError
| Reply (results : option (list result_group)).

(** The dictionary the resolver returns. *)
Record track_match := {
  score : Q;
  recording_id : option string;
  title : string;
  artist : string;
  album : string;
  year : string
}.

Definition score_of (g : result_group) : Q :=
  match res_score g with Some q => q | None => 0 end.

(** [artists[0].get('name') if artists else None] *)
Definition first_artist (r : recording) : option string :=
  match rec_artists r with
  | a :: _ => ac_name a
  | [] => None
  end.

(** Lines 66-72: album and year from the first release. *)
Definition album_and_year (r : recording) : option string * option string :=
  match rec_releases r with
  | Some (rel :: _) =>
      let date := match rel_date rel with Some d => d | None => "" end in
      (rel_title rel,
       Some (if PyStr.truthy date && (4 <=? String.length date)%nat
             then PyStr.take 4 date else ""))
  | _ => (None, None)
  end.

(** The body of the inner loop for one recording: [None] is [continue]. *)
Definition try_recording (sc : Q) (r : recording) : option track_match :=
  match rec_title r, first_artist r with
  | Some t, Some a =>
      if negb (PyStr.truthy t) || negb (PyStr.truthy a) then None
      else
        let '(alb, yr) := album_and_year r in
        Some {| score := sc;
                recording_id := rec_id r;
                title := t;
                artist := a;
                album := PyStr.or_else alb "Unknown Album";
                year := PyStr.or_else yr "" |}
  | _, _ => None
  end.

Fixpoint scan_recordings (sc : Q) (rs : list recording) : option track_match :=
  match rs with
  | [] => None
  | r :: rs' =>
      match try_recording sc r with
      | Some m => Some m
      | None => scan_recordings sc rs'
      end
  end.

Fixpoint scan_results (gs : list result_group) : option track_match :=
  match gs with
  | [] => None
  | g :: gs' =>
      if Qltb (score_of g) MIN_CONFIDENCE then scan_results gs'
      else match res_recordings g with
           | None => scan_results gs'
           | Some rs =>
               match scan_recordings (score_of g) rs with
               | Some m => Some m
               | None => scan_results gs'
               end
           end
  end.

Definition fingerprint_and_lookup (reply : lookup_reply) : option track_match :=
  match reply with
  | LookupError => None
  | Reply None => None
  | Reply (Some []) => None
  | Reply (Some gs) => scan_results gs
  end.

(** ** What the specification calls a qualifying recording and group *)

Definition recordings_of (g : result_group) : list recording :=
  match res_recordings g with Some rs => rs | None => [] end.

Definition has_title_and_artist (r : recording) : Prop :=
  ∃ t a, rec_title r = Some t ∧ t ≠ "" ∧
         first_artist r = Some a ∧ a ≠ "".

Definition below_floor (g : result_group) : Prop :=
  (score_of g < MIN_CONFIDENCE)%Q.

(** The first release entry of a recording, if any. *)
Definition first_release (r : recording) : option release :=
  match rec_releases r with
  | Some (rel :: _) => Some rel
  | _ => None
  end.

End Resolver.

(* ===================================================================== *)
(** * fingerprint_tagger.py: album consensus *)
(* ===================================================================== *)

Module Tagger.
Import Resolver.

Definition MIN_IDENTIFIED_RATIO : Q := 70 # 100.
Definition MIN_CONSENSUS_RATIO : Q := 70 # 100.

(** ** [collections.Counter] on strings

    A [Counter] is a dictionary, so it keeps its keys in the order of
    their first insertion. *)

Fixpoint counter_add (x : string) (c : list (string * nat))
  : list (string * nat) :=
  match c with
  | [] => [(x, 1)]
  | (y, n) :: c' =>
      if String.eqb x y then (y, S n) :: c' else (y, n) :: counter_add x c'
  end.

Definition Counter (xs : list string) : list (string * nat) :=
  fold_left (λ c x, counter_add x c) xs [].

(** [most_common(1)] is [max(items, key=count)]: the running maximum is
    replaced only by a strictly larger count. *)
Fixpoint max_by_count (best : string * nat) (rest : list (string * nat))
  : string * nat :=
  match rest with
  | [] => best
  | it :: rest' =>
      max_by_count (if (best.2 <? it.2)%nat then it else best) rest'
  end.

Definition most_common_1 (c : list (string * nat)) : option (string * nat) :=
  match c with
  | [] => None
  | it :: rest => Some (max_by_count it rest)
  end.

(** ** Files of an album *)

(** [sorted(...)] on names: insertion into an ordered list. *)
Fixpoint insert_name (x : string) (l : list string) : list string :=
  match l with
  | [] => [x]
  | y :: l' => if String.leb x y then x :: l else y :: insert_name x l'
  end.

Definition sorted_names (l : list string) : list string :=
  foldr insert_name [] l.

(** [sorted(Path(d).glob("*.flac"))] over the names in a directory. *)
Definition flac_names (names : list string) : list string :=
  sorted_names (List.filter (PyStr.endswith ".flac") names).

(** [Path.stem]: the name without its last suffix. *)
Definition stem (name : string) : string :=
  if PyStr.endswith ".flac" name && (5 <? String.length name)%nat
  then PyStr.take (String.length name - 5) name
  else name.

Definition join (a b : string) : string := a +:+ "/" +:+ b.

(** ** analyze_album *)

(** An element of [track_info]; the keys an unidentified track lacks
    are [None]. *)
Record track := {
  t_path : string;
  t_track_num : nat;
  t_identified : bool;
  t_title : string;
  t_artist : option string;
  t_album : option string;
  t_year : option string;
  t_score : option Q;
  t_recording_id : option string
}.

Inductive reject :=
| NoFlacFiles
| InsufficientIdentification (identified total : nat)
| NoArtists
| NoConsensus (ratio : Q).

Record analysis := {
  a_source_path : string;
  a_artist : string;
  a_album : string;
  a_year : string;
  a_tracks : list track;
  a_identified_count : nat;
  a_total_tracks : nat;
  a_consensus_ratio : Q
}.

(** The three lists the loop of lines 112-140 fills. *)
Record scan := {
  track_info : list track;
  artists : list string;
  albums : list string
}.

(** One turn of the loop, for the [i]-th file. *)
Definition scan_step (lookup : string → lookup_reply) (album_path : string)
    (acc : scan) (i : nat) (name : string) : scan :=
  let flac_path := join album_path name in
  match fingerprint_and_lookup (lookup flac_path) with
  | Some result =>
      {| track_info := track_info acc ++
           [{| t_path := flac_path; t_track_num := i; t_identified := true;
               t_title := title result; t_artist := Some (artist result);
               t_album := Some (album result); t_year := Some (year result);
               t_score := Some (score result);
               t_recording_id := recording_id result |}];
         artists := artists acc ++ [artist result];
         albums := if PyStr.truthy (album result)
                   then albums acc ++ [album result] else albums acc |}
  | None =>
      let original_title := stem name in
      let original_title :=
        if PyStr.startswith (PyStr.of_nat_02 i +:+ " - ") original_title
        then PyStr.drop 5 original_title else original_title in
      {| track_info := track_info acc ++
           [{| t_path := flac_path; t_track_num := i; t_identified := false;
               t_title := original_title; t_artist := None;
               t_album := None; t_year := None; t_score := None;
               t_recording_id := None |}];
         artists := artists acc;
         albums := albums acc |}
  end.

Fixpoint scan_from (lookup : string → lookup_reply) (album_path : string)
    (acc : scan) (i : nat) (names : list string) : scan :=
  match names with
  | [] => acc
  | name :: rest =>
      scan_from lookup album_path (scan_step lookup album_path acc i name)
        (S i) rest
  end.

Definition scan_album (lookup : string → lookup_reply) (album_path : string)
    (flac_files : list string) : scan :=
  scan_from lookup album_path
    {| track_info := []; artists := []; albums := [] |} 1 flac_files.

(** [a / b] for two counts, [b] positive. *)
Definition ratio (a b : nat) : Q := Z.of_nat a # Pos.of_nat b.

(** The first truthy [year] among the tracks, in order. *)
Fixpoint first_year (ts : list track) : string :=
  match ts with
  | [] => ""
  | t :: ts' => if PyStr.truthy_opt (t_year t) then
                  match t_year t with Some y => y | None => "" end
                else first_year ts'
  end.

Definition analyze_album (lookup : string → lookup_reply)
    (album_path : string) (names : list string) : reject + analysis :=
  let flac_files := flac_names names in
  match flac_files with
  | [] => inl NoFlacFiles
  | _ :: _ =>
      let s := scan_album lookup album_path flac_files in
      let identified_count :=
        length (List.filter t_identified (track_info s)) in
      let id_ratio := ratio identified_count (length flac_files) in
      if Qltb id_ratio MIN_IDENTIFIED_RATIO
      then inl (InsufficientIdentification identified_count
                  (length flac_files))
      else if bool_decide (artists s = []) then inl NoArtists
      else
        match most_common_1 (Counter (artists s)) with
        | None => inl NoArtists     (* not reached: the list is not empty *)
        | Some (primary_artist, artist_count) =>
            let consensus_ratio := ratio artist_count (length (artists s)) in
            if Qltb consensus_ratio MIN_CONSENSUS_RATIO
            then inl (NoConsensus consensus_ratio)
            else
              let primary_album :=
                match most_common_1 (Counter (albums s)) with
                | Some (a, _) => a
                | None => "Unknown Album"
                end in
              inr {| a_source_path := album_path;
                     a_artist := primary_artist;
                     a_album := primary_album;
                     a_year := first_year (track_info s);
                     a_tracks := track_info s;
                     a_identified_count := identified_count;
                     a_total_tracks := length flac_files;
                     a_consensus_ratio := consensus_ratio |}
        end
  end.

End Tagger.

(* ===================================================================== *)
(** * Paths and the directory tree *)
(* ===================================================================== *)

Module Path.

Definition is_slash (c : ascii) : bool := Ascii.eqb c "/"%char.

Fixpoint has_slash (s : string) : bool :=
  match s with
  | "" => false
  | String c r => is_slash c || has_slash r
  end.

(** [os.path.basename]: what follows the last slash. *)
Fixpoint basename (p : string) : string :=
  match p with
  | "" => ""
  | String c r =>
      if has_slash r then basename r
      else if is_slash c then r else p
  end.

(** What [os.path.split] calls the head, up to and with the last slash. *)
Fixpoint head_with_slash (p : string) : string :=
  match p with
  | "" => ""
  | String c r =>
      if has_slash r then String c (head_with_slash r)
      else if is_slash c then "/" else ""
  end.

Fixpoint all_slashes (s : string) : bool :=
  match s with
  | "" => true
  | String c r => is_slash c && all_slashes r
  end.

(** [head.rstrip('/')] *)
Fixpoint rstrip_slashes (s : string) : string :=
  match s with
  | "" => ""
  | String c r => if all_slashes s then "" else String c (rstrip_slashes r)
  end.

(** [os.path.dirname] *)
Definition dirname (p : string) : string :=
  let head := head_with_slash p in
  if PyStr.truthy head && negb (all_slashes head)
  then rstrip_slashes head else head.

(** [os.path.join] of two components. *)
Definition join (a b : string) : string :=
  if PyStr.startswith "/" b then b
  else if negb (PyStr.truthy a) || PyStr.endswith "/" a then a +:+ b
  else a +:+ "/" +:+ b.

(** [s.split('/')] *)
Fixpoint split_slash (s : string) : list string :=
  match s with
  | "" => [""]
  | String c r =>
      if is_slash c then "" :: split_slash r
      else match split_slash r with
           | h :: t => String c h :: t
           | [] => [String c ""]
           end
  end.

(** ['/'.join(comps)] *)
Fixpoint join_slash (comps : list string) : string :=
  match comps with
  | [] => ""
  | [c] => c
  | c :: rest => c +:+ "/" +:+ join_slash rest
  end.

(** The loop of [posixpath.normpath] over the components. *)
Definition norm_step (absolute : bool) (new_comps : list string)
    (comp : string) : list string :=
  if String.eqb comp "" || String.eqb comp "." then new_comps
  else if negb (String.eqb comp "..")
          || (negb absolute && bool_decide (new_comps = []))
          || bool_decide (last new_comps = Some "..")
       then new_comps ++ [comp]
       else removelast new_comps.

(** [os.path.normpath] *)
Definition normpath (path : string) : string :=
  match path with
  | "" => "."
  | _ =>
      let initial_slashes :=
        if PyStr.startswith "/" path then
          if PyStr.startswith "//" path && negb (PyStr.startswith "///" path)
          then "//" else "/"
        else "" in
      let comps :=
        fold_left (norm_step (PyStr.truthy initial_slashes))
                  (split_slash path) [] in
      let path' := initial_slashes +:+ join_slash comps in
      if PyStr.truthy path' then path' else "."
  end.

(** The name of [k] below [parent], when [k] is an entry of [parent]. *)
Definition child_name (parent k : string) : option string :=
  if PyStr.startswith (parent +:+ "/") k then
    let name := PyStr.drop (String.length parent + 1) k in
    if PyStr.truthy name && negb (has_slash name) then Some name else None
  else None.

(** The proper ancestors of a path, the shortest first, without the root. *)
Fixpoint ancestors_from (pre s : string) : list string :=
  match s with
  | "" => []
  | String c r =>
      if is_slash c
      then (if PyStr.truthy pre && negb (PyStr.endswith "/" pre)
            then [pre] else [])
           ++ ancestors_from (pre +:+ "/") r
      else ancestors_from (pre +:+ String c "") r
  end.

Definition ancestors (p : string) : list string := ancestors_from "" p.

End Path.

Module Fs.

(** An embedded picture of a FLAC file. *)
Record picture := {
  pic_type : nat;
  pic_mime : string;
  pic_data : string
}.

(** A file: a FLAC stream with its Vorbis comments and pictures, or
    anything else (which [FLAC(path)] refuses to open). *)
Inductive file :=
| Flac (tags : list (string * string)) (pictures : list picture)
       (audio : string)
| Blob (content : string).

#[export] Instance picture_eq_dec : EqDecision picture.
Proof. solve_decision. Defined.

#[export] Instance file_eq_dec : EqDecision file.
Proof. solve_decision. Defined.

(** A directory is its listing; the tree maps the path of a directory to
    it. *)
Abbreviation dir := (gmap string file).
Abbreviation tree := (gmap string (gmap string file)).

(** [os.path.exists] for a directory path, looked up as it is written *)
Definition exists_dir (p : string) (t : tree) : bool :=
  bool_decide (is_Some (t !! p)).

(** [os.listdir(p)] is empty: no file in it and no directory below it. *)
Definition listdir_empty (p : string) (t : tree) : bool :=
  match t !! p with
  | Some d =>
      bool_decide (d = ∅)
      && forallb (λ k, negb (PyStr.startswith (p +:+ "/") k))
                 (map fst (map_to_list t))
  | None => false
  end.

(** [shutil.rmtree(p)] and [os.rmdir(p)] *)
Definition rmtree (p : string) (t : tree) : tree := delete p t.
Definition rmdir (p : string) (t : tree) : tree := delete p t.

(** [os.makedirs(p, exist_ok=True)] *)
Definition mkdir_if_missing (p : string) (t : tree) : tree :=
  match t !! p with
  | Some _ => t
  | None => <[p := ∅]> t
  end.

Definition makedirs (p : string) (t : tree) : tree :=
  mkdir_if_missing p (fold_left (λ t q, mkdir_if_missing q t)
                                (Path.ancestors p) t).

(** [shutil.copytree(src, dst)]; the callers have checked that [src]
    exists. *)
Definition copytree (src dst : string) (t : tree) : tree :=
  match t !! src with
  | Some d => <[dst := d]> t
  | None => t
  end.

(** [shutil.move(src, dst)] of a directory to a path that does not
    exist: a rename.  [None] when [src] is missing (the call raises). *)
Definition move_dir (src dst : string) (t : tree) : option tree :=
  match t !! src with
  | Some d => Some (<[dst := d]> (delete src t))
  | None => None
  end.

(** [shutil.move] of the file [name] of [src] to [new_name] in [dst].
    [None] when the file or a directory is missing. *)
Definition move_file (src name dst new_name : string) (t : tree)
  : option tree :=
  match t !! src with
  | Some d =>
      match d !! name with
      | Some f =>
          let t' := <[src := delete name d]> t in
          match t' !! dst with
          | Some d' => Some (<[dst := <[new_name := f]> d']> t')
          | None => None
          end
      | None => None
      end
  | None => None
  end.

End Fs.

(* ===================================================================== *)
(** * tagger-app/app.py: history, backup, save, undo *)
(* ===================================================================== *)

Module App.
Import Fs.

Definition MUSIC_DIR : string := "/home/arm/music".
Definition UNKNOWN_DIR : string := Path.join MUSIC_DIR "Unknown Artist".
Definition BACKUP_DIR : string := "/home/arm/logs/tagger_backups".

(** ** History *)

(** What a caller hands to [add_history_entry]. *)
Record entry_data := {
  d_artist : string;
  d_album : string;
  d_action : string;
  d_original_path : string;
  d_new_path : option string;
  d_backup_path : option string
}.

(** An entry of the history file. *)
Record entry := {
  e_id : nat;
  e_timestamp : string;
  e_artist : string;
  e_album : string;
  e_action : string;
  e_original_path : string;
  e_new_path : option string;
  e_backup_path : option string;
  e_undone : bool
}.

(** The state the handlers work on: the directory tree and the content
    of the history file, oldest entry first. *)
Record state := {
  disk : gmap string (gmap string file);
  history : list entry
}.

(** [history[-100:]] *)
Definition last_100 (h : list entry) : list entry :=
  drop (length h - 100) h.

(** Lines 56-65; [now] is [datetime.now().isoformat()]. *)
Definition add_history_entry (now : string) (d : entry_data)
    (h : list entry) : nat * list entry :=
  let e := {| e_id := length h + 1;
              e_timestamp := now;
              e_artist := d_artist d;
              e_album := d_album d;
              e_action := d_action d;
              e_original_path := d_original_path d;
              e_new_path := d_new_path d;
              e_backup_path := d_backup_path d;
              e_undone := false |} in
  let h := h ++ [e] in
  let h := if 100 <? length h then last_100 h else h in
  (e_id e, h).

(** The test of line 70. *)
Definition undoable (e : entry) : bool :=
  negb (e_undone e) && PyStr.truthy_opt (e_backup_path e).

(** Lines 67-72: the first undoable entry of the reversed history. *)
Definition get_last_undoable (h : list entry) : option entry :=
  List.find undoable (rev h).

(** Lines 2467-2472: the first entry with the given id is marked. *)
Fixpoint mark_undone (id : nat) (h : list entry) : list entry :=
  match h with
  | [] => []
  | e :: h' =>
      if e_id e =? id
      then {| e_id := e_id e; e_timestamp := e_timestamp e;
              e_artist := e_artist e; e_album := e_album e;
              e_action := e_action e;
              e_original_path := e_original_path e;
              e_new_path := e_new_path e;
              e_backup_path := e_backup_path e;
              e_undone := true |} :: h'
      else e :: mark_undone id h'
  end.

(** ** Backup *)

(** The test of line 2599 on an entry of the tree: a directory of
    [BACKUP_DIR] whose name ends with [_<album_name>]. *)
Definition old_backup (album_name : string) (k : string) : bool :=
  match Path.child_name BACKUP_DIR k with
  | Some name => PyStr.endswith ("_" +:+ album_name) name
  | None => false
  end.

(** Lines 2592-2613; [stamp] is [datetime.now().strftime(...)]. *)
Definition create_backup (stamp : string) (folder_path : string)
    (t : tree) : string * tree :=
  let album_name := Path.basename folder_path in
  let t := filter (λ kv : string * dir, old_backup album_name kv.1 = false) t in
  let backup_name := "backup_" +:+ stamp +:+ "_" +:+ album_name in
  let backup_path := Path.join BACKUP_DIR backup_name in
  (backup_path, copytree folder_path backup_path t).

(** ** Names *)

(** The double quote character, code 34. *)
Definition double_quote : ascii := ascii_of_nat 34.

(** Lines 2616-2619 *)
Definition sanitize (name : string) : string :=
  PyStr.strip
    (fold_left (λ n c, PyStr.replace_char c "-" n)
       ["/"; "\"; ":"; "*"; "?"; double_quote; "<"; ">"; "|"]%char name).

Definition compilation_keywords : list string :=
  ["various artists"; "various"; "va"; "soundtrack"; "ost";
   "compilation"; "sampler"].

(** Line 2321 *)
Definition is_compilation (artist : string) : bool :=
  bool_decide (PyStr.strip (PyStr.lower artist) ∈ compilation_keywords)
  || existsb (λ kw, PyStr.contains kw (PyStr.lower artist))
             ["various"; "soundtrack"; "ost"].

(** Lines 2327-2341: artist and title of track [i], from the title the
    form supplies for it. *)
Definition track_identity (artist : string) (i : nat) (supplied : string)
  : string * string :=
  let title := PyStr.strip supplied in
  let title := if PyStr.truthy title then title
               else "Track " +:+ PyStr.of_nat i in
  if is_compilation artist && PyStr.contains " - " title then
    match PyStr.split_once " - " title with
    | Some (p0, p1) =>
        if PyStr.truthy (PyStr.strip p0) && PyStr.truthy (PyStr.strip p1)
        then (PyStr.strip p0, PyStr.strip p1)
        else (artist, title)
    | None => (artist, title)
    end
  else (artist, title).

(** Lines 2381-2389 *)
Definition new_file_name (artist : string) (i : nat)
    (track_artist track_title : string) : string :=
  if is_compilation artist && negb (String.eqb track_artist artist)
  then PyStr.of_nat_02 i +:+ " - " +:+ sanitize track_artist +:+ " - "
       +:+ sanitize track_title +:+ ".flac"
  else PyStr.of_nat_02 i +:+ " - " +:+ sanitize track_title +:+ ".flac".

(** ** The request of [save] *)

Record form := {
  f_original_path : string;
  f_is_existing : bool;              (* [is_existing == 'True'] *)
  f_folder : string;                 (* the folder of the form or the URL *)
  f_artist : string;
  f_album_name : string;
  f_year : string;
  f_genre : string;
  f_disc_number : string;
  f_disc_total : string;
  f_track : nat → string;            (* [track_<i>], [''] when absent *)
  f_art_data : option string         (* the picture of lines 2284-2305 *)
}.

Record clock := {
  backup_stamp : string;             (* [strftime('%Y%m%d_%H%M%S')] *)
  entry_iso : string                 (* [isoformat()] *)
}.

Inductive response :=
| AlbumNotFound
| FieldsRequired
| FolderExists (safe_artist safe_album : string)
| Saved (artist album : string)
| Crashed                            (* an exception leaves the handler *)
| NothingToUndo
| UndoSuccessful (artist album : string)
| UndoFailed
| BackupNotFound (artist album : string).

(** Lines 2343-2379: the tags of one file are rewritten; a file that is
    not FLAC raises, which is caught. *)
Definition retag (fl : file) (art_data : option string)
    (track_artist artist album_name track_title : string) (i total : nat)
    (compilation : bool) (year genre disc_number disc_total : string)
  : file :=
  match fl with
  | Blob _ => fl
  | Flac _ pictures audio =>
      let new_art := match art_data with
                     | Some a => PyStr.truthy a
                     | None => false
                     end in
      let opt (k v : string) := if PyStr.truthy v then [(k, v)] else [] in
      let tags :=
        [("ARTIST", track_artist); ("ALBUMARTIST", artist);
         ("ALBUM", album_name); ("TITLE", track_title);
         ("TRACKNUMBER", PyStr.of_nat i); ("TRACKTOTAL", PyStr.of_nat total)]
        ++ (if compilation then [("COMPILATION", "1")] else [])
        ++ opt "DATE" year ++ opt "GENRE" genre
        ++ opt "DISCNUMBER" disc_number ++ opt "DISCTOTAL" disc_total in
      let pics :=
        if new_art
        then [{| pic_type := 3; pic_mime := "image/jpeg";
                 pic_data := default "" art_data |}]
        else pictures in
      Flac tags pics audio
  end.

(** One turn of the loop of lines 2326-2391, for the [i]-th file.
    [None] when [shutil.move] raises. *)
Definition save_track (f : form) (artist album_name : string)
    (folder_path new_dir : string) (same_location : bool) (total : nat)
    (t : tree) (i : nat) (name : string) : option tree :=
  let '(track_artist, track_title) :=
    track_identity artist i (f_track f i) in
  let t :=
    match t !! folder_path with
    | Some d =>
        match d !! name with
        | Some fl =>
            <[folder_path :=
                <[name := retag fl (f_art_data f) track_artist artist
                            album_name track_title i total
                            (is_compilation artist)
                            (PyStr.strip (f_year f)) (PyStr.strip (f_genre f))
                            (PyStr.strip (f_disc_number f))
                            (PyStr.strip (f_disc_total f))]> d]> t
        | None => t
        end
    | None => t
    end in
  if same_location then Some t
  else move_file folder_path name new_dir
         (new_file_name artist i track_artist track_title) t.

Fixpoint save_tracks (f : form) (artist album_name : string)
    (folder_path new_dir : string) (same_location : bool) (total : nat)
    (t : tree) (i : nat) (names : list string) : option tree :=
  match names with
  | [] => Some t
  | name :: rest =>
      match save_track f artist album_name folder_path new_dir
              same_location total t i name with
      | Some t' => save_tracks f artist album_name folder_path new_dir
                     same_location total t' (S i) rest
      | None => None
      end
  end.

(** Lines 2393-2403 and 2449-2456: the folder goes, and its parent if
    that is left empty. *)
Definition remove_empty_parent (p : string) (t : tree) : tree :=
  let parent := Path.dirname p in
  if exists_dir parent t && listdir_empty parent t
  then rmdir parent t else t.

Definition remove_folder (p : string) (t : tree) : tree :=
  let t := if exists_dir p t then rmtree p t else t in
  remove_empty_parent p t.

(** Lines 2258-2417 *)
Definition save (clk : clock) (f : form) (st : state) : response * state :=
  let folder_path :=
    if f_is_existing f && PyStr.truthy (f_original_path f)
    then f_original_path f
    else Path.join UNKNOWN_DIR (f_folder f) in
  if negb (exists_dir folder_path (disk st)) then (AlbumNotFound, st)
  else
    let artist := PyStr.strip (f_artist f) in
    let album_name := PyStr.strip (f_album_name f) in
    if negb (PyStr.truthy artist) || negb (PyStr.truthy album_name)
    then (FieldsRequired, st)
    else
      let '(backup_path, t) :=
        create_backup (backup_stamp clk) folder_path (disk st) in
      let flac_files :=
        match t !! folder_path with
        | Some d => Tagger.flac_names (map fst (map_to_list d))
        | None => []
        end in
      let safe_artist := sanitize artist in
      let safe_album := sanitize album_name in
      let new_dir := Path.join (Path.join MUSIC_DIR safe_artist) safe_album in
      let same_location :=
        String.eqb (Path.normpath new_dir) (Path.normpath folder_path) in
      if negb same_location && exists_dir new_dir t
      then (FolderExists safe_artist safe_album,
            {| disk := t; history := history st |})
      else
        let t := if same_location then t else makedirs new_dir t in
        match save_tracks f artist album_name folder_path new_dir
                same_location (length flac_files) t 1 flac_files with
        | None => (Crashed, {| disk := t; history := history st |})
        | Some t =>
            let t := if same_location then t else remove_folder folder_path t in
            let action :=
              if same_location then "Updated metadata"
              else "Moved from " +:+ Path.basename folder_path in
            let '(_, h) :=
              add_history_entry (entry_iso clk)
                {| d_artist := artist; d_album := album_name;
                   d_action := action; d_original_path := folder_path;
                   d_new_path := Some new_dir;
                   d_backup_path := Some backup_path |}
                (history st) in
            (Saved artist album_name, {| disk := t; history := h |})
        end.

(** Lines 2420-2531 *)
Definition undo (st : state) : response * state :=
  match get_last_undoable (history st) with
  | None => (NothingToUndo, st)
  | Some entry =>
      let t := disk st in
      let original_path := e_original_path entry in
      match e_backup_path entry with
      | Some backup_path =>
          if PyStr.truthy backup_path && exists_dir backup_path t then
            let t :=
              match e_new_path entry with
              | Some new_path =>
                  if PyStr.truthy new_path && exists_dir new_path t
                  then remove_empty_parent new_path (rmtree new_path t)
                  else t
              | None => t
              end in
            let t := if exists_dir original_path t
                     then rmtree original_path t else t in
            if negb (PyStr.truthy (Path.dirname original_path))
            then (UndoFailed, {| disk := t; history := history st |})
            else
              let t := makedirs (Path.dirname original_path) t in
              match move_dir backup_path original_path t with
              | None => (UndoFailed, {| disk := t; history := history st |})
              | Some t =>
                  (UndoSuccessful (e_artist entry) (e_album entry),
                   {| disk := t;
                      history := mark_undone (e_id entry) (history st) |})
              end
          else (BackupNotFound (e_artist entry) (e_album entry), st)
      | None => (BackupNotFound (e_artist entry) (e_album entry), st)
      end
  end.

End App.

(* ===================================================================== *)
(** * fingerprint_tagger.py: names and the application of an analysis *)
(* ===================================================================== *)

Module Cli.
Import Fs Tagger.

Definition MUSIC_DIR : string := "/home/arm/music".

(** Lines 90-95; [None] is Python's [None]. *)
Definition sanitize_filename (name : option string) : string :=
  match name with
  | None => "Unknown"
  | Some name =>
      PyStr.strip
        (fold_left (λ n c, PyStr.replace_char c "-" n)
           ["/"; "\"; ":"; "*"; "?"; App.double_quote; "<"; ">"; "|"]%char
           name)
  end.


(** [track.get('title') or f"Track {n}"] *)
Definition title_of (t : track) : string :=
  if PyStr.truthy (t_title t) then t_title t
  else "Track " +:+ PyStr.of_nat (t_track_num t).

(** Line 238 *)
Definition new_filename (t : track) : string :=
  PyStr.of_nat_02 (t_track_num t) +:+ " - "
  +:+ sanitize_filename (Some (title_of t)) +:+ ".flac".





End Cli.

(* ===================================================================== *)
(** * tagger-app/app.py: what the editor shows of an album *)
(* ===================================================================== *)

Module Editor.
Import Fs.

(** [audio.get(key, [dflt])[0]]: the first value of the key, whatever
    the case of its letters in the file. *)
Definition tag_first (key dflt : string) (tags : list (string * string))
  : string :=
  match List.filter (λ kv, String.eqb (PyStr.lower kv.1) (PyStr.lower key))
                    tags with
  | kv :: _ => kv.2
  | [] => dflt
  end.

(** [str.isdigit], on the characters below 256: the ten digits and the
    superscripts one, two and three. *)
Definition is_digit (c : ascii) : bool :=
  let n := nat_of_ascii c in
  ((48 <=? n) && (n <=? 57)) || (n =? 178) || (n =? 179) || (n =? 185).

Fixpoint all_digits (s : string) : bool :=
  match s with
  | "" => true
  | String c r => is_digit c && all_digits r
  end.

Definition isdigit (s : string) : bool := PyStr.truthy s && all_digits s.

(** Line 2241: a title of the form [track N]. *)
Definition placeholder (title : string) : bool :=
  PyStr.startswith "track " (PyStr.lower title)
  && isdigit (PyStr.drop 6 title).

(** The album-level variables of the loop. *)
Record album_level := {
  lv_artist : string;
  lv_album : string;
  lv_year : string;
  lv_genre : string;
  lv_disc_number : string;
  lv_disc_total : string;
  lv_has_art : bool;
  lv_compilation : bool
}.

Definition initial : album_level :=
  {| lv_artist := ""; lv_album := ""; lv_year := ""; lv_genre := "";
     lv_disc_number := ""; lv_disc_total := ""; lv_has_art := false;
     lv_compilation := false |}.

Definition mark_compilation (lv : album_level) : album_level :=
  {| lv_artist := lv_artist lv; lv_album := lv_album lv;
     lv_year := lv_year lv; lv_genre := lv_genre lv;
     lv_disc_number := lv_disc_number lv; lv_disc_total := lv_disc_total lv;
     lv_has_art := lv_has_art lv; lv_compilation := true |}.

(** Lines 2216-2239: the title of the [i]-th file, before line 2241.  A
    file that [FLAC] does not open is shown by the stem of its name. *)
Definition read_track (i : nat) (name : string) (fl : option file)
    (lv : album_level) : album_level * string :=
  match fl with
  | Some (Flac tags pictures _) =>
      let title := tag_first "title" (Tagger.stem name) tags in
      let track_artist := tag_first "artist" "" tags in
      let lv :=
        if i =? 1 then
          {| lv_artist :=
               (let a := tag_first "albumartist" "" tags in
                if PyStr.truthy a then a else track_artist);
             lv_album := tag_first "album" "" tags;
             lv_year := tag_first "date" "" tags;
             lv_genre := tag_first "genre" "" tags;
             lv_disc_number := tag_first "discnumber" "" tags;
             lv_disc_total := tag_first "disctotal" "" tags;
             lv_has_art := match pictures with [] => false | _ => true end;
             lv_compilation :=
               String.eqb (tag_first "compilation" "" tags) "1" |}
        else lv in
      if PyStr.truthy track_artist
         && negb (String.eqb track_artist (lv_artist lv))
      then (mark_compilation lv, track_artist +:+ " - " +:+ title)
      else (lv, title)
  | _ => (lv, Tagger.stem name)
  end.

Record shown_track := {
  s_num : nat;
  s_title : string;
  s_file : string;
  s_path : string
}.

(** The loop of lines 2215-2243, from the [i]-th file on. *)
Fixpoint read_tracks (folder_path : string) (d : dir) (i : nat)
    (names : list string) (lv : album_level)
  : album_level * list shown_track :=
  match names with
  | [] => (lv, [])
  | name :: rest =>
      let '(lv, title) := read_track i name (d !! name) lv in
      let title := if placeholder title then "" else title in
      let '(lv', shown) := read_tracks folder_path d (S i) rest lv in
      (lv', {| s_num := i; s_title := title; s_file := name;
               s_path := Tagger.join folder_path name |} :: shown)
  end.

Record album_info := {
  i_folder : string;
  i_original_path : string;
  i_artist : string;
  i_album : string;
  i_year : string;
  i_genre : string;
  i_disc_number : string;
  i_disc_total : string;
  i_has_art : bool;
  i_tracks : list shown_track
}.

(** Lines 2203-2253 *)
Definition get_album_info (folder_path folder : string) (t : tree)
  : album_info :=
  let d := default ∅ (t !! folder_path) in
  let flac_files := Tagger.flac_names (map fst (map_to_list d)) in
  let '(lv, tracks) := read_tracks folder_path d 1 flac_files initial in
  let album_artist := lv_artist lv in
  let album_artist :=
    if lv_compilation lv && PyStr.truthy album_artist
       && negb (bool_decide (PyStr.lower album_artist
                             ∈ ["various artists"; "various"; "va";
                                "soundtrack"; "ost"]))
    then "Various Artists" else album_artist in
  let album_artist :=
    if String.eqb album_artist "Unknown Artist" then "" else album_artist in
  let album_name :=
    if String.eqb (lv_album lv) "Unknown Album" then "" else lv_album lv in
  {| i_folder := folder; i_original_path := folder_path;
     i_artist := album_artist; i_album := album_name;
     i_year := lv_year lv; i_genre := lv_genre lv;
     i_disc_number := lv_disc_number lv; i_disc_total := lv_disc_total lv;
     i_has_art := lv_has_art lv; i_tracks := tracks |}.

End Editor.

(* ===================================================================== *)
(** * tagger-app/app.py: deleting an album *)
(* ===================================================================== *)

Module Delete.
Import Fs App.

Inductive outcome :=
| NotFound                            (* the message Album not found *)
| InvalidPath
| Deleted (parent_name folder_name : string) (backup_saved : bool).

(** Lines 2534-2589, for a path that designates a directory or nothing.
    [realpath] is [os.path.realpath]: how the links of the file system
    resolve is not in the tree.  The branch of lines 2563-2564 is taken when
    [rmtree] raises, which it does not on a directory. *)
Definition delete_album (realpath : string → string) (clk : clock)
    (path : string) (keep_backup : bool) (st : state) : outcome * state :=
  if negb (PyStr.truthy path) || negb (exists_dir path (disk st))
  then (NotFound, st)
  else if negb (PyStr.startswith (realpath MUSIC_DIR) (realpath path))
  then (InvalidPath, st)
  else
    let folder_name := Path.basename path in
    let parent_name := Path.basename (Path.dirname path) in
    let '(backup_path, t) :=
      if keep_backup
      then let '(b, t) := create_backup (backup_stamp clk) path (disk st) in
           (Some b, t)
      else (None, disk st) in
    let t := rmtree path t in
    let t := remove_empty_parent path t in
    let '(_, h) :=
      add_history_entry (entry_iso clk)
        {| d_artist := parent_name; d_album := folder_name;
           d_action := "Deleted album"
                       +:+ (if keep_backup then " (backup kept)"
                            else " (no backup)");
           d_original_path := path;
           d_new_path := None;
           d_backup_path := backup_path |}
        (history st) in
    (Deleted parent_name folder_name keep_backup,
     {| disk := t; history := h |}).

End Delete.

(* ===================================================================== *)
(** * tagger-app/app.py: the matches offered for one track *)
(* ===================================================================== *)

Module Matches.
Import Resolver.

(** An entry of [seen_titles]. *)
Record candidate := {
  c_title : string;
  c_artist : string;
  c_album : string;
  c_year : string;
  c_score : Q
}.

(** Lines 2025-2032: album and year from the first release that has a
    title. *)
Fixpoint first_titled (rels : list release) : string * string :=
  match rels with
  | [] => ("", "")
  | rel :: rest =>
      if PyStr.truthy_opt (rel_title rel)
      then (default "" (rel_title rel),
            let date := default "" (rel_date rel) in
            if PyStr.truthy date && (4 <=? String.length date)
            then PyStr.take 4 date else "")
      else first_titled rest
  end.

(** Lines 2016-2032 for one recording: [None] is [continue]. *)
Definition candidate_of (sc : Q) (r : recording) : option candidate :=
  match rec_title r, first_artist r with
  | Some t, Some a =>
      if PyStr.truthy t && PyStr.truthy a then
        let '(album, year) := first_titled (default [] (rec_releases r)) in
        Some {| c_title := t; c_artist := a; c_album := album;
                c_year := year; c_score := sc |}
      else None
  | _, _ => None
  end.

(** Lines 2035-2043 on the dictionary, kept in the order of insertion: a
    key that is there keeps its place and gets the better score. *)
Fixpoint upsert (key : string) (c : candidate)
    (seen : list (string * candidate)) : list (string * candidate) :=
  match seen with
  | [] => [(key, c)]
  | (k, old) :: rest =>
      if String.eqb k key
      then (k, if Qltb (c_score old) (c_score c) then c else old) :: rest
      else (k, old) :: upsert key c rest
  end.

Definition add_recording (sc : Q) (seen : list (string * candidate))
    (r : recording) : list (string * candidate) :=
  match candidate_of sc r with
  | Some c => upsert (PyStr.lower (c_title c)) c seen
  | None => seen
  end.

Definition add_group (seen : list (string * candidate)) (g : result_group)
  : list (string * candidate) :=
  if Qltb (score_of g) (1 # 2) then seen
  else fold_left (add_recording (score_of g)) (recordings_of g) seen.

(** Lines 2008-2043 *)
Definition collect (gs : list result_group) : list (string * candidate) :=
  fold_left add_group gs [].

(** [matches.sort(key=lambda x: -x['score'])]: the sort is stable. *)
Fixpoint insert_by_score (c : candidate) (l : list candidate)
  : list candidate :=
  match l with
  | [] => [c]
  | y :: rest =>
      if Qle_bool (c_score y) (c_score c) then c :: l
      else y :: insert_by_score c rest
  end.

Definition sort_by_score (l : list candidate) : list candidate :=
  foldr insert_by_score [] l.

Record shown_match := {
  m_title : string;
  m_artist : string;
  m_album : string;
  m_year : string;
  m_percent : Z
}.

(** Lines 2055-2059.  [percent] is [round(score * 100)] on the floating
    point score. *)
Definition to_shown (percent : Q → Z) (c : candidate) : shown_match :=
  {| m_title := c_title c; m_artist := c_artist c; m_album := c_album c;
     m_year := c_year c; m_percent := percent (c_score c) |}.

Inductive response :=
| PathRequired
| MustBeFlac
| LookupFailed
| NoMatches
| NoValidMatches
| Success (matches : list shown_match).

(** Lines 1972-2067.  [arg] is the parameter [path] of the request,
    [present] is [os.path.exists], [lookup] the fingerprint of a file and the
    reply of the service to it, [percent] the rounded percentage of a
    score. *)
Definition api_fingerprint_track (percent : Q → Z) (arg : string)
    (present : string → bool) (lookup : string → lookup_reply) : response :=
  let file_path := PyStr.strip arg in
  if negb (PyStr.truthy file_path) || negb (present file_path)
  then PathRequired
  else if negb (PyStr.endswith ".flac" file_path) then MustBeFlac
  else
    match lookup file_path with
    | LookupError => LookupFailed
    | Reply None => NoMatches
    | Reply (Some []) => NoMatches
    | Reply (Some gs) =>
        match collect gs with
        | [] => NoValidMatches
        | seen =>
            Success (to_shown percent <$> take 10 (sort_by_score seen.*2))
        end
    end.

End Matches.

(* ===================================================================== *)
(** * tagger-app/app.py: the releases offered for an album *)
(* ===================================================================== *)

Module Releases.

(** The value of a key that the code hands to [int]: the key may be
    absent, and what it holds may be no numeral. *)
Inductive int_field :=
| Absent
| Unparsable
| Int (z : Z).

(** [int(d.get(key, 0))]; [None] when [int] raises. *)
Definition parse (f : int_field) : option Z :=
  match f with
  | Absent => Some 0%Z
  | Unparsable => None
  | Int z => Some z
  end.

(** A release of the search reply, as the code reads it. *)
Record found_release := {
  fr_id : option string;              (* [release['id']] raises if absent *)
  fr_artist : option string;          (* [artist-credit-phrase] *)
  fr_title : option string;
  fr_date : option string;
  fr_track_counts : list int_field;   (* [track-count] of each medium *)
  fr_score : int_field                (* [ext:score] *)
}.

Record candidate := {
  c_id : string;
  c_artist : string;
  c_album : string;
  c_year : string;
  c_track_count : Z;
  c_track_match : bool;
  c_score : int_field
}.

(** [sum(int(...) for m in ...)] *)
Fixpoint sum_counts (fs : list int_field) : option Z :=
  match fs with
  | [] => Some 0%Z
  | f :: rest =>
      match parse f, sum_counts rest with
      | Some z, Some s => Some (z + s)%Z
      | _, _ => None
      end
  end.

(** [f"{n}"] for an integer. *)
Definition of_Z (z : Z) : string := NilZero.string_of_int (Z.to_int z).

(** The key of line 170. *)
Definition key_of (artist title : string) (track_count : Z) : string :=
  PyStr.lower artist +:+ "|" +:+ PyStr.lower title +:+ "|"
  +:+ of_Z track_count.

(** The loop of lines 163-176; [None] when a step raises. *)
Fixpoint scan (local : Z) (rels : list found_release) (seen : list string)
    (acc : list candidate) : option (list candidate) :=
  match rels with
  | [] => Some acc
  | r :: rest =>
      match fr_id r, sum_counts (fr_track_counts r) with
      | Some rid, Some track_count =>
          let artist := default "Unknown" (fr_artist r) in
          let title := default "Unknown" (fr_title r) in
          let date := default "" (fr_date r) in
          let year := if PyStr.truthy date then PyStr.take 4 date else "" in
          let key := key_of artist title track_count in
          if bool_decide (key ∈ seen) then scan local rest seen acc
          else
            let acc :=
              acc ++ [{| c_id := rid; c_artist := artist; c_album := title;
                         c_year := year; c_track_count := track_count;
                         c_track_match :=
                           if (0 <? local)%Z then (track_count =? local)%Z
                           else false;
                         c_score := fr_score r |}] in
            if 5 <=? length acc then Some acc
            else scan local rest (key :: seen) acc
      | _, _ => None
      end
  end.

(** The key of line 177: [(not track_match, -int(score))], in the order
    of tuples. *)
Definition before (a b : bool * Z) : bool :=
  match a.1, b.1 with
  | true, false => true
  | false, true => false
  | _, _ => (b.2 <=? a.2)%Z
  end.

Fixpoint insert_ranked (x : (bool * Z) * candidate)
    (l : list ((bool * Z) * candidate)) : list ((bool * Z) * candidate) :=
  match l with
  | [] => [x]
  | y :: rest =>
      if before x.1 y.1 then x :: l else y :: insert_ranked x rest
  end.

(** [candidates.sort(key=...)]: the keys are computed first, one [int]
    that raises makes the sort raise; the sort is stable. *)
Definition sort_ranked (cs : list candidate) : option (list candidate) :=
  keyed ← mapM (λ c, z ← parse (c_score c); Some ((c_track_match c, z), c))
              cs;
  Some (foldr insert_ranked [] keyed).*2.

(** Lines 156-183.  [reply] is the [release-list] of the search; [None]
    when the search raises or the reply has no such key. *)
Definition search_musicbrainz_releases (reply : option (list found_release))
    (local_track_count : Z) : list candidate :=
  match reply with
  | None => []
  | Some [] => []
  | Some rels =>
      match scan local_track_count rels [] [] with
      | Some cs => default [] (sort_ranked cs)
      | None => []
      end
  end.

End Releases.

(* ===================================================================== *)
(** * tagger-app/app.py: the details of a chosen release *)
(* ===================================================================== *)

Module ReleaseDetails.

(** An element of an [artist-credit]: a dictionary with an artist and a
    join phrase, or a bare string, on which [.get] raises. *)
Inductive credit :=
| Credited (name joinphrase : option string)
| Phrase (s : string).

Record mb_recording := {
  r_title : option string;
  r_credit : list credit                (* [.get('artist-credit', [])] *)
}.

Record mb_track := {
  t_recording : option mb_recording;
  t_title : option string;
  t_credit : list credit
}.

Record mb_release := {
  full_artist_phrase : option string;
  full_title : option string;
  full_date : option string;
  full_media : list (list mb_track);    (* the [track-list] of each medium *)
  full_group_id : option string
}.

Record meta := {
  m_artist : string;
  m_album : string;
  m_year : string;
  m_genre : string;
  m_tracks : list string;
  m_art_url : option string
}.

(** Lines 207-210: the names and join phrases in a row, stripped; [None]
    when an element is a bare string. *)
Fixpoint join_credit (cs : list credit) : option string :=
  match cs with
  | [] => Some ""
  | Credited name joinphrase :: rest =>
      s ← join_credit rest;
      Some (default "" name +:+ default "" joinphrase +:+ s)
  | Phrase _ :: _ => None
  end.

Definition title_of (t : mb_track) : string :=
  match t_recording t with
  | Some r =>
      match r_title r with
      | Some s => s
      | None => default "" (t_title t)
      end
  | None => default "" (t_title t)
  end.

Definition credit_of (t : mb_track) : list credit :=
  match t_recording t with
  | Some r => match r_credit r with [] => t_credit t | cs => cs end
  | None => t_credit t
  end.

Definition track_artist_of (t : mb_track) : option string :=
  match credit_of t with
  | [] => Some ""
  | cs => PyStr.strip <$> join_credit cs
  end.

(** Line 196. *)
Definition is_compilation (album_artist : string) : bool :=
  bool_decide (PyStr.lower album_artist
               ∈ ["various artists"; "various"; "va"; "soundtrack"; "ost"]).

(** Lines 199-218 for one track: [None] when it raises, [Some None] when
    the track has no title and is left out. *)
Definition track_entry (album_artist : string) (t : mb_track)
  : option (option string) :=
  let title := title_of t in
  track_artist ← track_artist_of t;
  Some (if PyStr.truthy title then
          if PyStr.truthy track_artist
             && (is_compilation album_artist
                 || negb (String.eqb track_artist album_artist))
          then Some (track_artist +:+ " - " +:+ title)
          else Some title
        else None).

Definition cover (kind id : string) : string :=
  "https://coverartarchive.org/" +:+ kind +:+ "/" +:+ id +:+ "/front-250".

(** Lines 185-250.  [reply] is the release the service returns, [None]
    when the call raises; [release_art] and [group_art] tell whether the
    cover archive answers 200 for the release and for its group. *)
Definition fetch_release_details (release_id : string)
    (reply : option mb_release) (release_art group_art : bool)
  : option meta :=
  full ← reply;
  let album_artist := default "" (full_artist_phrase full) in
  let date := default "" (full_date full) in
  entries ← mapM (track_entry album_artist) (concat (full_media full));
  let art_url :=
    if release_art then Some (cover "release" release_id)
    else match full_group_id full with
         | Some rg_id =>
             if PyStr.truthy rg_id && group_art
             then Some (cover "release-group" rg_id) else None
         | None => None
         end in
  Some {| m_artist := album_artist;
          m_album := default "" (full_title full);
          m_year := if PyStr.truthy date then PyStr.take 4 date else "";
          m_genre := "";
          m_tracks := omap id entries;
          m_art_url := art_url |}.

End ReleaseDetails.

(* ===================================================================== *)
(** * Properties *)
(* ===================================================================== *)

(** ** Auxiliary facts *)

(** Split a conjunction without unfolding what it is about. *)
Ltac split_ands := repeat match goal with |- _ ∧ _ => split end.

Lemma app_cons (c : ascii) (a b : string) :
  String c a +:+ b = String c (a +:+ b).
Proof. reflexivity. Qed.

Lemma app_empty (b : string) : "" +:+ b = b.
Proof. reflexivity. Qed.

(** Unfold the appends whose left operand shows its head. *)
Ltac sapp := rewrite ?app_cons, ?app_empty.
Ltac sapp_in H := rewrite ?app_cons, ?app_empty in H.


Lemma Qltb_lt (a b : Q) : Qltb a b = true ↔ (a < b)%Q.
Proof.
  unfold Qltb. rewrite negb_true_iff. split.
  - intros H. apply Qnot_le_lt. intros Hle.
    apply Qle_bool_iff in Hle. congruence.
  - intros H. destruct (Qle_bool b a) eqn:E; [|reflexivity].
    apply Qle_bool_iff in E. exfalso. exact (Qlt_not_le _ _ H E).
Qed.

Lemma Qltb_ge (a b : Q) : Qltb a b = false ↔ (b <= a)%Q.
Proof.
  unfold Qltb. rewrite negb_false_iff. apply Qle_bool_iff.
Qed.


Lemma truthy_true (s : string) : PyStr.truthy s = true ↔ s ≠ "".
Proof. destruct s; simpl; split; intros; congruence. Qed.

Lemma truthy_false (s : string) : PyStr.truthy s = false ↔ s = "".
Proof. destruct s; simpl; split; intros; congruence. Qed.

Lemma take_substring (n : nat) (s : string) :
  PyStr.take n s = String.substring 0 n s.
Proof.
  revert s. induction n as [|n IH]; intros [|c r]; simpl; try reflexivity.
  now rewrite IH.
Qed.

(** ** The resolver *)

Section ResolverFacts.
Import Resolver.

(** A group that yields nothing: below the floor, or without a recording
    that has both a title and an artist. *)
Definition no_candidate (g : result_group) : Prop :=
  below_floor g ∨ ∀ r, r ∈ recordings_of g → ¬ has_title_and_artist r.

(** What the returned dictionary holds, read off the chosen recording. *)
Definition describes (sc : Q) (r : recording) (m : track_match) : Prop :=
  score m = sc ∧
  rec_title r = Some (title m) ∧
  first_artist r = Some (artist m) ∧
  recording_id m = rec_id r ∧
  match first_release r with
  | Some rel =>
      album m = match rel_title rel with
                | Some t => if decide (t = "") then "Unknown Album" else t
                | None => "Unknown Album"
                end ∧
      (∀ d, rel_date rel = Some d → (4 ≤ String.length d)%nat →
            year m = String.substring 0 4 d) ∧
      (∀ d, rel_date rel = Some d → (String.length d < 4)%nat → year m = "") ∧
      (rel_date rel = None → year m = "")
  | None => album m = "Unknown Album" ∧ year m = ""
  end.

Lemma album_and_year_spec (r : recording) (m : track_match) :
  album m = PyStr.or_else (album_and_year r).1 "Unknown Album" →
  year m = PyStr.or_else (album_and_year r).2 "" →
  match first_release r with
  | Some rel =>
      album m = match rel_title rel with
                | Some t => if decide (t = "") then "Unknown Album" else t
                | None => "Unknown Album"
                end ∧
      (∀ d, rel_date rel = Some d → (4 ≤ String.length d)%nat →
            year m = String.substring 0 4 d) ∧
      (∀ d, rel_date rel = Some d → (String.length d < 4)%nat → year m = "") ∧
      (rel_date rel = None → year m = "")
  | None => album m = "Unknown Album" ∧ year m = ""
  end.
Proof.
  unfold album_and_year, first_release.
  destruct (rec_releases r) as [[|rel rels]|]; simpl; try (intros -> ->; done).
  intros Ha Hy. split; [|split; [|split]].
  - rewrite Ha. destruct (rel_title rel) as [t|]; [|done].
    simpl. destruct t; simpl; done.
  - intros d Hd Hlen. rewrite Hy, Hd. rewrite <- take_substring.
    destruct d as [|c1 [|c2 [|c3 [|c4 d']]]]; simpl in Hlen; try lia.
    reflexivity.
  - intros d Hd Hlen. rewrite Hy, Hd.
    destruct d as [|c1 [|c2 [|c3 [|c4 d']]]]; simpl in Hlen; try lia;
      reflexivity.
  - intros Hd. rewrite Hy, Hd. reflexivity.
Qed.

Lemma try_recording_Some (sc : Q) (r : recording) (m : track_match) :
  try_recording sc r = Some m → has_title_and_artist r ∧ describes sc r m.
Proof.
  unfold try_recording.
  destruct (rec_title r) as [t|] eqn:Et; [|discriminate].
  destruct (first_artist r) as [a|] eqn:Ea; [|discriminate].
  destruct (PyStr.truthy t) eqn:Ht; [|discriminate].
  destruct (PyStr.truthy a) eqn:Hta; [|discriminate].
  simpl. destruct (album_and_year r) as [alb yr] eqn:Eay.
  intros [= <-]. split.
  - exists t, a. split_ands; try done; by apply truthy_true.
  - unfold describes. split; [reflexivity|]. split; [exact Et|].
    split; [exact Ea|]. split; [reflexivity|].
    apply album_and_year_spec; rewrite Eay; reflexivity.
Qed.

Lemma try_recording_None (sc : Q) (r : recording) :
  try_recording sc r = None → ¬ has_title_and_artist r.
Proof.
  unfold try_recording. intros H (t & a & Ht & Hne & Ha & Hane).
  rewrite Ht, Ha in H.
  apply truthy_true in Hne, Hane. rewrite Hne, Hane in H.
  simpl in H. destruct (album_and_year r). discriminate.
Qed.

Lemma scan_recordings_Some (sc : Q) (rs : list recording) (m : track_match) :
  scan_recordings sc rs = Some m →
  ∃ rpre r rpost,
    rs = (rpre ++ r :: rpost)%list ∧
    (∀ r', r' ∈ rpre → ¬ has_title_and_artist r') ∧
    has_title_and_artist r ∧ describes sc r m.
Proof.
  induction rs as [|r rs IH]; simpl; [discriminate|].
  destruct (try_recording sc r) as [m'|] eqn:E.
  - intros [= ->]. apply try_recording_Some in E as [Hv Hd].
    exists [], r, rs. split_ands; try done. intros r' Hin. inversion Hin.
  - intros H. destruct (IH H) as (rpre & r0 & rpost & -> & Hpre & Hv & Hd).
    exists (r :: rpre), r0, rpost. split_ands; try done.
    intros r' Hin. apply elem_of_cons in Hin as [->|Hin].
    + by apply try_recording_None in E.
    + by apply Hpre.
Qed.

Lemma scan_recordings_None (sc : Q) (rs : list recording) :
  scan_recordings sc rs = None →
  ∀ r, r ∈ rs → ¬ has_title_and_artist r.
Proof.
  induction rs as [|r rs IH]; simpl; intros H r' Hin.
  - inversion Hin.
  - destruct (try_recording sc r) eqn:E; [discriminate|].
    apply elem_of_cons in Hin as [->|Hin].
    + by apply try_recording_None in E.
    + by apply IH.
Qed.

Lemma scan_results_spec (gs : list result_group) :
  match scan_results gs with
  | None => ∀ g, g ∈ gs → no_candidate g
  | Some m =>
      ∃ pre g post rpre r rpost,
        gs = (pre ++ g :: post)%list ∧
        (∀ g', g' ∈ pre → no_candidate g') ∧
        ¬ below_floor g ∧
        recordings_of g = (rpre ++ r :: rpost)%list ∧
        (∀ r', r' ∈ rpre → ¬ has_title_and_artist r') ∧
        has_title_and_artist r ∧
        describes (score_of g) r m
  end.
Proof.
  induction gs as [|g gs IH]; simpl.
  - intros g Hin. inversion Hin.
  - assert (Hskip : no_candidate g →
      match scan_results gs with
      | None => ∀ g0, g0 ∈ g :: gs → no_candidate g0
      | Some m =>
          ∃ pre g0 post rpre r rpost,
            g :: gs = (pre ++ g0 :: post)%list ∧
            (∀ g', g' ∈ pre → no_candidate g') ∧
            ¬ below_floor g0 ∧
            recordings_of g0 = (rpre ++ r :: rpost)%list ∧
            (∀ r', r' ∈ rpre → ¬ has_title_and_artist r') ∧
            has_title_and_artist r ∧
            describes (score_of g0) r m
      end).
    { intros Hg. destruct (scan_results gs) as [m|].
      - destruct IH as (pre & g0 & post & rpre & r & rpost & -> & Hpre & Hrest).
        exists (g :: pre), g0, post, rpre, r, rpost. split; [done|].
        split; [|exact Hrest].
        intros g' Hin. apply elem_of_cons in Hin as [->|Hin]; auto.
      - intros g0 Hin. apply elem_of_cons in Hin as [->|Hin]; auto. }
    destruct (Qltb (score_of g) MIN_CONFIDENCE) eqn:Hs.
    + apply Hskip. left. by apply Qltb_lt.
    + destruct (res_recordings g) as [rs|] eqn:Er.
      * destruct (scan_recordings (score_of g) rs) as [m|] eqn:Esr.
        -- apply scan_recordings_Some in Esr
             as (rpre & r & rpost & -> & Hpre & Hv & Hd).
           exists [], g, gs, rpre, r, rpost. split_ands; try done.
           ++ intros g' Hin. inversion Hin.
           ++ unfold below_floor. apply Qltb_ge in Hs.
              by apply Qle_not_lt.
           ++ unfold recordings_of. by rewrite Er.
        -- apply Hskip. right. unfold recordings_of. rewrite Er.
           by apply scan_recordings_None with (sc := score_of g).
      * apply Hskip. right. unfold recordings_of. rewrite Er.
        intros r Hin. inversion Hin.
Qed.

(** *** The claim, on the fields of the reply *)

(** A recording that has a title and a first artist with a name, neither
    empty. *)
Definition fit (r : recording) : Prop :=
  ∃ t a rest name,
    rec_title r = Some t ∧ t ≠ ""
    ∧ rec_artists r = a :: rest ∧ ac_name a = Some name ∧ name ≠ "".

(** A group whose score is below 0.80; a group without score counts
    for 0. *)
Definition too_low (g : result_group) : Prop :=
  match res_score g with
  | Some q => (q < 80 # 100)%Q
  | None => True
  end.

(** A group that yields nothing: its score is too low, it lists no
    recordings, or none of them fits. *)
Definition yields_nothing (g : result_group) : Prop :=
  too_low g
  ∨ res_recordings g = None
  ∨ ∃ rs, res_recordings g = Some rs ∧ ∀ r, r ∈ rs → ¬ fit r.

(** The match is read off the group [g] and its recording [r]. *)
Definition read_off (g : result_group) (r : recording) (m : track_match)
  : Prop :=
  res_score g = Some (score m)
  ∧ rec_title r = Some (title m)
  ∧ (∃ a rest, rec_artists r = a :: rest ∧ ac_name a = Some (artist m))
  ∧ recording_id m = rec_id r
  ∧ match rec_releases r with
    | Some (rel :: _) =>
        album m = match rel_title rel with
                  | Some t => if decide (t = "") then "Unknown Album" else t
                  | None => "Unknown Album"
                  end
        ∧ (∀ d, rel_date rel = Some d → (4 ≤ String.length d)%nat →
                year m = String.substring 0 4 d)
        ∧ (∀ d, rel_date rel = Some d → (String.length d < 4)%nat →
                year m = "")
        ∧ (rel_date rel = None → year m = "")
    | _ => album m = "Unknown Album" ∧ year m = ""
    end.

Lemma fit_iff (r : recording) : has_title_and_artist r ↔ fit r.
Proof.
  unfold has_title_and_artist, fit, first_artist. split.
  - intros (t & a & Ht & Hne & Ha & Hane).
    destruct (rec_artists r) as [|x rest] eqn:E; [discriminate Ha|].
    by exists t, x, rest, a.
  - intros (t & x & rest & a & Ht & Hne & Hr & Ha & Hane).
    exists t, a. rewrite Hr. done.
Qed.

Lemma too_low_iff (g : result_group) : below_floor g ↔ too_low g.
Proof.
  unfold below_floor, too_low, score_of, MIN_CONFIDENCE.
  destruct (res_score g); [done|]. split; [done|]. intros _. reflexivity.
Qed.

Lemma yields_nothing_of (g : result_group) :
  no_candidate g → yields_nothing g.
Proof.
  unfold no_candidate, yields_nothing, recordings_of.
  intros [H|H]; [left; by apply too_low_iff|].
  destruct (res_recordings g) as [rs|]; [|right; by left].
  right. right. exists rs. split; [done|].
  intros r Hr Hf. apply (H r Hr). by apply fit_iff.
Qed.

Lemma read_off_of (g : result_group) (r : recording) (m : track_match) :
  ¬ below_floor g → describes (score_of g) r m → read_off g r m.
Proof.
  intros Hg (Hs & Ht & Ha & Hid & Hrel). unfold read_off.
  split.
  { unfold below_floor, score_of, MIN_CONFIDENCE in *.
    destruct (res_score g) as [q|]; [by rewrite Hs|].
    exfalso. apply Hg. reflexivity. }
  split; [done|]. split.
  { unfold first_artist in Ha.
    destruct (rec_artists r) as [|x rest]; [discriminate Ha|].
    by exists x, rest. }
  split; [done|].
  unfold first_release in Hrel.
  destruct (rec_releases r) as [[|rel rels]|]; exact Hrel.
Qed.

(** C8. The resolver walks the result groups in order, skips every group
    scoring below 0.80, and returns the first recording of a qualifying
    group that has a non-empty title and a non-empty (first) artist: every
    group before the chosen one yields nothing and no recording before the
    chosen one has both.  Album and year come from the first release of that
    recording: the year is the first four characters of its date when the
    date has at least four, else empty (a missing or empty release title
    reads "Unknown Album").  Without any qualifying pair, and on a lookup
    failure, there is no result.  All of it is stated on the fields of the
    reply. *)
Theorem C8_resolver_first_fit (gs : list result_group) :
  fingerprint_and_lookup LookupError = None ∧
  fingerprint_and_lookup (Reply None) = None ∧
  match fingerprint_and_lookup (Reply (Some gs)) with
  | None => ∀ g, g ∈ gs → yields_nothing g
  | Some m =>
      ∃ pre g post rpre r rpost,
        gs = (pre ++ g :: post)%list ∧
        (∀ g', g' ∈ pre → yields_nothing g') ∧
        ¬ too_low g ∧
        res_recordings g = Some (rpre ++ r :: rpost)%list ∧
        (∀ r', r' ∈ rpre → ¬ fit r') ∧
        fit r ∧
        read_off g r m
  end.
Proof.
  split; [reflexivity|]. split; [reflexivity|].
  pose proof (scan_results_spec gs) as H.
  assert (E : fingerprint_and_lookup (Reply (Some gs)) = scan_results gs)
    by (by destruct gs).
  rewrite E. destruct (scan_results gs) as [m|].
  - destruct H as (pre & g & post & rpre & r & rpost
                   & Hgs & Hpre & Hg & Hrs & Hrpre & Hr & Hd).
    exists pre, g, post, rpre, r, rpost. split; [done|]. split.
    { intros g' Hin. by apply yields_nothing_of, Hpre. }
    split; [by rewrite <- too_low_iff|]. split.
    { unfold recordings_of in Hrs.
      destruct (res_recordings g) as [rs|]; [by rewrite Hrs|].
      by destruct rpre. }
    split.
    { intros r' Hin Hf. apply (Hrpre r' Hin). by apply fit_iff. }
    split; [by apply fit_iff|]. by apply read_off_of.
  - intros g Hin. by apply yields_nothing_of, H.
Qed.

(** A reply of three groups: the first fits but scores 0.79; the second
    scores 0.91 and lists a recording without artist, then two that fit;
    the third would fit too. *)
Definition three_groups : list result_group :=
  let rec_of t a rels :=
    {| rec_id := Some ("id-" +:+ t); rec_title := Some t;
       rec_artists := a; rec_releases := rels |} in
  [ {| res_score := Some (79 # 100);
       res_recordings :=
         Some [rec_of "Early" [ {| ac_name := Some "X" |} ] None] |};
    {| res_score := Some (91 # 100);
       res_recordings :=
         Some [ rec_of "Nameless" [] None;
                rec_of "Song" [ {| ac_name := Some "A" |};
                                {| ac_name := Some "B" |} ]
                  (Some [ {| rel_title := Some "";
                             rel_date := Some "1999-05-01" |};
                          {| rel_title := Some "Later";
                             rel_date := Some "2005" |} ]);
                rec_of "Other" [ {| ac_name := Some "C" |} ] None ] |};
    {| res_score := Some (99 # 100);
       res_recordings :=
         Some [rec_of "Best" [ {| ac_name := Some "D" |} ] None] |} ].

Lemma C8_resolver_first_fit_witness :
  fingerprint_and_lookup (Reply (Some three_groups))
    = Some {| score := 91 # 100; recording_id := Some "id-Song";
              title := "Song"; artist := "A"; album := "Unknown Album";
              year := "1999" |}
  ∧ ∃ pre g post rpre r rpost,
      three_groups = (pre ++ g :: post)%list
      ∧ length pre = 1 ∧ length rpre = 1
      ∧ (∀ g', g' ∈ pre → yields_nothing g')
      ∧ ¬ too_low g
      ∧ res_recordings g = Some (rpre ++ r :: rpost)%list
      ∧ (∀ r', r' ∈ rpre → ¬ fit r')
      ∧ fit r.
Proof.
  assert (E : fingerprint_and_lookup (Reply (Some three_groups))
              = Some {| score := 91 # 100; recording_id := Some "id-Song";
                        title := "Song"; artist := "A";
                        album := "Unknown Album"; year := "1999" |})
    by (vm_compute; reflexivity).
  split; [exact E|].
  destruct (C8_resolver_first_fit three_groups) as (_ & _ & H).
  rewrite E in H.
  destruct H as (pre & g & post & rpre & r & rpost
                 & Hgs & Hpre & Hg & Hrs & Hrpre & Hr & Hread).
  exists pre, g, post, rpre, r, rpost.
  assert (Hlen : length pre = 1 ∧ length rpre = 1).
  { destruct Hread as (Hs & Ht & _).
    unfold three_groups in Hgs. cbv zeta in Hgs.
    destruct pre as [|g0 [|g1 [|g2 [|g3 pre]]]]; simplify_eq/=.
    split; [reflexivity|].
    destruct rpre as [|r0 [|r1 [|r2 [|r3 rpre]]]]; simplify_eq/=.
    reflexivity. }
  destruct Hlen as [H1 H2]. by split_ands.
Defined.

End ResolverFacts.

(** ** Album consensus *)

Section ConsensusFacts.
Import Resolver Tagger.

(** Number of occurrences of [x] in [l]. *)
Definition occ (x : string) (l : list string) : nat :=
  length (filter (λ y, y = x) l).

(** Position of the first occurrence of [x] in [l] ([length l] if none). *)
Fixpoint first_pos (x : string) (l : list string) : nat :=
  match l with
  | [] => 0
  | y :: l' => if decide (y = x) then 0 else S (first_pos x l')
  end.

(** The distinct elements of [l], in the order of their first occurrence. *)
Fixpoint nub (l : list string) : list string :=
  match l with
  | [] => []
  | x :: l' => x :: filter (λ y, y ≠ x) (nub l')
  end.

Lemma occ_cons (x y : string) (l : list string) :
  occ x (y :: l) = (if decide (y = x) then 1 else 0) + occ x l.
Proof.
  unfold occ. rewrite filter_cons. destruct (decide (y = x)); reflexivity.
Qed.

Lemma occ_not_in (x : string) (l : list string) : x ∉ l → occ x l = 0.
Proof.
  induction l as [|y l IH]; intros Hn; [reflexivity|].
  rewrite occ_cons. apply not_elem_of_cons in Hn as [Hne Hn].
  destruct (decide (y = x)); [congruence|]. by rewrite IH.
Qed.

Lemma occ_pair_le (x y : string) (l : list string) :
  x ≠ y → occ x l + occ y l ≤ length l.
Proof.
  intros Hne. induction l as [|z l IH]; [reflexivity|].
  rewrite !occ_cons. simpl.
  destruct (decide (z = x)), (decide (z = y)); try congruence; lia.
Qed.

Lemma elem_of_nub (x : string) (l : list string) : x ∈ nub l ↔ x ∈ l.
Proof.
  induction l as [|y l IH]; simpl; [done|].
  rewrite !elem_of_cons, list_elem_of_filter, IH.
  destruct (decide (x = y)); intuition.
Qed.

Lemma filter_split {A} (P : A → Prop) `{∀ x, Decision (P x)}
    (l pre : list A) (p : A) (post : list A) :
  filter P l = (pre ++ p :: post)%list →
  ∃ l1 l2, l = (l1 ++ p :: l2)%list ∧ filter P l1 = pre ∧ filter P l2 = post.
Proof.
  revert pre. induction l as [|a l IH]; intros pre Hf.
  - rewrite filter_nil in Hf. by destruct pre.
  - rewrite filter_cons in Hf. destruct (decide (P a)) as [Ha|Ha].
    + destruct pre as [|b pre]; simpl in Hf; injection Hf as -> Hf.
      * exists [], l. by rewrite filter_nil.
      * destruct (IH _ Hf) as (l1 & l2 & -> & <- & <-).
        exists (b :: l1), l2. by rewrite filter_cons_True.
    + destruct (IH _ Hf) as (l1 & l2 & -> & <- & <-).
      exists (a :: l1), l2. by rewrite filter_cons_False.
Qed.

(** In [nub l] an element stands before those first met later. *)
Lemma nub_order (l pre : list string) (p : string) (post : list string) :
  nub l = (pre ++ p :: post)%list →
  ∀ b, b ∈ post → first_pos p l < first_pos b l.
Proof.
  revert pre p post. induction l as [|x l IH]; intros pre p post Hn b Hb.
  - by destruct pre.
  - simpl in Hn. destruct pre as [|y pre]; simpl in Hn; injection Hn as -> Hn.
    + subst post. apply list_elem_of_filter in Hb as [Hbx _]. simpl.
      destruct (decide (p = p)); [|done].
      destruct (decide (p = b)); [congruence|lia].
    + destruct (filter_split _ _ _ _ _ Hn) as (l1 & l2 & Hl & H1 & H2).
      assert (Hpx : p ≠ y).
      { assert (Hp : p ∈ filter (λ z, z ≠ y) (nub l))
          by (rewrite Hn; set_solver).
        by apply list_elem_of_filter in Hp as [? _]. }
      subst post. apply list_elem_of_filter in Hb as [Hby Hb]. simpl.
      destruct (decide (y = p)); [congruence|].
      destruct (decide (y = b)); [congruence|].
      apply Nat.succ_lt_mono with (n := first_pos p l). by eapply IH.
Qed.

Lemma counter_add_notin (x : string) (c : list (string * nat)) :
  x ∉ c.*1 → counter_add x c = (c ++ [(x, 1)])%list.
Proof.
  induction c as [|[y n] c IH]; simpl; intros Hn; [reflexivity|].
  apply not_elem_of_cons in Hn as [Hne Hn].
  destruct (String.eqb_spec x y); [congruence|]. by rewrite IH.
Qed.

Lemma counter_add_in (x : string) (c : list (string * nat)) :
  x ∈ c.*1 → NoDup c.*1 →
  counter_add x c =
    (λ it, (it.1, if decide (it.1 = x) then S it.2 else it.2)) <$> c.
Proof.
  induction c as [|[y n] c IH]; simpl; intros Hin Hnd; [by inversion Hin|].
  apply NoDup_cons in Hnd as [Hy Hnd].
  destruct (String.eqb_spec x y) as [->|Hne].
  - destruct (decide (y = y)); [|done]. f_equal.
    clear IH Hin. induction c as [|[z m] c IH]; [reflexivity|].
    simpl in *. apply not_elem_of_cons in Hy as [Hyz Hy].
    apply NoDup_cons in Hnd as [_ Hnd].
    destruct (decide (z = y)); [congruence|]. by rewrite <- IH.
  - destruct (decide (y = x)); [congruence|]. f_equal.
    apply IH; [|done]. apply elem_of_cons in Hin as [?|?]; done.
Qed.

Lemma fmap_filter_ext {A B} (f g : A → B) (P Q : A → Prop)
    `{∀ x, Decision (P x)} `{∀ x, Decision (Q x)} (l : list A) :
  (∀ x, x ∈ l → P x ↔ Q x) →
  (∀ x, x ∈ l → P x → f x = g x) →
  f <$> filter P l = g <$> filter Q l.
Proof.
  induction l as [|a l IH]; intros HPQ Hfg; [reflexivity|].
  assert (IH' : f <$> filter P l = g <$> filter Q l).
  { apply IH; intros x Hx; [apply HPQ | apply Hfg]; by right. }
  rewrite !filter_cons.
  destruct (decide (P a)) as [Ha|Ha], (decide (Q a)) as [Hb|Hb].
  - rewrite !fmap_cons, IH'. f_equal. apply Hfg; [by left|done].
  - exfalso. apply Hb, HPQ; [by left|done].
  - exfalso. apply Ha, HPQ; [by left|done].
  - exact IH'.
Qed.

Lemma counter_add_keys_in (x : string) (c : list (string * nat)) :
  ((λ it : string * nat,
      (it.1, if decide (it.1 = x) then S it.2 else it.2)) <$> c).*1 = c.*1.
Proof.
  rewrite <- list_fmap_compose. apply list_fmap_ext. by intros i [y n] _.
Qed.

(** The counter after feeding [xs] to a counter [c]: the keys of [c] keep
    their place and gain their occurrences, the new keys follow in the order
    of their first occurrence. *)
Lemma fold_counter (xs : list string) (c : list (string * nat)) :
  NoDup c.*1 →
  fold_left (λ c x, counter_add x c) xs c =
    ((λ it, (it.1, it.2 + occ it.1 xs)) <$> c)
    ++ ((λ y, (y, occ y xs)) <$> filter (λ y, y ∉ c.*1) (nub xs)).
Proof.
  revert c. induction xs as [|x xs IH]; intros c Hnd; simpl.
  - rewrite app_nil_r. symmetry.
    rewrite <- (list_fmap_id c) at 2. apply list_fmap_ext.
    intros i [y n] _. simpl. f_equal. unfold occ. simpl. lia.
  - destruct (decide (x ∈ c.*1)) as [Hin|Hnin].
    + rewrite counter_add_in by done.
      rewrite IH by (by rewrite counter_add_keys_in).
      rewrite counter_add_keys_in, <- list_fmap_compose.
      f_equal.
      * apply list_fmap_ext. intros i [y n] _. simpl. f_equal.
        rewrite occ_cons. destruct (decide (y = x)), (decide (x = y));
          try congruence; lia.
      * rewrite filter_cons_False by (intros Hx; by apply Hx).
        rewrite list_filter_filter. apply fmap_filter_ext.
        -- intros y _. split; [|by intros [? _]].
           intros Hy. split; [done|]. by intros ->.
        -- intros y _ Hy. f_equal. rewrite occ_cons.
           destruct (decide (x = y)); [congruence|done].
    + rewrite counter_add_notin by done. rewrite IH.
      2:{ rewrite fmap_app. apply NoDup_app. split; [done|]. split.
          - intros y Hy Hy'. apply list_elem_of_singleton in Hy'. simpl in Hy'.
            congruence.
          - apply NoDup_singleton. }
      rewrite fmap_app. simpl. rewrite <- app_assoc. simpl.
      rewrite filter_cons_True by done. simpl. f_equal.
      * apply Forall_fmap_ext_1. apply Forall_forall. intros [y n] Hy. simpl.
        f_equal. rewrite occ_cons. destruct (decide (x = y)) as [->|]; [|done].
        exfalso. apply Hnin. apply list_elem_of_fmap. by exists (y, n).
      * f_equal.
        { f_equal. rewrite occ_cons. destruct (decide (x = x)); [lia|done]. }
        rewrite list_filter_filter. apply fmap_filter_ext.
        -- intros y _. rewrite fmap_app, elem_of_app. simpl.
           rewrite list_elem_of_singleton. intuition.
        -- intros y _ Hy. f_equal. rewrite occ_cons.
           destruct (decide (x = y)) as [->|]; [|done].
           exfalso. apply Hy. rewrite fmap_app. apply elem_of_app.
           right. by left.
Qed.

Lemma Counter_nub (xs : list string) :
  Counter xs = (λ y, (y, occ y xs)) <$> nub xs.
Proof.
  unfold Counter. rewrite fold_counter by constructor. simpl. f_equal.
  induction (nub xs) as [|y l IH]; [reflexivity|].
  rewrite filter_cons_True by (intros H; inversion H). by rewrite IH.
Qed.

Lemma max_by_count_spec (rest : list (string * nat)) (best : string * nat) :
  ∃ pre post,
    best :: rest = pre ++ max_by_count best rest :: post ∧
    (∀ it, it ∈ pre → it.2 < (max_by_count best rest).2) ∧
    (∀ it, it ∈ post → it.2 ≤ (max_by_count best rest).2).
Proof.
  revert best. induction rest as [|it rest IH]; intros best; simpl.
  - exists [], []. split_ands; [done| |]; intros it Hin; inversion Hin.
  - destruct (best.2 <? it.2) eqn:Hlt.
    + apply Nat.ltb_lt in Hlt.
      destruct (IH it) as (pre & post & Heq & Hpre & Hpost).
      exists (best :: pre), post. split_ands.
      * simpl. f_equal. exact Heq.
      * intros it' Hin. apply elem_of_cons in Hin as [->|Hin]; [|by apply Hpre].
        destruct pre as [|h pre]; simpl in Heq; injection Heq as Hh Heq.
        -- by rewrite <- Hh.
        -- subst h. pose proof (Hpre it ltac:(left)). lia.
      * done.
    + apply Nat.ltb_ge in Hlt.
      destruct (IH best) as (pre & post & Heq & Hpre & Hpost).
      destruct pre as [|h pre]; simpl in Heq; injection Heq as Hh Heq.
      * exists [], (it :: rest). split_ands.
        -- simpl. f_equal. exact Hh.
        -- intros it' Hin. inversion Hin.
        -- intros it' Hin. apply elem_of_cons in Hin as [->|Hin].
           ++ by rewrite <- Hh.
           ++ apply Hpost. by rewrite <- Heq.
      * subst h. exists (best :: it :: pre), post. split_ands.
        -- simpl. do 2 f_equal. exact Heq.
        -- intros it' Hin. pose proof (Hpre best ltac:(left)) as Hb.
           apply elem_of_cons in Hin as [->|Hin]; [done|].
           apply elem_of_cons in Hin as [->|Hin]; [lia|].
           apply Hpre. by right.
        -- done.
Qed.

(** The most common element of a non-empty list, as the counter finds it:
    the most frequent one and, among equally frequent ones, the one met
    first. *)
Lemma most_common_1_spec (xs : list string) :
  xs ≠ [] →
  ∃ p, most_common_1 (Counter xs) = Some (p, occ p xs) ∧
       p ∈ xs ∧
       (∀ b, occ b xs ≤ occ p xs) ∧
       (∀ b, b ∈ xs → occ b xs = occ p xs → first_pos p xs ≤ first_pos b xs).
Proof.
  intros Hne. rewrite Counter_nub.
  destruct (nub xs) as [|y ys] eqn:En.
  { destruct xs as [|x xs]; [done|]. simpl in En. discriminate. }
  rewrite fmap_cons. unfold most_common_1.
  set (c0 := (y, occ y xs)). set (rest := (λ y0, (y0, occ y0 xs)) <$> ys).
  destruct (max_by_count_spec rest c0) as (pre & post & Heq & Hpre & Hpost).
  set (r := max_by_count c0 rest) in *.
  assert (Hc : c0 :: rest = (λ y0, (y0, occ y0 xs)) <$> nub xs)
    by (by rewrite En).
  assert (Hr : r ∈ (λ y0, (y0, occ y0 xs)) <$> nub xs).
  { rewrite <- Hc, Heq. apply elem_of_app. right. by left. }
  apply list_elem_of_fmap in Hr as (p & Hrp & Hp).
  exists p. rewrite <- Hrp. split; [reflexivity|].
  rewrite elem_of_nub in Hp. split; [exact Hp|].
  assert (Hin : ∀ b, b ∈ xs → (b, occ b xs) ∈ pre ++ r :: post).
  { intros b Hb. rewrite <- Heq, Hc. apply list_elem_of_fmap.
    exists b. split; [done|]. by apply elem_of_nub. }
  split.
  - intros b. destruct (decide (b ∈ xs)) as [Hb|Hb].
    + apply Hin in Hb. apply elem_of_app in Hb as [Hb|Hb].
      * apply Hpre in Hb. rewrite Hrp in Hb. simpl in Hb. lia.
      * apply elem_of_cons in Hb as [Hb|Hb].
        -- rewrite Hrp in Hb. injection Hb as -> _. done.
        -- apply Hpost in Hb. rewrite Hrp in Hb. exact Hb.
    + rewrite (occ_not_in b) by done. lia.
  - intros b Hb Hocc. apply Hin in Hb.
    apply elem_of_app in Hb as [Hb|Hb].
    + apply Hpre in Hb. rewrite Hrp in Hb. simpl in Hb. lia.
    + apply elem_of_cons in Hb as [Hb|Hb].
      * rewrite Hrp in Hb. injection Hb as -> _. done.
      * apply Nat.lt_le_incl. apply (nub_order xs pre.*1 p post.*1).
        -- apply (f_equal (fmap fst)) in Heq.
           rewrite Hc, <- list_fmap_compose in Heq.
           rewrite fmap_app, fmap_cons, Hrp in Heq. simpl in Heq.
           rewrite <- Heq. symmetry. apply list_fmap_id.
        -- apply list_elem_of_fmap. by exists (b, occ b xs).
Qed.

Lemma scan_step_counts (lookup : string → lookup_reply) (dir : string)
    (acc : scan) (i : nat) (name : string) :
  length (artists acc) = length (List.filter t_identified (track_info acc)) →
  let acc' := scan_step lookup dir acc i name in
  length (artists acc') = length (List.filter t_identified (track_info acc'))
  ∧ length (track_info acc') = S (length (track_info acc)).
Proof.
  intros Hinv. unfold scan_step.
  destruct (fingerprint_and_lookup (lookup (join dir name))) as [m|]; simpl;
    rewrite List.filter_app, !length_app; simpl; lia.
Qed.

Lemma scan_from_counts (lookup : string → lookup_reply) (dir : string)
    (names : list string) (acc : scan) (i : nat) :
  length (artists acc) = length (List.filter t_identified (track_info acc)) →
  let s := scan_from lookup dir acc i names in
  length (artists s) = length (List.filter t_identified (track_info s))
  ∧ length (track_info s) = length (track_info acc) + length names.
Proof.
  revert acc i. induction names as [|n names IH]; intros acc i Hinv; simpl.
  - split; [done|lia].
  - destruct (scan_step_counts lookup dir acc i n Hinv) as [H1 H2].
    destruct (IH _ (S i) H1) as [H3 H4]. split; [done|].
    rewrite H4, H2. lia.
Qed.

Lemma scan_album_counts (lookup : string → lookup_reply) (dir : string)
    (files : list string) :
  let s := scan_album lookup dir files in
  length (artists s) = length (List.filter t_identified (track_info s))
  ∧ length (track_info s) = length files.
Proof. apply (scan_from_counts lookup dir files); reflexivity. Qed.

(** The ratio of two counts against the bound 0.70, in whole numbers, and
    as a quotient of rationals. *)
Lemma ratio_below (a b : nat) :
  0 < b → Qltb (ratio a b) (70 # 100) = true ↔ 10 * a < 7 * b.
Proof.
  intros Hb. rewrite Qltb_lt. unfold ratio, Qlt. simpl Qnum. simpl Qden.
  destruct b as [|b]; [lia|].
  rewrite <- Pos.of_nat_succ, Zpos_P_of_succ_nat. lia.
Qed.

Lemma ratio_not_below (a b : nat) :
  0 < b → Qltb (ratio a b) (70 # 100) = false ↔ 7 * b ≤ 10 * a.
Proof.
  intros Hb. pose proof (ratio_below a b Hb) as H.
  destruct (Qltb (ratio a b) (70 # 100)).
  - split; [discriminate|]. intros ?. assert (10 * a < 7 * b) by by apply H.
    lia.
  - split; [|done]. intros _.
    destruct (decide (10 * a < 7 * b)) as [Hlt|]; [|lia].
    apply H in Hlt. discriminate.
Qed.

Lemma ratio_le_1 (a b : nat) : a ≤ b → 0 < b → (ratio a b <= 1)%Q.
Proof.
  intros Hab Hb. unfold ratio, Qle. simpl Qnum. simpl Qden.
  destruct b as [|b]; [lia|].
  rewrite <- Pos.of_nat_succ, Zpos_P_of_succ_nat. lia.
Qed.

Lemma ratio_quotient (a b : nat) :
  0 < b →
  (ratio a b == inject_Z (Z.of_nat a) / inject_Z (Z.of_nat b))%Q.
Proof.
  intros Hb. unfold ratio. rewrite Qmake_Qdiv.
  destruct b as [|b]; [lia|].
  by rewrite <- Pos.of_nat_succ, Zpos_P_of_succ_nat, <- Nat2Z.inj_succ.
Qed.

(** C3. Once the artists of the identified tracks are collected and the
    first two checks are passed (there are FLAC files and at least 70 in
    100 of them are identified), the primary artist is the most frequent
    artist string among the identified tracks, the one met first among
    equally frequent ones; the consensus ratio is the quotient of its number
    of occurrences by the number of identified tracks; and the album is
    rejected for want of consensus exactly when that ratio is below 0.70,
    that is when 10 times the occurrences are fewer than 7 times the
    identified tracks.  In particular a 10-track album with 8 tracks
    identifying A and 2 identifying B is accepted with primary artist A and
    consensus ratio 8/10. *)
Theorem C3_artist_consensus (lookup : string → lookup_reply)
    (dir : string) (names : list string) :
  let s := scan_album lookup dir (flac_names names) in
  let identified_count := length (List.filter t_identified (track_info s)) in
  (flac_names names ≠ [] →
   7 * length (flac_names names) ≤ 10 * identified_count →
   artists s ≠ [] →
   ∃ primary consensus_ratio,
     primary ∈ artists s ∧
     (∀ b, occ b (artists s) ≤ occ primary (artists s)) ∧
     (∀ b, b ∈ artists s → occ b (artists s) = occ primary (artists s) →
           first_pos primary (artists s) ≤ first_pos b (artists s)) ∧
     (consensus_ratio
        == inject_Z (Z.of_nat (occ primary (artists s)))
           / inject_Z (Z.of_nat identified_count))%Q ∧
     ((consensus_ratio < 70 # 100)%Q
        ↔ 10 * occ primary (artists s) < 7 * identified_count) ∧
     (10 * occ primary (artists s) < 7 * identified_count →
        analyze_album lookup dir names = inl (NoConsensus consensus_ratio)) ∧
     (7 * identified_count ≤ 10 * occ primary (artists s) →
        ∃ a, analyze_album lookup dir names = inr a ∧
             a_artist a = primary ∧
             a_consensus_ratio a = consensus_ratio ∧
             a_identified_count a = identified_count))
  ∧
  (∀ A B, length (flac_names names) = 10 →
          occ A (artists s) = 8 → occ B (artists s) = 2 →
          ∃ a, analyze_album lookup dir names = inr a ∧
               a_artist a = A ∧ a_consensus_ratio a = (8 # 10)%Q).
Proof.
  intros s identified_count.
  assert (Hgen :
    flac_names names ≠ [] →
    7 * length (flac_names names) ≤ 10 * identified_count →
    artists s ≠ [] →
    ∃ primary,
      primary ∈ artists s ∧
      (∀ b, occ b (artists s) ≤ occ primary (artists s)) ∧
      (∀ b, b ∈ artists s → occ b (artists s) = occ primary (artists s) →
            first_pos primary (artists s) ≤ first_pos b (artists s)) ∧
      0 < identified_count ∧
      (10 * occ primary (artists s) < 7 * identified_count →
         analyze_album lookup dir names
         = inl (NoConsensus
                  (ratio (occ primary (artists s)) identified_count))) ∧
      (7 * identified_count ≤ 10 * occ primary (artists s) →
         ∃ a, analyze_album lookup dir names = inr a ∧
              a_artist a = primary ∧
              a_consensus_ratio a
              = ratio (occ primary (artists s)) identified_count ∧
              a_identified_count a = identified_count)).
  { intros Hfiles Hid Hart.
    destruct (most_common_1_spec (artists s) Hart)
      as (p & Hmc & Hp & Hmax & Htie).
    destruct (scan_album_counts lookup dir (flac_names names)) as [Hlen _].
    fold s in Hlen. fold identified_count in Hlen.
    assert (Hpos : 0 < identified_count).
    { rewrite <- Hlen. destruct (artists s); [done|simpl; lia]. }
    exists p. split; [done|]. split; [done|]. split; [done|].
    split; [done|].
    unfold analyze_album.
    destruct (flac_names names) as [|f fs] eqn:Ef; [done|].
    fold s. fold identified_count.
    change MIN_IDENTIFIED_RATIO with (70 # 100)%Q.
    replace (Qltb (ratio identified_count (length (f :: fs))) (70 # 100))
      with false
      by (symmetry; apply ratio_not_below; [simpl; lia|exact Hid]).
    rewrite bool_decide_eq_false_2 by done.
    rewrite Hmc, Hlen.
    change MIN_CONSENSUS_RATIO with (70 # 100)%Q.
    split.
    - intros Hlt. apply (ratio_below _ _ Hpos) in Hlt. by rewrite Hlt.
    - intros Hge. apply (ratio_not_below _ _ Hpos) in Hge. rewrite Hge.
      eexists. split; [reflexivity|]. done. }
  split.
  { intros Hfiles Hid Hart.
    destruct (Hgen Hfiles Hid Hart)
      as (p & Hp & Hmax & Htie & Hpos & Hrej & Hacc).
    exists p, (ratio (occ p (artists s)) identified_count).
    split; [done|]. split; [done|]. split; [done|].
    split; [by apply ratio_quotient|].
    split; [|by split].
    rewrite <- Qltb_lt. by apply ratio_below. }
  intros A B Hten HA HB.
  destruct (scan_album_counts lookup dir (flac_names names)) as [Hlen Htot].
  fold s in Hlen, Htot. fold identified_count in Hlen.
  assert (HAB : A ≠ B) by (intros ->; lia).
  pose proof (occ_pair_le A B (artists s) HAB) as Hsum.
  assert (Hle : identified_count ≤ length (track_info s))
    by apply List.filter_length_le.
  assert (Hid : identified_count = 10) by lia.
  destruct Hgen as (p & Hp & Hmax & _ & _ & _ & Hacc).
  - intros E. rewrite E in Hten. discriminate.
  - lia.
  - intros E. rewrite E in HA. discriminate.
  - assert (HpA : p = A).
    { destruct (decide (p = A)) as [|Hne]; [done|].
      pose proof (occ_pair_le p A (artists s) Hne).
      pose proof (Hmax A). lia. }
    subst p. rewrite HA, Hid in Hacc.
    destruct Hacc as (a & Ha & Hart & Hr & _); [lia|].
    exists a. split_ands; done.
Qed.

(** A reply that identifies a track as [a], with an optional release. *)
Definition reply_of (a : string) (rel : option release) : lookup_reply :=
  Reply (Some [
    {| res_score := Some (95 # 100);
       res_recordings := Some [
         {| rec_id := Some "mbid"; rec_title := Some "Song";
            rec_artists := [ {| ac_name := Some a |} ];
            rec_releases := option_map (λ r, [r]) rel |} ] |} ]).

(** Ten tracks: the first two identify artist B, the others artist A. *)
Definition ten_names : list string :=
  ["01.flac"; "02.flac"; "03.flac"; "04.flac"; "05.flac";
   "06.flac"; "07.flac"; "08.flac"; "09.flac"; "10.flac"].

Definition ten_lookup (path : string) : lookup_reply :=
  if bool_decide (path ∈ ["/cd/01.flac"; "/cd/02.flac"])
  then reply_of "B" None else reply_of "A" None.

Lemma C3_artist_consensus_witness :
  (∃ primary consensus_ratio,
     primary ∈ artists (scan_album ten_lookup "/cd" (flac_names ten_names)) ∧
     (∀ b, occ b (artists (scan_album ten_lookup "/cd" (flac_names ten_names)))
           ≤ occ primary
               (artists (scan_album ten_lookup "/cd" (flac_names ten_names))))
     ∧ (consensus_ratio
          == inject_Z (Z.of_nat
               (occ primary
                  (artists (scan_album ten_lookup "/cd"
                              (flac_names ten_names)))))
             / inject_Z 10)%Q)
  ∧ (∃ a, analyze_album ten_lookup "/cd" ten_names = inr a ∧
          a_artist a = "A" ∧ a_consensus_ratio a = (8 # 10)%Q).
Proof.
  pose proof (C3_artist_consensus ten_lookup "/cd" ten_names) as [Hgen Hex].
  split.
  - destruct Hgen as (p & q & Hp & Hmax & _ & Hq & _).
    + vm_compute. discriminate.
    + vm_compute. lia.
    + vm_compute. discriminate.
    + exists p, q. split; [exact Hp|]. split; [exact Hmax|exact Hq].
  - apply (Hex "A" "B"); vm_compute; reflexivity.
Defined.

(** The resolver never returns an empty album: a missing release title
    has already become the placeholder. *)
Lemma resolver_album_truthy (reply : lookup_reply) (m : track_match) :
  fingerprint_and_lookup reply = Some m → PyStr.truthy (album m) = true.
Proof.
  assert (Htry : ∀ sc r m', try_recording sc r = Some m' →
                            PyStr.truthy (album m') = true).
  { intros sc r m'. unfold try_recording.
    destruct (rec_title r); [|discriminate].
    destruct (first_artist r); [|discriminate].
    destruct (negb _ || negb _); [discriminate|].
    destruct (album_and_year r) as [alb yr]. intros [= <-]. simpl.
    destruct alb as [[|c t]|]; reflexivity. }
  assert (Hrec : ∀ sc rs m', scan_recordings sc rs = Some m' →
                             PyStr.truthy (album m') = true).
  { intros sc rs m'. induction rs as [|r rs IH]; simpl; [discriminate|].
    destruct (try_recording sc r) eqn:E; [|exact IH].
    intros [= <-]. by eapply Htry. }
  assert (Hres : ∀ gs m', scan_results gs = Some m' →
                          PyStr.truthy (album m') = true).
  { intros gs m'. induction gs as [|g gs IH]; simpl; [discriminate|].
    destruct (Qltb _ _); [exact IH|].
    destruct (res_recordings g) as [rs|]; [|exact IH].
    destruct (scan_recordings (score_of g) rs) eqn:E; [|exact IH].
    intros [= <-]. by eapply Hrec. }
  destruct reply as [|[[|g gs]|]]; simpl; try discriminate.
  apply (Hres (g :: gs)).
Qed.

(** Three tracks by one artist: the first two recordings carry no
    release, the third one is on the album "Abbey Road". *)
Definition three_names : list string := ["01.flac"; "02.flac"; "03.flac"].

Definition three_lookup (path : string) : lookup_reply :=
  if bool_decide (path = "/cd/03.flac")
  then reply_of "The Beatles"
         (Some {| rel_title := Some "Abbey Road"; rel_date := Some "1969" |})
  else reply_of "The Beatles" None.

(** C9 (the code departs from it).  On an accepted album whose third track
    carries the album string "Abbey Road" while the two others carry none,
    the primary album is "Unknown Album": the resolver has replaced each
    missing album by that placeholder, and the placeholders are counted as
    votes. *)
Theorem C9_placeholder_outvotes_album :
  (∃ m, fingerprint_and_lookup (three_lookup "/cd/03.flac") = Some m ∧
        album m = "Abbey Road") ∧
  albums (scan_album three_lookup "/cd" (flac_names three_names))
    = ["Unknown Album"; "Unknown Album"; "Abbey Road"] ∧
  ∃ a, analyze_album three_lookup "/cd" three_names = inr a ∧
       a_identified_count a = 3 ∧
       a_album a = "Unknown Album".
Proof.
  split; [eexists; split; reflexivity|].
  split; [reflexivity|].
  eexists. split; [reflexivity|]. split; reflexivity.
Qed.

End ConsensusFacts.

(** ** The history ledger *)

Section HistoryFacts.
Import Fs App.

(** What was handed to [add_history_entry] for an entry. *)
Definition payload (e : entry) : entry_data :=
  {| d_artist := e_artist e; d_album := e_album e; d_action := e_action e;
     d_original_path := e_original_path e; d_new_path := e_new_path e;
     d_backup_path := e_backup_path e |}.

(** The entry that [add_history_entry] appends, and an entry once undone. *)
Definition new_entry (now : string) (d : entry_data) (h : list entry)
  : entry :=
  {| e_id := length h + 1; e_timestamp := now;
     e_artist := d_artist d; e_album := d_album d; e_action := d_action d;
     e_original_path := d_original_path d; e_new_path := d_new_path d;
     e_backup_path := d_backup_path d; e_undone := false |}.

Definition set_undone (e : entry) : entry :=
  {| e_id := e_id e; e_timestamp := e_timestamp e;
     e_artist := e_artist e; e_album := e_album e; e_action := e_action e;
     e_original_path := e_original_path e; e_new_path := e_new_path e;
     e_backup_path := e_backup_path e; e_undone := true |}.

(** A run of mutating actions, as far as the history is concerned: each
    one appends its entry at its time. *)
Definition append_all (ds : list (string * entry_data)) (h : list entry)
  : list entry :=
  fold_left (λ h nd, (add_history_entry nd.1 nd.2 h).2) ds h.

Lemma add_history_entry_payload (now : string) (d : entry_data)
    (h : list entry) :
  length h ≤ 100 →
  payload <$> (add_history_entry now d h).2
    = drop (length h + 1 - 100) ((payload <$> h) ++ [d])
  ∧ length (add_history_entry now d h).2 = length h + 1 - (length h + 1 - 100).
Proof.
  intros Hle. unfold add_history_entry, last_100. cbv zeta. simpl snd.
  rewrite length_app. simpl length.
  destruct (100 <? length h + 1) eqn:E.
  - apply Nat.ltb_lt in E.
    rewrite fmap_drop, fmap_app, length_drop, length_app. simpl.
    destruct d; simpl. split; [reflexivity|lia].
  - apply Nat.ltb_ge in E.
    replace (length h + 1 - 100) with 0 by lia.
    rewrite drop_0, fmap_app, length_app. destruct d; simpl.
    split; [reflexivity|lia].
Qed.

Lemma append_all_payload (ds : list (string * entry_data)) (h : list entry) :
  length h ≤ 100 →
  payload <$> append_all ds h
    = drop (length h + length ds - 100) ((payload <$> h) ++ ds.*2)
  ∧ length (append_all ds h) ≤ 100.
Proof.
  revert h. induction ds as [|[now d] ds IH]; intros h Hle.
  - simpl. rewrite app_nil_r. replace (length h + 0 - 100) with 0 by lia.
    by rewrite drop_0.
  - destruct (add_history_entry_payload now d h Hle) as [Hp Hl].
    destruct (IH (add_history_entry now d h).2 ltac:(lia)) as [Hp' Hl'].
    change (append_all ((now, d) :: ds) h)
      with (append_all ds (add_history_entry now d h).2).
    split; [|exact Hl'].
    rewrite Hp', Hp, Hl. simpl length. rewrite (fmap_cons snd). simpl snd.
    destruct (decide (length h = 100)) as [E|E].
    + replace (length h + 1 - 100) with 1 by lia.
      replace (length h + 1 - 1 + length ds - 100) with (length ds) by lia.
      replace (length h + S (length ds) - 100) with (1 + length ds) by lia.
      rewrite <- drop_drop. f_equal.
      rewrite (drop_app_le _ [d]) by (rewrite length_fmap; lia).
      rewrite (drop_app_le _ (d :: ds.*2)) by (rewrite length_fmap; lia).
      by rewrite <- app_assoc.
    + replace (length h + 1 - 100) with 0 by lia.
      rewrite drop_0, <- app_assoc. simpl. f_equal. lia.
Qed.

(** C7. The history keeps the 100 most recent entries: an append past the
    cap drops the oldest ones, and after 105 appends to an empty history
    exactly the last 100 of them remain, the first 5 are gone. *)
Theorem C7_history_cap (ds : list (string * entry_data)) :
  payload <$> append_all ds [] = drop (length ds - 100) ds.*2
  ∧ length (append_all ds []) = Nat.min (length ds) 100
  ∧ (length ds = 105 →
       payload <$> append_all ds [] = drop 5 ds.*2
       ∧ length (append_all ds []) = 100).
Proof.
  destruct (append_all_payload ds []) as [Hp Hl]; [simpl; lia|].
  simpl in Hp.
  assert (Hlen : length (append_all ds []) = Nat.min (length ds) 100).
  { rewrite <- (length_fmap payload), Hp, length_drop, length_fmap. lia. }
  split; [exact Hp|]. split; [exact Hlen|].
  intros H105. rewrite Hp, Hlen, H105. split; reflexivity.
Qed.

(** A run of [n] deletions without backup, one entry each. *)
Definition deletions (n : nat) : list (string * entry_data) :=
  (λ i, ("2024-01-01T00:00:00",
         {| d_artist := "Artist"; d_album := "Album " +:+ PyStr.of_nat i;
            d_action := "Deleted album (no backup)";
            d_original_path := "/home/arm/music/Artist/Album "
                               +:+ PyStr.of_nat i;
            d_new_path := None; d_backup_path := None |})) <$> seq 1 n.

Lemma C7_history_cap_witness :
  length (deletions 105) = 105
  ∧ payload <$> append_all (deletions 105) [] = drop 5 (deletions 105).*2
  ∧ length (append_all (deletions 105) []) = 100.
Proof.
  split; [vm_compute; reflexivity|].
  apply (proj2 (proj2 (C7_history_cap (deletions 105)))).
  vm_compute. reflexivity.
Defined.

Lemma add_at_cap (now : string) (d : entry_data) (h : list entry) :
  length h = 100 →
  (add_history_entry now d h).1 = 101
  ∧ (add_history_entry now d h).2 = skipn 1 h ++ [new_entry now d h]
  ∧ length (add_history_entry now d h).2 = 100.
Proof.
  intros Hlen. unfold add_history_entry, last_100. cbv zeta.
  simpl fst. simpl snd. split; [lia|].
  fold (new_entry now d h). generalize (new_entry now d h). intros e.
  rewrite length_app, Hlen. simpl.
  rewrite drop_app_le by lia. rewrite length_app, length_drop. simpl.
  split; [reflexivity|lia].
Qed.

(** At the cap every append is numbered 101 and leaves the history at
    the cap: two appends in a row give two entries with the same id. *)
Lemma ids_at_cap (now now' : string) (d d' : entry_data) (h : list entry) :
  length h = 100 →
  let r1 := add_history_entry now d h in
  let r2 := add_history_entry now' d' r1.2 in
  r1.1 = 101 ∧ r2.1 = 101 ∧ length r2.2 = 100
  ∧ (e_id <$> r2.2 !! 98) = Some 101 ∧ (e_id <$> r2.2 !! 99) = Some 101.
Proof.
  intros Hlen r1 r2.
  destruct (add_at_cap now d h Hlen) as (H1 & H1s & H1l). fold r1 in H1, H1s, H1l.
  destruct (add_at_cap now' d' r1.2 H1l) as (H2 & H2s & H2l).
  fold r2 in H2, H2s, H2l.
  split; [exact H1|]. split; [exact H2|]. split; [exact H2l|].
  rewrite H2s, H1s.
  rewrite (drop_app_le _ [_]) by (rewrite length_drop; lia).
  rewrite <- !app_assoc. split.
  - rewrite lookup_app_r by (rewrite !length_drop; lia).
    rewrite !length_drop, Hlen. simpl. f_equal. lia.
  - rewrite lookup_app_r by (rewrite !length_drop; lia).
    rewrite !length_drop, Hlen. simpl. f_equal.
    rewrite length_app, length_drop, Hlen. simpl. lia.
Qed.

(** C6 (the code departs from it).  The id of a new entry is the length of
    the history plus one.  Once the cap has cut the history the length
    stays at 100, so every later entry is numbered 101: after 102 actions
    the two newest entries share that id, and the id of the last one is not
    above the ids already present. *)
Theorem C6_ids_collide_after_cap :
  let h := append_all (deletions 101) [] in
  let added := add_history_entry "2024-01-02T00:00:00"
                 {| d_artist := "Artist"; d_album := "Album 102";
                    d_action := "Deleted album (no backup)";
                    d_original_path := "/home/arm/music/Artist/Album 102";
                    d_new_path := None; d_backup_path := None |} h in
  e_id <$> h = seq 2 100
  ∧ added.1 = 101
  ∧ e_id <$> added.2 = seq 3 99 ++ [101]
  ∧ ¬ NoDup (e_id <$> added.2).
Proof.
  intros h added.
  assert (H1 : e_id <$> h = seq 2 100) by (vm_compute; reflexivity).
  assert (H2 : added.1 = 101) by (vm_compute; reflexivity).
  assert (H3 : e_id <$> added.2 = seq 3 99 ++ [101])
    by (vm_compute; reflexivity).
  split; [exact H1|]. split; [exact H2|]. split; [exact H3|].
  rewrite H3. intros Hnd.
  apply NoDup_app in Hnd as (_ & Hdisj & _).
  apply (Hdisj 101); [|by left].
  apply elem_of_seq. lia.
Qed.

End HistoryFacts.

(** ** The undo target *)

Section UndoFacts.
Import Fs App.

Lemma find_rev_Some {A} (f : A → bool) (h : list A) (e : A) :
  List.find f (rev h) = Some e →
  ∃ older newer, h = older ++ e :: newer ∧ f e = true ∧
                 ∀ e', e' ∈ newer → f e' = false.
Proof.
  induction h as [|x h IH] using rev_ind; [discriminate|].
  rewrite rev_unit. simpl. destruct (f x) eqn:Ex.
  - intros [= <-]. exists h, []. split_ands; [done|done|].
    intros e' Hin. inversion Hin.
  - intros Hf. destruct (IH Hf) as (older & newer & -> & He & Hnew).
    exists older, (newer ++ [x]). split_ands.
    + by rewrite <- app_assoc.
    + done.
    + intros e' Hin. apply elem_of_app in Hin as [Hin|Hin]; [by apply Hnew|].
      apply list_elem_of_singleton in Hin. by subst.
Qed.

Lemma find_rev_None {A} (f : A → bool) (h : list A) :
  List.find f (rev h) = None → ∀ e, e ∈ h → f e = false.
Proof.
  induction h as [|x h IH] using rev_ind; intros Hf e Hin; [inversion Hin|].
  rewrite rev_unit in Hf. simpl in Hf. destruct (f x) eqn:Ex; [discriminate|].
  apply elem_of_app in Hin as [Hin|Hin]; [by apply IH|].
  apply list_elem_of_singleton in Hin. by subst.
Qed.

(** The undo target as the specification words it: the newest entry that
    is not undone, has a backup path, and whose backup is still on disk. *)
Definition spec_undo_target (t : tree) (h : list entry) : option entry :=
  List.find (λ e, negb (e_undone e)
                  && match e_backup_path e with
                     | Some b => exists_dir b t
                     | None => false
                     end) (rev h).

(** Two albums of the library, edited in place. *)
Definition album_P : string := "/home/arm/music/A/P".
Definition album_Q : string := "/home/arm/music/B/Q".

Definition library : tree :=
  <[album_P := {["01.flac" := Flac [("TITLE", "p1")] [] "audio-p1"]}]>
  (<[album_Q := {["01.flac" := Flac [("TITLE", "q1")] [] "audio-q1"]}]>
  (<["/home/arm/music/A" := ∅]> (<["/home/arm/music/B" := ∅]>
  (<["/home/arm/music" := ∅]> ∅)))).

Definition edit_in_place (path artist album_name track1 : string) : form :=
  {| f_original_path := path; f_is_existing := true; f_folder := "";
     f_artist := artist; f_album_name := album_name;
     f_year := ""; f_genre := ""; f_disc_number := ""; f_disc_total := "";
     f_track := λ i, if i =? 1 then track1 else "";
     f_art_data := None |}.

Definition at_time (stamp : string) : clock :=
  {| backup_stamp := stamp; entry_iso := stamp |}.

(** P is edited, Q is edited twice (the second backup of Q replaces the
    first), and the last edit is undone. *)
Definition after_three_edits_and_undo : state :=
  let s0 := {| disk := library; history := [] |} in
  let s1 := (save (at_time "20240101_100000")
               (edit_in_place album_P "A" "P" "One") s0).2 in
  let s2 := (save (at_time "20240101_110000")
               (edit_in_place album_Q "B" "Q" "Two") s1).2 in
  let s3 := (save (at_time "20240101_120000")
               (edit_in_place album_Q "B" "Q" "Three") s2).2 in
  (undo s3).2.

(** C2 as stated fails: the scan does not look at the disk.  After the
    three edits and the undo, the newest entry that is not undone and has a
    backup path is the first edit of Q, whose backup is gone; the code takes
    it as the target and reports the missing backup, while the entry the
    claim designates is the edit of P, whose backup exists. *)
Lemma C2_target_ignores_disk :
  let st := after_three_edits_and_undo in
  e_id <$> get_last_undoable (history st) = Some 2
  ∧ e_id <$> spec_undo_target (disk st) (history st) = Some 1
  ∧ get_last_undoable (history st) ≠ spec_undo_target (disk st) (history st)
  ∧ (undo st).1 = BackupNotFound "B" "Q".
Proof.
  intros st.
  assert (H1 : e_id <$> get_last_undoable (history st) = Some 2)
    by (vm_compute; reflexivity).
  assert (H2 : e_id <$> spec_undo_target (disk st) (history st) = Some 1)
    by (vm_compute; reflexivity).
  split; [exact H1|]. split; [exact H2|]. split.
  - intros E. rewrite E, H2 in H1. discriminate H1.
  - vm_compute. reflexivity.
Qed.

(** C2, amended.  The undo target is the newest entry that is not undone
    and has a non-empty backup path, whatever is on disk: no newer entry
    passes that test.  Without such an entry undo reports that there is
    nothing to undo.  With one, undo reports a missing backup exactly when
    the backup of that entry is not on disk, and leaves the state as it
    was; it never falls back to an older entry. *)
Theorem C2_undo_target (st : state) :
  match get_last_undoable (history st) with
  | None =>
      (∀ e, e ∈ history st →
            e_undone e = true ∨ e_backup_path e = None
            ∨ e_backup_path e = Some "")
      ∧ undo st = (NothingToUndo, st)
  | Some e =>
      (∃ older newer,
         history st = older ++ e :: newer ∧
         ∀ e', e' ∈ newer →
               e_undone e' = true ∨ e_backup_path e' = None
               ∨ e_backup_path e' = Some "")
      ∧ e_undone e = false
      ∧ ∃ b, e_backup_path e = Some b ∧ b ≠ "" ∧
             (exists_dir b (disk st) = false →
                undo st = (BackupNotFound (e_artist e) (e_album e), st)) ∧
             (exists_dir b (disk st) = true →
                (undo st).1 = UndoFailed ∨
                (undo st).1 = UndoSuccessful (e_artist e) (e_album e))
  end.
Proof.
  assert (Hno : ∀ e, undoable e = false →
                     e_undone e = true ∨ e_backup_path e = None
                     ∨ e_backup_path e = Some "").
  { intros e. unfold undoable.
    destruct (e_undone e); [by left|]. simpl.
    destruct (e_backup_path e) as [[|c b]|]; simpl; try discriminate; auto. }
  unfold undo. destruct (get_last_undoable (history st)) as [e|] eqn:Eg.
  - unfold get_last_undoable in Eg.
    apply find_rev_Some in Eg as (older & newer & Hh & He & Hnew).
    split; [exists older, newer; split; [done|]; intros e' Hin; auto|].
    unfold undoable in He. apply andb_true_iff in He as [Hu Hb].
    apply negb_true_iff in Hu. split; [exact Hu|].
    destruct (e_backup_path e) as [b|]; [|discriminate].
    simpl in Hb. exists b. split; [done|].
    split; [by apply truthy_true|]. rewrite Hb. simpl. split.
    + by intros ->.
    + intros ->.
      destruct (negb (PyStr.truthy (Path.dirname (e_original_path e))));
        [by left|].
      match goal with
      | |- context [move_dir ?a ?b ?c] => destruct (move_dir a b c)
      end; [by right|by left].
  - split; [|reflexivity].
    intros e Hin. apply Hno. by eapply find_rev_None.
Qed.

End UndoFacts.

(** ** Splitting a track title *)

Section TitleFacts.
Import PyStr App.

Lemma string_app_assoc (a b c : string) : (a +:+ b) +:+ c = a +:+ (b +:+ c).
Proof. induction a as [|x a IH]; sapp; [reflexivity|]. f_equal. exact IH. Qed.

Lemma prefix_drop (p s : string) :
  String.prefix p s = true → s = p +:+ drop (String.length p) s.
Proof.
  revert s. induction p as [|a p IH]; intros s.
  - intros _. by destruct s.
  - destruct s as [|b s]; simpl; [discriminate|].
    destruct (ascii_dec a b) as [->|]; [|discriminate].
    intros H. sapp. f_equal. by apply IH.
Qed.

Lemma prefix_app (p r : string) : String.prefix p (p +:+ r) = true.
Proof.
  induction p as [|a p IH]; sapp; simpl; [by destruct r|].
  destruct (ascii_dec a a); [exact IH|done].
Qed.

(** [sep] occurs in [s]. *)
Definition occurs (sep s : string) : Prop :=
  ∃ a b, s = a +:+ sep +:+ b.

Lemma split_once_eq (sep s : string) :
  split_once sep s =
    if String.prefix sep s then Some ("", drop (String.length sep) s)
    else match s with
         | "" => None
         | String c r =>
             match split_once sep r with
             | Some (a, b) => Some (String c a, b)
             | None => None
             end
         end.
Proof. destruct s; reflexivity. Qed.

Lemma contains_eq (sep s : string) :
  contains sep s =
    String.prefix sep s
    || match s with "" => false | String _ r => contains sep r end.
Proof. destruct s; reflexivity. Qed.

Lemma split_once_app (sep s a b : string) :
  split_once sep s = Some (a, b) → s = a +:+ sep +:+ b.
Proof.
  revert a. induction s as [|c s IH]; intros a; rewrite split_once_eq.
  - destruct (String.prefix sep "") eqn:E; [|discriminate].
    intros [= <- <-]. by apply prefix_drop in E.
  - destruct (String.prefix sep (String c s)) eqn:E.
    + intros [= <- <-]. by apply prefix_drop in E.
    + destruct (split_once sep s) as [[a0 b0]|]; [|discriminate].
      intros [= <- <-]. sapp. f_equal. by apply IH.
Qed.

(** The split is at the first occurrence. *)
Lemma split_once_first (sep s a b : string) :
  split_once sep s = Some (a, b) →
  ∀ a' b', s = a' +:+ sep +:+ b' → String.length a ≤ String.length a'.
Proof.
  revert a. induction s as [|c s IH]; intros a; rewrite split_once_eq.
  - destruct (String.prefix sep ""); [|discriminate].
    intros [= <- <-] a' b' _. simpl. lia.
  - destruct (String.prefix sep (String c s)) eqn:E.
    + intros [= <- <-] a' b' _. simpl. lia.
    + destruct (split_once sep s) as [[a0 b0]|] eqn:Es; [|discriminate].
      intros [= <- <-] a' b' Hs. destruct a' as [|c' a'].
      * sapp_in Hs. rewrite Hs, prefix_app in E. discriminate.
      * sapp_in Hs. injection Hs as -> Hs. simpl.
        apply le_n_S. by eapply IH.
Qed.

Lemma contains_split (sep s : string) :
  contains sep s = true ↔ ∃ a b, split_once sep s = Some (a, b).
Proof.
  induction s as [|c s IH]; rewrite contains_eq, split_once_eq.
  - destruct (String.prefix sep ""); simpl; split; eauto;
      try discriminate; by intros (? & ? & ?).
  - destruct (String.prefix sep (String c s)); simpl; [split; eauto|].
    rewrite IH. destruct (split_once sep s) as [[a b]|]; split; eauto;
      by intros (? & ? & ?).
Qed.

Lemma contains_occurs (sep s : string) : contains sep s = true ↔ occurs sep s.
Proof.
  split.
  - intros H. apply contains_split in H as (a & b & H).
    exists a, b. by apply split_once_app.
  - intros (a & b & ->). induction a as [|c a IH]; sapp.
    + by rewrite contains_eq, prefix_app.
    + rewrite contains_eq, IH. apply orb_true_r.
Qed.

(** *** Whitespace at the ends *)

Lemma rstrip_cons (c : ascii) (s : string) :
  rstrip (String c s) =
    if all_space (String c s) then "" else String c (rstrip s).
Proof. reflexivity. Qed.

Lemma lstrip_cons (c : ascii) (s : string) :
  lstrip (String c s) = if is_space c then lstrip s else String c s.
Proof. reflexivity. Qed.

Lemma all_space_cons (c : ascii) (s : string) :
  all_space (String c s) = is_space c && all_space s.
Proof. reflexivity. Qed.

Lemma all_space_rstrip (s : string) : all_space (rstrip s) = all_space s.
Proof.
  induction s as [|c s IH]; [reflexivity|].
  rewrite rstrip_cons. destruct (all_space (String c s)) eqn:E; [reflexivity|].
  rewrite all_space_cons, IH. exact E.
Qed.

Lemma all_space_lstrip (s : string) : all_space (lstrip s) = all_space s.
Proof.
  induction s as [|c s IH]; [reflexivity|].
  rewrite lstrip_cons, (all_space_cons c s).
  destruct (is_space c) eqn:E; [exact IH|].
  rewrite all_space_cons, E. reflexivity.
Qed.

Lemma all_space_empty (s : string) : all_space s = true → rstrip s = "".
Proof.
  destruct s as [|c s]; [reflexivity|]. rewrite rstrip_cons. by intros ->.
Qed.

Lemma strip_blank (s : string) : strip s = "" ↔ all_space s = true.
Proof.
  unfold strip. rewrite <- all_space_lstrip. split.
  - intros H. rewrite <- all_space_rstrip, H. reflexivity.
  - apply all_space_empty.
Qed.

Lemma truthy_strip (s : string) : truthy (strip s) = negb (all_space s).
Proof.
  destruct (all_space s) eqn:E.
  - apply strip_blank in E. by rewrite E.
  - apply truthy_true. intros H. apply strip_blank in H. congruence.
Qed.

(** A stripped string does not start with whitespace ... *)
Lemma strip_head (s : string) (c : ascii) (r : string) :
  strip s = String c r → is_space c = false.
Proof.
  unfold strip. induction s as [|x s IH]; [discriminate|].
  rewrite lstrip_cons. destruct (is_space x) eqn:E; [exact IH|].
  rewrite rstrip_cons. destruct (all_space (String x s)); [discriminate|].
  by intros [= <- _].
Qed.

(** ... and no non-empty end of it is all whitespace. *)
Lemma rstrip_tail (s y z : string) :
  rstrip s = y +:+ z → z ≠ "" → all_space z = false.
Proof.
  revert y. induction s as [|c s IH]; intros y.
  - destruct y, z; sapp; try discriminate. done.
  - rewrite rstrip_cons. destruct (all_space (String c s)) eqn:E.
    + destruct y, z; sapp; try discriminate. done.
    + destruct y as [|c' y]; sapp.
      * intros <- _. rewrite all_space_cons, all_space_rstrip.
        exact E.
      * intros [= <- H]. by eapply IH.
Qed.

Lemma strip_parts (s a b : string) :
  strip s = a +:+ " - " +:+ b →
  all_space a = false ∧ all_space b = false.
Proof.
  intros H. split.
  - destruct a as [|c a]; sapp_in H.
    + by apply strip_head in H.
    + apply strip_head in H. by rewrite all_space_cons, H.
  - unfold strip in H.
    destruct b as [|c b].
    + change (a +:+ " - " +:+ "") with (a +:+ " -" +:+ " ") in H.
      rewrite <- (string_app_assoc a " -" " ") in H.
      by apply rstrip_tail in H.
    + rewrite <- (string_app_assoc a " - ") in H.
      by apply rstrip_tail in H.
Qed.

(** *** The fallback title *)

Fixpoint no_dash (s : string) : bool :=
  match s with
  | "" => true
  | String c r => negb (Ascii.eqb c "-") && no_dash r
  end.

Lemma no_dash_uint (d : Decimal.uint) :
  no_dash (NilEmpty.string_of_uint d) = true.
Proof. induction d; simpl; done. Qed.

Lemma no_dash_occurs (s : string) : no_dash s = true → ¬ occurs " - " s.
Proof.
  intros H (a & b & ->). induction a as [|c a IH]; sapp_in H; simpl in H.
  - discriminate.
  - apply andb_true_iff in H as [_ H]. by apply IH.
Qed.

Lemma fallback_title_whole (i : nat) :
  ¬ ∃ a b, "Track " +:+ of_nat i = a +:+ " - " +:+ b.
Proof.
  apply (no_dash_occurs ("Track " +:+ of_nat i)).
  sapp. simpl. apply no_dash_uint.
Qed.

(** *** The compilation test *)

(** The vocabulary of the specification: the album artist is one of the
    seven words, letter case and surrounding blanks apart. *)
Definition in_vocabulary (artist : string) : Prop :=
  strip (lower artist) ∈ compilation_keywords.

(** What line 2321 accepts besides: one of three words occurs somewhere in
    the album artist. *)
Definition has_marker (artist : string) : Prop :=
  ∃ kw, kw ∈ ["various"; "soundtrack"; "ost"] ∧ occurs kw (lower artist).

(** The title of track [i] as the form supplies it, or its default. *)
Definition supplied_title (i : nat) (supplied : string) : string :=
  if decide (strip supplied = "") then "Track " +:+ of_nat i
  else strip supplied.

Lemma is_compilation_spec (artist : string) :
  is_compilation artist = true ↔ in_vocabulary artist ∨ has_marker artist.
Proof.
  unfold is_compilation, in_vocabulary, has_marker. simpl existsb.
  rewrite !orb_true_iff, !contains_occurs.
  split.
  - intros [H|[H|[H|[H|H]]]]; [left; by apply bool_decide_eq_true_1 in H
                               | | | |discriminate];
      right; eexists; (split; [|exact H]); set_solver.
  - intros [H|(kw & Hin & H)]; [left; by apply bool_decide_eq_true_2|]. right.
    apply elem_of_cons in Hin as [->|Hin]; [by left|].
    apply elem_of_cons in Hin as [->|Hin]; [by right; left|].
    apply elem_of_cons in Hin as [->|Hin]; [by right; right; left|].
    inversion Hin.
Qed.

Lemma supplied_title_eq (i : nat) (supplied : string) :
  (if truthy (strip supplied) then strip supplied
   else "Track " +:+ of_nat i) = supplied_title i supplied.
Proof.
  unfold supplied_title. destruct (decide (strip supplied = "")) as [E|E].
  - by rewrite E.
  - apply truthy_true in E. by rewrite E.
Qed.

(** C4 as stated fails: the album artist "Ghost" is none of the seven
    words, yet the title "Ritual - Live" is split, because "ost" occurs in
    "ghost". *)
Lemma C4_split_outside_vocabulary :
  ¬ in_vocabulary "Ghost"
  ∧ occurs " - " "Ritual - Live"
  ∧ track_identity "Ghost" 1 "Ritual - Live" = ("Ritual", "Live")
  ∧ track_identity "Ghost" 1 "Ritual - Live" ≠ ("Ghost", "Ritual - Live").
Proof.
  split_ands.
  - unfold in_vocabulary. intros H.
    apply (bool_decide_eq_true_2 _) in H. vm_compute in H. discriminate H.
  - by exists "Ritual", "Live".
  - reflexivity.
  - discriminate.
Qed.

(** C4, amended.  The title supplied for a track (or "Track N" when it is
    blank) is split at the first occurrence of " - " into track artist and
    track title, both trimmed, exactly when the title contains " - " and
    the album artist either is one of the seven words of the vocabulary or
    contains "various", "soundtrack" or "ost" anywhere (letter case apart);
    otherwise the track artist is the album artist and the track title is
    the supplied title.  "Beatles - Yesterday" under "Various Artists"
    gives the artist "Beatles" and the title "Yesterday". *)
Theorem C4_track_identity (artist : string) (i : nat) (supplied : string) :
  let title := supplied_title i supplied in
  ((in_vocabulary artist ∨ has_marker artist) ∧ occurs " - " title →
     ∃ a b, title = a +:+ " - " +:+ b
            ∧ (∀ a' b', title = a' +:+ " - " +:+ b' →
                        String.length a ≤ String.length a')
            ∧ track_identity artist i supplied = (strip a, strip b))
  ∧ (¬ ((in_vocabulary artist ∨ has_marker artist) ∧ occurs " - " title) →
       track_identity artist i supplied = (artist, title))
  ∧ track_identity "Various Artists" i "Beatles - Yesterday"
      = ("Beatles", "Yesterday").
Proof.
  intros title. unfold track_identity. rewrite supplied_title_eq.
  fold title. split_ands.
  - intros [Hc Hocc]. apply is_compilation_spec in Hc.
    apply contains_occurs in Hocc. rewrite Hc, Hocc. simpl andb.
    apply contains_split in Hocc as (a & b & Hs). rewrite Hs.
    exists a, b. pose proof (split_once_app _ _ _ _ Hs) as Heq.
    split; [exact Heq|]. split; [by eapply split_once_first|].
    assert (Hab : all_space a = false ∧ all_space b = false).
    { unfold title, supplied_title in Heq.
      destruct (decide (strip supplied = "")).
      - exfalso. apply fallback_title_whole with (i := i). eauto.
      - by eapply strip_parts. }
    destruct Hab as [Ha Hb]. by rewrite !truthy_strip, Ha, Hb.
  - intros Hn.
    destruct (is_compilation artist && contains " - " title) eqn:E;
      [|reflexivity].
    exfalso. apply Hn. apply andb_true_iff in E as [Hc Hocc].
    split; [by apply is_compilation_spec|by apply contains_occurs].
  - reflexivity.
Qed.

Lemma C4_track_identity_witness :
  (∃ a b, supplied_title 1 "Ritual - Live" = a +:+ " - " +:+ b
          ∧ (∀ a' b', supplied_title 1 "Ritual - Live" = a' +:+ " - " +:+ b' →
                      String.length a ≤ String.length a')
          ∧ track_identity "Ghost" 1 "Ritual - Live" = (strip a, strip b))
  ∧ track_identity "Ghost" 2 "  Ritual " = ("Ghost", "Ritual").
Proof.
  split.
  - apply (proj1 (C4_track_identity "Ghost" 1 "Ritual - Live")). split.
    + right. exists "ost". split; [set_solver|]. by exists "gh", "".
    + by exists "Ritual", "Live".
  - apply (proj1 (proj2 (C4_track_identity "Ghost" 2 "  Ritual "))).
    intros [_ Hocc]. apply contains_occurs in Hocc.
    vm_compute in Hocc. discriminate Hocc.
Defined.

End TitleFacts.

(** ** Paths *)

Section PathFacts.
Import PyStr Path.

Lemma length_app_string (a b : string) :
  String.length (a +:+ b) = String.length a + String.length b.
Proof. induction a as [|c a IH]; sapp; simpl; [reflexivity|by rewrite IH]. Qed.

Lemma has_slash_app (a b : string) :
  has_slash (a +:+ b) = has_slash a || has_slash b.
Proof.
  induction a as [|c a IH]; sapp; simpl; [reflexivity|].
  by rewrite IH, orb_assoc.
Qed.

Lemma basename_cons (c : ascii) (r : string) :
  basename (String c r) =
    if has_slash r then basename r
    else if is_slash c then r else String c r.
Proof. reflexivity. Qed.

Lemma basename_no_slash (s : string) : has_slash s = false → basename s = s.
Proof.
  destruct s as [|c s]; [reflexivity|]. simpl has_slash.
  intros H. apply orb_false_iff in H as [Hc Hs].
  by rewrite basename_cons, Hs, Hc.
Qed.

Lemma has_slash_basename (p : string) : has_slash (basename p) = false.
Proof.
  induction p as [|c p IH]; [reflexivity|]. rewrite basename_cons.
  destruct (has_slash p) eqn:Hp; [exact IH|].
  destruct (is_slash c) eqn:Hc; [exact Hp|]. simpl. by rewrite Hc, Hp.
Qed.

Lemma basename_app (x y : string) :
  has_slash y = false → basename (x +:+ y) = basename x +:+ y.
Proof.
  intros Hy. induction x as [|c x IH]; sapp; [by apply basename_no_slash|].
  rewrite !basename_cons, has_slash_app, Hy, orb_false_r.
  destruct (has_slash x); [exact IH|]. by destruct (is_slash c).
Qed.

Lemma basename_dir (x : string) : basename (x +:+ "/") = "".
Proof.
  induction x as [|c x IH]; sapp; [reflexivity|].
  rewrite basename_cons, has_slash_app. simpl has_slash at 2.
  by rewrite orb_true_r.
Qed.

Lemma child_name_Some (parent k name : string) :
  child_name parent k = Some name →
  k = parent +:+ "/" +:+ name ∧ has_slash name = false.
Proof.
  unfold child_name, startswith.
  destruct (String.prefix (parent +:+ "/") k) eqn:E; [|discriminate].
  apply prefix_drop in E. rewrite length_app_string in E. simpl in E.
  destruct (truthy _ && negb (has_slash _)) eqn:E2; [|discriminate].
  intros [= <-]. apply andb_true_iff in E2 as [_ Hs].
  apply negb_true_iff in Hs. split; [|exact Hs].
  by rewrite <- string_app_assoc.
Qed.

Lemma basename_child (parent k name : string) :
  child_name parent k = Some name → basename k = name.
Proof.
  intros H. apply child_name_Some in H as [-> Hs].
  rewrite <- string_app_assoc, basename_app by done.
  by rewrite basename_dir.
Qed.

Lemma endswith_length (p s : string) :
  endswith p s = true → String.length p ≤ String.length s.
Proof.
  unfold endswith. intros H. apply andb_true_iff in H as [H _].
  by apply Nat.leb_le.
Qed.

Lemma no_slash_startswith (s : string) :
  has_slash s = false → startswith "/" s = false.
Proof.
  destruct s as [|c s]; [reflexivity|]. simpl has_slash. unfold is_slash.
  intros H. apply orb_false_iff in H as [Hc _].
  change (startswith "/" (String c s))
    with (if ascii_dec "/" c then String.prefix "" s else false).
  destruct (ascii_dec "/" c) as [<-|]; [discriminate|reflexivity].
Qed.

End PathFacts.

(** ** Backup and the destination check *)

Section BackupFacts.
Import PyStr Path Fs App.

Lemma exists_dir_true (p : string) (t : tree) :
  exists_dir p t = true ↔ is_Some (t !! p).
Proof. unfold exists_dir. apply bool_decide_eq_true. Qed.

(** The source is never one of the backups that [create_backup] removes:
    its name would have to end with an underscore and itself. *)
Lemma source_not_old_backup (src : string) : old_backup (basename src) src = false.
Proof.
  unfold old_backup. destruct (child_name BACKUP_DIR src) as [name|] eqn:E;
    [|reflexivity].
  apply basename_child in E. rewrite E.
  destruct (endswith ("_" +:+ name) name) eqn:Ee; [|reflexivity].
  apply endswith_length in Ee. sapp_in Ee. simpl in Ee. lia.
Qed.

Definition backup_path_of (stamp folder_path : string) : string :=
  BACKUP_DIR +:+ "/" +:+ "backup_" +:+ stamp +:+ "_" +:+ basename folder_path.

Lemma backup_path_join (stamp src : string) :
  Path.join BACKUP_DIR ("backup_" +:+ stamp +:+ "_" +:+ basename src)
    = backup_path_of stamp src.
Proof. reflexivity. Qed.

Lemma backup_path_not_source (stamp src : string) : backup_path_of stamp src ≠ src.
Proof.
  intros H. apply (f_equal basename) in H. unfold backup_path_of in H.
  rewrite <- !(string_app_assoc _ _ ("_" +:+ basename src)) in H.
  rewrite basename_app in H.
  2:{ sapp. simpl. apply has_slash_basename. }
  apply (f_equal String.length) in H.
  rewrite !length_app_string in H. simpl in H. lia.
Qed.

(** What [create_backup] does to the tree, for a source that exists. *)
Lemma create_backup_spec (stamp src : string) (t : tree) (d : dir) :
  t !! src = Some d →
  (create_backup stamp src t).1 = backup_path_of stamp src
  ∧ (create_backup stamp src t).2 !! backup_path_of stamp src = Some d
  ∧ (∀ k, k ≠ backup_path_of stamp src → old_backup (basename src) k = false →
          (create_backup stamp src t).2 !! k = t !! k)
  ∧ (∀ k, k ≠ backup_path_of stamp src → old_backup (basename src) k = true →
          (create_backup stamp src t).2 !! k = None).
Proof.
  intros HS. unfold create_backup. cbv zeta. simpl fst. simpl snd.
  rewrite backup_path_join. unfold copytree.
  set (P := λ kv : string * dir, old_backup (basename src) kv.1 = false).
  assert (H1 : filter P t !! src = Some d).
  { apply map_lookup_filter_Some. split; [done|].
    apply source_not_old_backup. }
  rewrite H1. split; [reflexivity|]. split; [apply lookup_insert_eq|]. split.
  - intros k Hk Hold. rewrite lookup_insert_ne by done.
    destruct (t !! k) as [x|] eqn:Ek.
    + apply map_lookup_filter_Some. by split.
    + apply map_lookup_filter_None. by left.
  - intros k Hk Hold. rewrite lookup_insert_ne by done.
    apply map_lookup_filter_None. right. intros x _. unfold P. simpl.
    by rewrite Hold.
Qed.

(** *** Sanitized names hold no slash *)

Lemma has_slash_replace_slash (s : string) :
  has_slash (replace_char "/" "-" s) = false.
Proof.
  induction s as [|c s IH]; [reflexivity|]. simpl. rewrite IH.
  unfold is_slash. by destruct (Ascii.eqb c "/") eqn:E; [|rewrite E].
Qed.

Lemma has_slash_replace (c : ascii) (s : string) :
  has_slash s = false → has_slash (replace_char c "-" s) = false.
Proof.
  induction s as [|x s IH]; [reflexivity|]. simpl.
  intros H. apply orb_false_iff in H as [Hx Hs]. rewrite IH by done.
  by destruct (Ascii.eqb x c); [|rewrite Hx].
Qed.

Lemma has_slash_lstrip (s : string) :
  has_slash s = false → has_slash (lstrip s) = false.
Proof.
  induction s as [|x s IH]; [reflexivity|]. rewrite lstrip_cons.
  intros H. destruct (is_space x); [|exact H].
  simpl in H. apply orb_false_iff in H as [_ Hs]. by apply IH.
Qed.

Lemma has_slash_rstrip (s : string) :
  has_slash s = false → has_slash (rstrip s) = false.
Proof.
  induction s as [|x s IH]; [reflexivity|]. rewrite rstrip_cons.
  intros H. destruct (all_space (String x s)); [reflexivity|].
  simpl in *. apply orb_false_iff in H as [Hx Hs]. by rewrite Hx, IH.
Qed.

Lemma has_slash_sanitize (name : string) : has_slash (sanitize name) = false.
Proof.
  unfold sanitize, strip. apply has_slash_rstrip, has_slash_lstrip.
  simpl fold_left. do 8 apply has_slash_replace.
  apply has_slash_replace_slash.
Qed.

(** The destination lies below [MUSIC_DIR]. *)
Lemma new_dir_shape (artist album_name : string) :
  ∃ rest, Path.join (Path.join MUSIC_DIR (sanitize artist))
                    (sanitize album_name)
          = "/home/arm/music/" +:+ rest.
Proof.
  pose proof (no_slash_startswith _ (has_slash_sanitize artist)) as Ha.
  pose proof (no_slash_startswith _ (has_slash_sanitize album_name)) as Hb.
  unfold Path.join at 2. rewrite Ha.
  change (negb (truthy MUSIC_DIR) || endswith "/" MUSIC_DIR) with false.
  cbv iota. unfold Path.join. rewrite Hb.
  destruct (negb _ || endswith _ _); eexists; reflexivity.
Qed.

Lemma new_dir_not_backup (artist album_name stamp src : string) :
  let new_dir := Path.join (Path.join MUSIC_DIR (sanitize artist))
                           (sanitize album_name) in
  new_dir ≠ backup_path_of stamp src ∧ old_backup (basename src) new_dir = false.
Proof.
  intros new_dir. unfold new_dir.
  destruct (new_dir_shape artist album_name) as [rest ->]. split.
  - intros H. apply (f_equal (String.prefix "/home/arm/m")) in H.
    vm_compute in H. discriminate H.
  - reflexivity.
Qed.

End BackupFacts.

Section DestinationFacts.
Import PyStr Path Fs App.

(** The source folder and the destination a request designates. *)
Definition request_folder (f : form) : string :=
  if f_is_existing f && truthy (f_original_path f)
  then f_original_path f
  else Path.join UNKNOWN_DIR (f_folder f).

Definition request_dest (f : form) : string :=
  Path.join (Path.join MUSIC_DIR (sanitize (strip (f_artist f))))
            (sanitize (strip (f_album_name f))).

(** A request that passes the two first checks of [save]. *)
Definition well_formed (f : form) (st : state) : Prop :=
  exists_dir (request_folder f) (disk st) = true
  ∧ strip (f_artist f) ≠ "" ∧ strip (f_album_name f) ≠ "".

(** A path written as the file system keeps it: absolute, one slash
    between two components and none at the end, no component [.] or
    [..]. *)
Definition canonical (p : string) : bool :=
  String.eqb (normpath p) p && startswith "/" p && negb (startswith "//" p).

(** A tree all of whose directories are entered under such a path. *)
Definition canonical_tree (t : tree) : bool :=
  forallb canonical (map fst (map_to_list t)).

(** A path of the library: canonical and below the music directory. *)
Definition in_library (p : string) : bool :=
  canonical p && startswith (MUSIC_DIR +:+ "/") p.

(** No directory is entered below [p]. *)
Definition no_dir_below (p : string) (t : tree) : bool :=
  forallb (λ k, negb (startswith (p +:+ "/") k)) (map fst (map_to_list t)).

(** Nothing is at [p]: no directory is entered at [p] or below it, and the
    directory above [p], if it is entered, lists no file of that name. *)
Definition nothing_at (p : string) (t : tree) : bool :=
  negb (exists_dir p t) && no_dir_below p t
  && match t !! dirname p with
     | Some d => bool_decide (d !! basename p = None)
     | None => true
     end.

(** A name that designates a directory of its own. *)
Definition plain_name (s : string) : bool :=
  negb (String.eqb s ".") && negb (String.eqb s "..").

(** A request whose sanitized artist and album are such names: its
    destination is the folder of that album below the folder of that artist
    in the music directory, as it is written. *)
Definition plain_request (f : form) : bool :=
  plain_name (sanitize (strip (f_artist f)))
  && plain_name (sanitize (strip (f_album_name f))).

(** The move of a flat album of the library to a place that is free: the
    source is a path of the library without a directory below it, the tree
    is canonical, the names are plain, nothing is at the destination, the
    destination is not below the source, and the music directory lists no
    file named as the artist. *)
Definition plain_move (f : form) (t : tree) : bool :=
  in_library (request_folder f)
  && no_dir_below (request_folder f) t
  && canonical_tree t
  && plain_request f
  && nothing_at (request_dest f) t
  && negb (startswith (request_folder f +:+ "/") (request_dest f))
  && match t !! MUSIC_DIR with
     | Some d => bool_decide (d !! sanitize (strip (f_artist f)) = None)
     | None => true
     end.

Lemma nothing_at_None (p : string) (t : tree) :
  nothing_at p t = true → t !! p = None.
Proof.
  unfold nothing_at, exists_dir. rewrite !andb_true_iff.
  intros [[H _] _]. apply negb_true_iff, bool_decide_eq_false in H.
  by apply eq_None_not_Some.
Qed.

Lemma plain_move_fresh (f : form) (t : tree) :
  plain_move f t = true → t !! request_dest f = None.
Proof.
  unfold plain_move. rewrite !andb_true_iff.
  intros [[[_ H] _] _]. by apply nothing_at_None.
Qed.

Lemma plain_move_library (f : form) (t : tree) :
  plain_move f t = true → in_library (request_folder f) = true.
Proof.
  unfold plain_move. rewrite !andb_true_iff. by intros [[[[[[H _] _] _] _] _] _].
Qed.

Lemma in_library_shape (p : string) :
  in_library p = true → ∃ x, p = MUSIC_DIR +:+ "/" +:+ x.
Proof.
  unfold in_library. intros H. apply andb_true_iff in H as [_ H].
  apply prefix_drop in H. rewrite string_app_assoc in H. by eexists.
Qed.

(** [create_backup] leaves the paths of the library alone. *)
Lemma in_library_not_backup (k stamp src : string) :
  in_library k = true →
  k ≠ backup_path_of stamp src ∧ old_backup (basename src) k = false.
Proof.
  intros H. apply in_library_shape in H as [x ->]. split.
  - intros H. apply (f_equal (String.prefix "/home/arm/m")) in H.
    vm_compute in H. discriminate H.
  - reflexivity.
Qed.

(** [save] on a well-formed request whose destination is another folder
    that exists: the state after the backup, and nothing else. *)
Lemma save_folder_exists (clk : clock) (f : form) (st : state) :
  well_formed f st →
  normpath (request_dest f) ≠ normpath (request_folder f) →
  exists_dir (request_dest f) (disk st) = true →
  save clk f st
    = (FolderExists (sanitize (strip (f_artist f)))
                    (sanitize (strip (f_album_name f))),
       {| disk := (create_backup (backup_stamp clk) (request_folder f)
                     (disk st)).2;
          history := history st |}).
Proof.
  intros (Hex & Ha & Hb) Hne Hd. unfold save. fold (request_folder f).
  rewrite Hex. simpl negb. cbv iota.
  apply truthy_true in Ha, Hb. rewrite Ha, Hb. simpl orb. cbv iota.
  fold (request_dest f).
  apply exists_dir_true in Hex as [d Hsrc].
  destruct (create_backup_spec (backup_stamp clk) _ _ _ Hsrc)
    as (_ & _ & Hkeep & _).
  destruct (create_backup (backup_stamp clk) (request_folder f) (disk st))
    as [bp t1] eqn:Ecb. simpl in Hkeep.
  destruct (new_dir_not_backup (strip (f_artist f)) (strip (f_album_name f))
              (backup_stamp clk) (request_folder f)) as [Hn1 Hn2].
  fold (request_dest f) in Hn1, Hn2.
  assert (Hd' : exists_dir (request_dest f) t1 = true).
  { apply exists_dir_true. rewrite Hkeep by done. by apply exists_dir_true. }
  rewrite Hd'.
  replace (String.eqb (normpath (request_dest f))
             (normpath (request_folder f))) with false
    by (symmetry; by apply String.eqb_neq).
  reflexivity.
Qed.

(** C5, amended.  For a request that passes the first checks, whose
    source is a path of the library and whose sanitized artist and album
    are plain names: when the destination is another folder than the source
    and exists already, the request is refused with "folder exists", and the
    listings of the source and of the destination are what they were before
    the call, as is every directory entered under a path of the library, and
    the history.  (The backup of the source has been written by then, see
    C10.) *)
Theorem C5_destination_exists (clk : clock) (f : form) (st : state) :
  well_formed f st →
  in_library (request_folder f) = true →
  plain_request f = true →
  normpath (request_dest f) ≠ normpath (request_folder f) →
  exists_dir (request_dest f) (disk st) = true →
  (save clk f st).1 = FolderExists (sanitize (strip (f_artist f)))
                                   (sanitize (strip (f_album_name f)))
  ∧ disk (save clk f st).2 !! request_folder f
      = disk st !! request_folder f
  ∧ disk (save clk f st).2 !! request_dest f = disk st !! request_dest f
  ∧ (∀ k, in_library k = true →
          disk (save clk f st).2 !! k = disk st !! k)
  ∧ history (save clk f st).2 = history st.
Proof.
  intros Hwf Hlib _ Hne Hd.
  rewrite (save_folder_exists clk f st Hwf Hne Hd).
  cbn [fst snd disk history].
  split; [done|].
  destruct Hwf as (Hex & _).
  apply exists_dir_true in Hex as [d Hsrc].
  destruct (create_backup_spec (backup_stamp clk) _ _ _ Hsrc)
    as (_ & _ & Hkeep & _).
  destruct (new_dir_not_backup (strip (f_artist f)) (strip (f_album_name f))
              (backup_stamp clk) (request_folder f)) as [Hn1 Hn2].
  split_ands.
  - apply Hkeep.
    + intros E. symmetry in E. by apply backup_path_not_source in E.
    + apply source_not_old_backup.
  - by apply Hkeep.
  - intros k Hk.
    destruct (in_library_not_backup k (backup_stamp clk) (request_folder f) Hk).
    by apply Hkeep.
  - reflexivity.
Qed.

(** C10. A well-formed request has its source backed up before the
    destination is looked at.  So a request refused with "folder exists"
    leaves the history as it was but not the backup area: the state it
    returns is the one [create_backup] produced, in which the new backup
    holds the listing of the source and every other directory of the backup
    area whose name ends with an underscore and the base name of the source
    is gone. *)
Theorem C10_backup_before_check (clk : clock) (f : form) (st : state) :
  well_formed f st →
  normpath (request_dest f) ≠ normpath (request_folder f) →
  exists_dir (request_dest f) (disk st) = true →
  let new_backup := backup_path_of (backup_stamp clk) (request_folder f) in
  (save clk f st).1 = FolderExists (sanitize (strip (f_artist f)))
                                   (sanitize (strip (f_album_name f)))
  ∧ history (save clk f st).2 = history st
  ∧ disk (save clk f st).2
      = (create_backup (backup_stamp clk) (request_folder f) (disk st)).2
  ∧ is_Some (disk st !! request_folder f)
  ∧ disk (save clk f st).2 !! new_backup = disk st !! request_folder f
  ∧ (∀ k name,
       child_name BACKUP_DIR k = Some name →
       endswith ("_" +:+ basename (request_folder f)) name = true →
       k ≠ new_backup →
       disk (save clk f st).2 !! k = None)
  ∧ (disk st !! new_backup ≠ disk st !! request_folder f →
       disk (save clk f st).2 ≠ disk st).
Proof.
  intros Hwf Hne Hd new_backup.
  rewrite (save_folder_exists clk f st Hwf Hne Hd).
  cbn [fst snd disk history].
  destruct Hwf as (Hex & _).
  apply exists_dir_true in Hex as [d Hsrc].
  destruct (create_backup_spec (backup_stamp clk) _ _ _ Hsrc)
    as (_ & Hnew & _ & Hold).
  fold new_backup in Hnew, Hold.
  split; [done|]. split; [done|]. split; [done|]. split; [by exists d|].
  split; [by rewrite Hnew, Hsrc|]. split.
  - intros k name Hk Hend Hkne. apply Hold; [done|].
    unfold old_backup. by rewrite Hk.
  - intros Hdiff E. apply Hdiff.
    assert (Hx : disk st !! new_backup = Some d)
      by (rewrite <- E; exact Hnew).
    by rewrite Hx, Hsrc.
Qed.

End DestinationFacts.

(** ** Concrete runs *)

Section Runs.
Import PyStr Path Fs App.

(** The library of two albums, with an older backup of P in the backup
    area. *)
Definition library_with_backup : tree :=
  <[BACKUP_DIR +:+ "/backup_20231231_235959_P" :=
      {["01.flac" := Flac [] [] "audio-p1"]}]> library.

(** P is to be filed under artist "B", album "Q": the folder of Q. *)
Definition move_P_onto_Q : form := edit_in_place album_P "B" "Q" "One".

Lemma C5_destination_exists_witness :
  let st := {| disk := library; history := [] |} in
  let r := save (at_time "20240101_100000") move_P_onto_Q st in
  r.1 = FolderExists "B" "Q"
  ∧ disk r.2 !! album_P = library !! album_P
  ∧ disk r.2 !! album_Q = library !! album_Q
  ∧ disk r.2 !! "/home/arm/music/B" = library !! "/home/arm/music/B"
  ∧ history r.2 = [].
Proof.
  intros st r.
  destruct (C5_destination_exists (at_time "20240101_100000")
              move_P_onto_Q st) as (H1 & H2 & H3 & H4 & H5).
  - split; [vm_compute; reflexivity|].
    split; vm_compute; intros H; discriminate H.
  - vm_compute. reflexivity.
  - vm_compute. reflexivity.
  - vm_compute. intros H. discriminate H.
  - vm_compute. reflexivity.
  - split; [exact H1|]. split; [exact H2|]. split; [exact H3|].
    split; [|exact H5]. apply H4. vm_compute. reflexivity.
Defined.

(** The directory /home/arm/logs, entered also under the spelling by which
    a request for the artist [..] and the album [logs] designates it. *)
Definition library_and_logs : tree :=
  <["/home/arm/music/../logs" := ∅]> (<["/home/arm/logs" := ∅]> library).

(** P is to be filed under artist [..], album [logs]. *)
Definition move_P_to_logs : form := edit_in_place album_P ".." "logs" "One".

(** C5 as stated fails.  The request to file album P under the artist [..]
    and the album [logs] is well formed, its destination is another folder
    than its source and exists: it is the directory /home/arm/logs.  The
    request is refused with "folder exists", but by then the backup of P
    has been written below /home/arm/logs, that is inside the destination,
    which is therefore not what it was before the call. *)
Lemma C5_backup_inside_destination :
  let st := {| disk := library_and_logs; history := [] |} in
  let f := move_P_to_logs in
  let r := save (at_time "20240101_100000") f st in
  let new_backup := BACKUP_DIR +:+ "/backup_20240101_100000_P" in
  well_formed f st
  ∧ request_dest f = "/home/arm/music/../logs"
  ∧ normpath (request_dest f) = "/home/arm/logs"
  ∧ normpath (request_dest f) ≠ normpath (request_folder f)
  ∧ exists_dir (request_dest f) (disk st) = true
  ∧ r.1 = FolderExists ".." "logs"
  ∧ startswith (normpath (request_dest f) +:+ "/") new_backup = true
  ∧ disk st !! new_backup = None
  ∧ disk r.2 !! new_backup = library !! album_P.
Proof.
  intros st f r new_backup.
  split.
  { split; [vm_compute; reflexivity|].
    split; vm_compute; intros H; discriminate H. }
  split; [vm_compute; reflexivity|].
  split; [vm_compute; reflexivity|].
  split; [vm_compute; intros H; discriminate H|].
  split_ands; vm_compute; reflexivity.
Qed.

Lemma C10_backup_before_check_witness :
  let st := {| disk := library_with_backup; history := [] |} in
  let r := save (at_time "20240101_100000") move_P_onto_Q st in
  r.1 = FolderExists "B" "Q"
  ∧ history r.2 = []
  ∧ disk r.2 !! (BACKUP_DIR +:+ "/backup_20240101_100000_P")
      = library !! album_P
  ∧ disk r.2 !! (BACKUP_DIR +:+ "/backup_20231231_235959_P") = None
  ∧ disk r.2 ≠ disk st.
Proof.
  intros st r.
  destruct (C10_backup_before_check (at_time "20240101_100000")
              move_P_onto_Q st) as (H1 & H2 & _ & _ & H5 & H6 & H7).
  - split; [vm_compute; reflexivity|].
    split; vm_compute; intros H; discriminate H.
  - vm_compute. intros H. discriminate H.
  - vm_compute. reflexivity.
  - split; [exact H1|]. split; [exact H2|]. split; [exact H5|]. split.
    + apply (H6 _ "backup_20231231_235959_P"); [reflexivity|reflexivity|].
      vm_compute. intros H. discriminate H.
    + apply H7. vm_compute. intros H. discriminate H.
Defined.

(** P is to be filed under artist "C", album "R": a fresh folder. *)
Definition album_R : string := "/home/arm/music/C/R".
Definition move_P_to_R : form := edit_in_place album_P "C" "R" "One".

(** Below the cap the round trip is as the specification has it. *)
Example round_trip_below_cap :
  let st := {| disk := library; history := append_all (deletions 3) [] |} in
  let saved := save (at_time "20240101_100000") move_P_to_R st in
  let undone := undo saved.2 in
  saved.1 = Saved "C" "R"
  ∧ is_Some (disk saved.2 !! album_R)
  ∧ disk saved.2 !! album_P = None
  ∧ undone.1 = UndoSuccessful "C" "R"
  ∧ disk undone.2 !! album_R = None
  ∧ disk undone.2 !! album_P = library !! album_P
  ∧ (e_undone <$> last (history undone.2)) = Some true
  ∧ (undo undone.2).1 = NothingToUndo.
Proof.
  intros st saved undone.
  split_ands; try (vm_compute; reflexivity).
  vm_compute. by eexists.
Qed.

(** C1 (the code departs from it).  After 101 earlier actions the history
    is at its cap and its newest entry is numbered 101.  Album P is then
    moved to a fresh folder: the new entry is numbered 101 as well.  Undo
    removes the destination and restores the source with the files and tags
    it had, but marks the older entry 101 as undone, not the entry of the
    move.  No other entry has a backup, yet a second undo does not report
    "nothing to undo": it selects the entry of the move again and reports
    its backup as missing. *)
Theorem C1_round_trip_at_cap :
  let st := {| disk := library; history := append_all (deletions 101) [] |} in
  let saved := save (at_time "20240101_100000") move_P_to_R st in
  let undone := undo saved.2 in
  (∀ e, e ∈ history st → undoable e = false)
  ∧ disk st !! album_R = None
  ∧ saved.1 = Saved "C" "R"
  ∧ (e_id <$> last (history st)) = Some 101
  ∧ (e_id <$> last (history saved.2)) = Some 101
  ∧ undone.1 = UndoSuccessful "C" "R"
  ∧ disk undone.2 !! album_R = None
  ∧ disk undone.2 !! album_P = library !! album_P
  ∧ (e_undone <$> last (history undone.2)) = Some false
  ∧ (e_undone <$> history undone.2 !! 98) = Some true
  ∧ (undo undone.2).1 = BackupNotFound "C" "R".
Proof.
  intros st saved undone.
  split.
  { apply Forall_forall. apply (bool_decide_unpack _).
    vm_compute. reflexivity. }
  split_ands; vm_compute; reflexivity.
Qed.

End Runs.

(** ** The round trip of a move and its undo *)

Section TreeFacts.
Import PyStr Path Fs App.

Lemma mkdir_keep (p : string) (t : tree) (k : string) (d : dir) :
  t !! k = Some d → mkdir_if_missing p t !! k = Some d.
Proof.
  intros H. unfold mkdir_if_missing. destruct (t !! p) eqn:E; [done|].
  rewrite lookup_insert_ne; [done|]. intros ->. congruence.
Qed.

Lemma mkdir_other (p : string) (t : tree) (k : string) :
  k ≠ p → mkdir_if_missing p t !! k = t !! k.
Proof.
  intros H. unfold mkdir_if_missing. destruct (t !! p); [done|].
  by rewrite lookup_insert_ne.
Qed.

Lemma mkdir_at (p : string) (t : tree) : is_Some (mkdir_if_missing p t !! p).
Proof.
  unfold mkdir_if_missing. destruct (t !! p) eqn:E; [by rewrite E|].
  rewrite lookup_insert_eq. by eexists.
Qed.

Lemma mkdirs_keep (qs : list string) (t : tree) (k : string) (d : dir) :
  t !! k = Some d →
  fold_left (λ t q, mkdir_if_missing q t) qs t !! k = Some d.
Proof.
  revert t. induction qs as [|q qs IH]; intros t H; [done|].
  simpl. apply IH. by apply mkdir_keep.
Qed.

Lemma mkdirs_other (qs : list string) (t : tree) (k : string) :
  k ∉ qs → fold_left (λ t q, mkdir_if_missing q t) qs t !! k = t !! k.
Proof.
  revert t. induction qs as [|q qs IH]; intros t H; [done|].
  apply not_elem_of_cons in H as [Hq Hqs].
  simpl. rewrite IH by done. by apply mkdir_other.
Qed.

Lemma makedirs_keep (p : string) (t : tree) (k : string) (d : dir) :
  t !! k = Some d → makedirs p t !! k = Some d.
Proof. intros H. unfold makedirs. by apply mkdir_keep, mkdirs_keep. Qed.

Lemma makedirs_other (p : string) (t : tree) (k : string) :
  k ≠ p → k ∉ ancestors p → makedirs p t !! k = t !! k.
Proof.
  intros H1 H2. unfold makedirs. rewrite mkdir_other by done.
  by apply mkdirs_other.
Qed.

Lemma makedirs_at (p : string) (t : tree) : is_Some (makedirs p t !! p).
Proof. apply mkdir_at. Qed.

(** Removing the parent of [p] when it is empty touches no other entry
    and adds none. *)
Lemma remove_empty_parent_other (p : string) (t : tree) (k : string) :
  k ≠ dirname p → remove_empty_parent p t !! k = t !! k.
Proof.
  intros H. unfold remove_empty_parent, rmdir.
  destruct (exists_dir (dirname p) t && listdir_empty (dirname p) t);
    [|done].
  by rewrite lookup_delete_ne.
Qed.

Lemma remove_empty_parent_None (p : string) (t : tree) (k : string) :
  t !! k = None → remove_empty_parent p t !! k = None.
Proof.
  intros H. unfold remove_empty_parent, rmdir.
  destruct (exists_dir (dirname p) t && listdir_empty (dirname p) t);
    [|done].
  destruct (decide (dirname p = k)) as [->|Hne].
  - apply lookup_delete_eq.
  - by rewrite lookup_delete_ne.
Qed.

Lemma exists_dir_false (p : string) (t : tree) :
  exists_dir p t = false ↔ t !! p = None.
Proof.
  unfold exists_dir. rewrite bool_decide_eq_false.
  rewrite <- eq_None_not_Some. done.
Qed.

(** *** [dirname] cuts a path *)

Lemma head_basename (p : string) : head_with_slash p +:+ basename p = p.
Proof.
  induction p as [|c p IH]; [reflexivity|].
  rewrite basename_cons. simpl head_with_slash.
  destruct (has_slash p).
  - sapp. by rewrite IH.
  - destruct (is_slash c) eqn:E; [|reflexivity].
    unfold is_slash in E. apply Ascii.eqb_eq in E. by subst.
Qed.

Lemma rstrip_slashes_cut (s : string) : ∃ r, s = rstrip_slashes s +:+ r.
Proof.
  induction s as [|c s [r IH]]; [by exists ""|].
  simpl rstrip_slashes. destruct (is_slash c && all_slashes s).
  - by exists (String c s).
  - exists r. sapp. by rewrite <- IH.
Qed.

Lemma dirname_cut (p : string) : ∃ r, p = dirname p +:+ r.
Proof.
  unfold dirname.
  destruct (truthy (head_with_slash p) && negb (all_slashes (head_with_slash p))).
  - destruct (rstrip_slashes_cut (head_with_slash p)) as [r Hr].
    exists (r +:+ basename p). rewrite <- string_app_assoc, <- Hr.
    symmetry. apply head_basename.
  - exists (basename p). symmetry. apply head_basename.
Qed.

End TreeFacts.

Section TrackLoop.
Import PyStr Path Fs App Tagger.

Lemma insert_name_perm (x : string) (l : list string) :
  insert_name x l ≡ₚ x :: l.
Proof.
  induction l as [|y l IH]; simpl; [done|].
  destruct (String.leb x y); [done|].
  rewrite IH. apply Permutation_swap.
Qed.

Lemma sorted_names_perm (l : list string) : sorted_names l ≡ₚ l.
Proof.
  induction l as [|x l IH]; simpl; [done|].
  by rewrite insert_name_perm, IH.
Qed.

Lemma flac_names_NoDup (l : list string) : NoDup l → NoDup (flac_names l).
Proof.
  intros H. unfold flac_names. rewrite sorted_names_perm.
  apply NoDup_ListNoDup, List.NoDup_filter. by apply NoDup_ListNoDup.
Qed.

Lemma flac_names_elem (l : list string) (x : string) :
  x ∈ flac_names l → x ∈ l.
Proof.
  unfold flac_names. rewrite sorted_names_perm.
  rewrite !list_elem_of_In, List.filter_In. tauto.
Qed.

(** The files of a listing that the loop of [save] goes through: each is
    in the listing, none comes twice. *)
Lemma listing_flac_names (d : dir) :
  NoDup (flac_names (map fst (map_to_list d)))
  ∧ ∀ x, x ∈ flac_names (map fst (map_to_list d)) → is_Some (d !! x).
Proof.
  split.
  - apply flac_names_NoDup. apply (NoDup_fst_map_to_list d).
  - intros x Hx. apply flac_names_elem in Hx.
    apply (list_elem_of_fmap fst) in Hx as ([k v] & -> & Hin).
    apply elem_of_map_to_list in Hin. by exists v.
Qed.

(** The loop of [save] on a move: every file goes from the source to the
    destination, and no other directory changes. *)
Lemma save_tracks_move (f : form) (artist album_name src dst : string)
    (total : nat) (names : list string) (t : tree) (i : nat) (ds : dir) :
  src ≠ dst →
  t !! src = Some ds →
  is_Some (t !! dst) →
  NoDup names →
  (∀ x, x ∈ names → is_Some (ds !! x)) →
  ∃ t', save_tracks f artist album_name src dst false total t i names
          = Some t'
        ∧ is_Some (t' !! src) ∧ is_Some (t' !! dst)
        ∧ ∀ k, k ≠ src → k ≠ dst → t' !! k = t !! k.
Proof.
  intros Hne. revert t i ds.
  induction names as [|name names IH]; intros t i ds Hsrc Hdst Hnd Hin.
  - exists t. by rewrite Hsrc.
  - apply NoDup_cons in Hnd as [Hname Hnd].
    destruct (Hin name ltac:(left)) as [fl Hfl].
    destruct Hdst as [dd Hdd].
    simpl save_tracks. unfold save_track.
    destruct (track_identity artist i (f_track f i)) as [ta tt].
    rewrite Hsrc, Hfl. unfold move_file.
    rewrite lookup_insert_eq, lookup_insert_eq.
    rewrite lookup_insert_ne by done.
    rewrite lookup_insert_ne by done. rewrite Hdd.
    match goal with
    | |- context [save_tracks _ _ _ _ _ _ _ ?t1 _ _] => set (t1' := t1)
    end.
    destruct (IH t1' (S i) (delete name ds)) as (t' & Hrun & Hs & Hd & Hk).
    + unfold t1'. rewrite lookup_insert_ne by done.
      rewrite lookup_insert_eq. f_equal. apply delete_insert_eq.
    + unfold t1'. rewrite lookup_insert_eq. by eexists.
    + done.
    + intros x Hx. rewrite lookup_delete_ne.
      * apply Hin. by right.
      * intros ->. done.
    + exists t'. rewrite Hrun. split; [done|]. split; [done|].
      split; [done|]. intros k Hk1 Hk2. rewrite Hk by done.
      unfold t1'. by rewrite !lookup_insert_ne.
Qed.

End TrackLoop.

Section RoundTrip.
Import PyStr Path Fs App Tagger.

Lemma add_history_entry_shape (now : string) (d : entry_data)
    (h : list entry) :
  ∃ older, (add_history_entry now d h).2 = older ++ [new_entry now d h]
           ∧ ∀ x, x ∈ older → x ∈ h.
Proof.
  unfold add_history_entry, last_100. cbv zeta. simpl snd.
  fold (new_entry now d h). rewrite length_app. simpl length.
  destruct (100 <? length h + 1) eqn:E.
  - exists (skipn (length h + 1 - 100) h). split.
    + apply drop_app_le. apply Nat.ltb_lt in E. lia.
    + intros x Hx. by eapply subseteq_drop.
  - by exists h.
Qed.

Lemma get_last_undoable_last (older : list entry) (e : entry) :
  undoable e = true → get_last_undoable (older ++ [e]) = Some e.
Proof.
  intros H. unfold get_last_undoable. rewrite rev_unit. simpl. by rewrite H.
Qed.

Lemma get_last_undoable_None (h : list entry) :
  (∀ x, x ∈ h → undoable x = false) → get_last_undoable h = None.
Proof.
  intros H. unfold get_last_undoable.
  destruct (List.find undoable (rev h)) as [e|] eqn:E; [|done].
  apply find_rev_Some in E as (older & newer & -> & He & _).
  rewrite H in He; [discriminate|]. apply elem_of_app. right. by left.
Qed.

Lemma mark_undone_last (older : list entry) (e : entry) :
  (∀ x, x ∈ older → e_id x ≠ e_id e) →
  mark_undone (e_id e) (older ++ [e]) = older ++ [set_undone e].
Proof.
  induction older as [|x older IH]; intros H; simpl.
  - by rewrite Nat.eqb_refl.
  - destruct (e_id x =? e_id e) eqn:E.
    + apply Nat.eqb_eq in E. exfalso. by apply (H x); [left|].
    + f_equal. apply IH. intros y Hy. apply H. by right.
Qed.

(** [save] on a move to a fresh folder. *)
Lemma save_moves (clk : clock) (f : form) (st : state) (d : dir) :
  disk st !! request_folder f = Some d →
  strip (f_artist f) ≠ "" → strip (f_album_name f) ≠ "" →
  normpath (request_dest f) ≠ normpath (request_folder f) →
  disk st !! request_dest f = None →
  dirname (request_folder f)
    ≠ backup_path_of (backup_stamp clk) (request_folder f) →
  ∃ t action,
    save clk f st
      = (Saved (strip (f_artist f)) (strip (f_album_name f)),
         {| disk := t;
            history :=
              (add_history_entry (entry_iso clk)
                 {| d_artist := strip (f_artist f);
                    d_album := strip (f_album_name f);
                    d_action := action;
                    d_original_path := request_folder f;
                    d_new_path := Some (request_dest f);
                    d_backup_path :=
                      Some (backup_path_of (backup_stamp clk)
                              (request_folder f)) |}
                 (history st)).2 |})
    ∧ t !! backup_path_of (backup_stamp clk) (request_folder f) = Some d
    ∧ t !! request_folder f = None.
Proof.
  intros Hsrc Ha Hb Hne Hfresh Hpar.
  set (src := request_folder f) in *. set (dst := request_dest f) in *.
  set (bp := backup_path_of (backup_stamp clk) src) in *.
  destruct (create_backup_spec (backup_stamp clk) _ _ _ Hsrc)
    as (Hbp & Hnew & Hkeep & _).
  fold bp in Hbp, Hnew, Hkeep.
  destruct (new_dir_not_backup (strip (f_artist f)) (strip (f_album_name f))
              (backup_stamp clk) src) as [Hn1 Hn2].
  fold (request_dest f) in Hn1, Hn2. fold dst bp in Hn1, Hn2.
  assert (Hsb : src ≠ bp).
  { intros E. symmetry in E. by apply backup_path_not_source in E. }
  assert (Hsd : src ≠ dst) by (intros E; apply Hne; by rewrite E).
  unfold save. fold (request_folder f). fold src.
  assert (Hex : exists_dir src (disk st) = true)
    by (apply exists_dir_true; by rewrite Hsrc).
  rewrite Hex. simpl negb. cbv iota.
  apply truthy_true in Ha, Hb. rewrite Ha, Hb. simpl orb. cbv iota.
  fold (request_dest f). fold dst.
  destruct (create_backup (backup_stamp clk) src (disk st)) as [bp' t1] eqn:Ecb.
  simpl in Hbp, Hnew, Hkeep. subst bp'.
  assert (H1s : t1 !! src = Some d).
  { rewrite Hkeep; [done|done|]. apply source_not_old_backup. }
  assert (H1d : t1 !! dst = None) by (rewrite Hkeep; done).
  rewrite H1s.
  replace (String.eqb (normpath dst) (normpath src)) with false
    by (symmetry; by apply String.eqb_neq).
  replace (exists_dir dst t1) with false
    by (symmetry; by apply exists_dir_false).
  simpl andb. cbv iota.
  destruct (listing_flac_names d) as [Hnd Hin].
  destruct (save_tracks_move f (strip (f_artist f)) (strip (f_album_name f))
              src dst (length (flac_names (map fst (map_to_list d))))
              (flac_names (map fst (map_to_list d)))
              (makedirs dst t1) 1 d)
    as (t3 & Hrun & H3s & H3d & H3k); try done.
  { by apply makedirs_keep. }
  { apply makedirs_at. }
  rewrite Hrun.
  eexists _, _. split; [reflexivity|].
  unfold remove_folder, rmtree.
  replace (exists_dir src t3) with true
    by (symmetry; by apply exists_dir_true).
  split.
  - rewrite remove_empty_parent_other by (intros E; by apply Hpar).
    rewrite lookup_delete_ne by done.
    rewrite H3k by done. by apply makedirs_keep.
  - apply remove_empty_parent_None, lookup_delete_eq.
Qed.

(** [undo] on a history whose newest entry records a move that can be
    undone. *)
Lemma undo_restores (st : state) (older : list entry) (e : entry)
    (bp src dst : string) (d : dir) :
  history st = older ++ [e] →
  e_undone e = false →
  e_backup_path e = Some bp → e_new_path e = Some dst →
  e_original_path e = src →
  truthy bp = true → truthy dst = true → truthy (dirname src) = true →
  disk st !! bp = Some d → disk st !! src = None →
  dst ≠ src → dst ≠ bp → dirname dst ≠ bp →
  dst ≠ dirname src → dst ∉ ancestors (dirname src) →
  ∃ t, undo st = (UndoSuccessful (e_artist e) (e_album e),
                  {| disk := t;
                     history := mark_undone (e_id e) (history st) |})
       ∧ t !! src = Some d ∧ t !! dst = None.
Proof.
  intros Hh Hu Hebp Hedst Hesrc Htb Htd Hts Hbp Hsrc Hds Hdb Hpb Hdp Hda.
  unfold undo. rewrite Hh, get_last_undoable_last.
  2:{ unfold undoable. by rewrite Hu, Hebp. }
  rewrite Hebp, Hedst, Hesrc, Htb, Htd. simpl andb.
  replace (exists_dir bp (disk st)) with true
    by (symmetry; apply exists_dir_true; by rewrite Hbp).
  cbv iota.
  set (t5 := if exists_dir dst (disk st)
             then remove_empty_parent dst (rmtree dst (disk st))
             else disk st).
  assert (H5 : t5 !! bp = Some d ∧ t5 !! src = None ∧ t5 !! dst = None).
  { unfold t5, rmtree. destruct (exists_dir dst (disk st)) eqn:E.
    - split_ands.
      + rewrite remove_empty_parent_other by done.
        by rewrite lookup_delete_ne.
      + apply remove_empty_parent_None. apply lookup_delete_None. by right.
      + apply remove_empty_parent_None, lookup_delete_eq.
    - split_ands; [done|done|]. by apply exists_dir_false. }
  destruct H5 as (H5b & H5s & H5d).
  replace (exists_dir src t5) with false
    by (symmetry; by apply exists_dir_false).
  rewrite Hts. simpl negb. cbv iota.
  unfold move_dir. rewrite (makedirs_keep _ _ _ _ H5b).
  eexists. split; [reflexivity|]. split.
  - apply lookup_insert_eq.
  - rewrite lookup_insert_ne by done. rewrite lookup_delete_ne by done.
    by rewrite makedirs_other.
Qed.

(** The destination is a directory above the source. *)
Definition above (dst src : string) : Prop :=
  dst = dirname src ∨ dst ∈ ancestors (dirname src).

(** X23.  The round trip, for a flat album of the library moved to a place
    that is free (see [plain_move]: in particular the sanitized artist and
    album are not [.] or [..], and nothing is at the destination): when the
    id of the new entry is not yet in the history, undo removes the
    destination, restores the listing of the source, and marks the entry of
    the move as undone; with no other entry to undo, a second undo finds
    nothing. *)
Theorem round_trip_fresh_id (clk : clock) (f : form) (st : state) :
  well_formed f st →
  plain_move f (disk st) = true →
  normpath (request_dest f) ≠ normpath (request_folder f) →
  ¬ above (request_dest f) (request_folder f) →
  (∀ e, e ∈ history st → e_id e ≠ length (history st) + 1) →
  (∀ e, e ∈ history st → undoable e = false) →
  let saved := save clk f st in
  let undone := undo saved.2 in
  saved.1 = Saved (strip (f_artist f)) (strip (f_album_name f))
  ∧ undone.1 = UndoSuccessful (strip (f_artist f)) (strip (f_album_name f))
  ∧ disk undone.2 !! request_dest f = None
  ∧ disk undone.2 !! request_folder f = disk st !! request_folder f
  ∧ (∃ older e, history undone.2 = older ++ [e]
                ∧ e_undone e = true
                ∧ e_original_path e = request_folder f
                ∧ e_new_path e = Some (request_dest f)
                ∧ ∀ x, x ∈ older → x ∈ history st)
  ∧ (undo undone.2).1 = NothingToUndo.
Proof.
  intros (Hex & Ha & Hb) Hpm Hne Habove Hid Hnone saved undone.
  apply exists_dir_true in Hex as [d Hsrc].
  pose proof (plain_move_fresh _ _ Hpm) as Hfresh.
  destruct (in_library_shape _ (plain_move_library _ _ Hpm)) as [x Hx].
  set (src := request_folder f) in *. set (dst := request_dest f) in *.
  set (bp := backup_path_of (backup_stamp clk) src) in *.
  destruct (new_dir_shape (strip (f_artist f)) (strip (f_album_name f)))
    as [rest Hdst].
  fold (request_dest f) in Hdst. fold dst in Hdst.
  destruct (new_dir_not_backup (strip (f_artist f)) (strip (f_album_name f))
              (backup_stamp clk) src) as [Hdb _].
  fold (request_dest f) in Hdb. fold dst bp in Hdb.
  assert (Hpar : dirname src ≠ bp).
  { intros E. destruct (dirname_cut src) as [r Hr].
    rewrite E, Hx in Hr.
    apply (f_equal (String.prefix "/home/arm/m")) in Hr.
    vm_compute in Hr. discriminate Hr. }
  assert (Hpd : dirname dst ≠ bp).
  { intros E. destruct (dirname_cut dst) as [r Hr].
    rewrite E in Hr. rewrite Hdst in Hr at 1.
    apply (f_equal (String.prefix "/home/arm/m")) in Hr.
    vm_compute in Hr. discriminate Hr. }
  assert (Hts : truthy (dirname src) = true) by (rewrite Hx; reflexivity).
  assert (Htd : truthy dst = true) by (rewrite Hdst; reflexivity).
  destruct (save_moves clk f st d Hsrc Ha Hb Hne Hfresh Hpar)
    as (t & action & Hsave & Htb & Hts').
  fold src dst bp in Hsave, Htb, Hts'.
  set (dat := {| d_artist := strip (f_artist f);
                 d_album := strip (f_album_name f);
                 d_action := action; d_original_path := src;
                 d_new_path := Some dst; d_backup_path := Some bp |}) in *.
  destruct (add_history_entry_shape (entry_iso clk) dat (history st))
    as (older & Hshape & Hold).
  set (e := new_entry (entry_iso clk) dat (history st)) in *.
  assert (Hsaved : saved = (Saved (strip (f_artist f))
                              (strip (f_album_name f)),
                            {| disk := t; history := older ++ [e] |})).
  { unfold saved. rewrite Hsave. by rewrite Hshape. }
  destruct (undo_restores {| disk := t; history := older ++ [e] |}
              older e bp src dst d) as (t' & Hundo & Hrs & Hrd); try done.
  { intros E. apply Hne. by rewrite E. }
  { intros E. apply Habove. by left. }
  { intros E. apply Habove. by right. }
  assert (Hundone : undone = (UndoSuccessful (strip (f_artist f))
                                (strip (f_album_name f)),
                              {| disk := t';
                                 history := older ++ [set_undone e] |})).
  { unfold undone. rewrite Hsaved. simpl snd. rewrite Hundo.
    simpl history. rewrite mark_undone_last; [done|].
    intros y Hy. simpl. apply Hid. by apply Hold. }
  rewrite Hsaved, Hundone. simpl fst. simpl snd. simpl disk. simpl history.
  split; [done|]. split; [done|]. split; [done|].
  split; [by rewrite Hrs, Hsrc|]. split.
  - exists older, (set_undone e). by split_ands.
  - unfold undo. simpl history. rewrite get_last_undoable_None; [done|].
    intros y Hy. apply elem_of_app in Hy as [Hy|Hy].
    + by apply Hnone, Hold.
    + apply list_elem_of_singleton in Hy. by subst.
Qed.

(** The theorem applies to the move of P to R after three earlier
    actions. *)
Lemma round_trip_fresh_id_applies :
  let st := {| disk := library; history := append_all (deletions 3) [] |} in
  let saved := save (at_time "20240101_100000") move_P_to_R st in
  let undone := undo saved.2 in
  saved.1 = Saved "C" "R"
  ∧ undone.1 = UndoSuccessful "C" "R"
  ∧ disk undone.2 !! album_R = None
  ∧ disk undone.2 !! album_P = library !! album_P
  ∧ (undo undone.2).1 = NothingToUndo.
Proof.
  intros st saved undone.
  destruct (round_trip_fresh_id (at_time "20240101_100000") move_P_to_R st)
    as (H1 & H2 & H3 & H4 & _ & H6).
  - split; [vm_compute; reflexivity|].
    split; vm_compute; intros H; discriminate H.
  - vm_compute. reflexivity.
  - vm_compute. intros H. discriminate H.
  - intros [H|H].
    + vm_compute in H. discriminate H.
    + apply (bool_decide_eq_true_2 _) in H. vm_compute in H. discriminate H.
  - apply Forall_forall. apply (bool_decide_unpack _). vm_compute.
    reflexivity.
  - apply Forall_forall. apply (bool_decide_unpack _). vm_compute.
    reflexivity.
  - split; [exact H1|]. split; [exact H2|]. split; [exact H3|].
    split; [exact H4|exact H6].
Defined.

End RoundTrip.

(* ===================================================================== *)
(** * Further properties of the code *)
(* ===================================================================== *)

(** ** What the resolver returns *)

Section ResolverInvariants.
Import Resolver.

Lemma scan_recordings_from (sc : Q) (rs : list recording) (m : track_match) :
  scan_recordings sc rs = Some m →
  ∃ r, r ∈ rs ∧ try_recording sc r = Some m.
Proof.
  induction rs as [|r rs IH]; simpl; [discriminate|].
  destruct (try_recording sc r) as [m'|] eqn:E.
  - intros [= ->]. exists r. split; [by left|done].
  - intros H. destruct (IH H) as (r' & Hin & Hr'). exists r'.
    split; [by right|done].
Qed.

Lemma scan_results_from (gs : list result_group) (m : track_match) :
  scan_results gs = Some m →
  ∃ g r, g ∈ gs ∧ (MIN_CONFIDENCE <= score_of g)%Q ∧
         r ∈ recordings_of g ∧ try_recording (score_of g) r = Some m.
Proof.
  induction gs as [|g gs IH]; simpl; [discriminate|].
  assert (Hnext : scan_results gs = Some m →
    ∃ g0 r, g0 ∈ g :: gs ∧ (MIN_CONFIDENCE <= score_of g0)%Q ∧
            r ∈ recordings_of g0 ∧ try_recording (score_of g0) r = Some m).
  { intros H. destruct (IH H) as (g0 & r & Hin & Hrest).
    exists g0, r. split; [by right|done]. }
  destruct (Qltb (score_of g) MIN_CONFIDENCE) eqn:Hs; [exact Hnext|].
  destruct (res_recordings g) as [rs|] eqn:Er; [|exact Hnext].
  destruct (scan_recordings (score_of g) rs) as [m'|] eqn:Esr; [|exact Hnext].
  intros [= ->]. apply scan_recordings_from in Esr as (r & Hin & Hr).
  exists g, r. split; [by left|]. split; [by apply Qltb_ge|].
  split; [|done]. unfold recordings_of. by rewrite Er.
Qed.

Lemma take_length (n : nat) (s : string) :
  n ≤ String.length s → String.length (PyStr.take n s) = n.
Proof.
  revert s. induction n as [|n IH]; intros [|c s]; simpl; try lia.
  intros H. rewrite IH; lia.
Qed.

(** X1.  Whatever the service replies, a match the resolver returns has a
    score of at least 0.80, a title, an artist and an album that are not
    empty, and a year that is empty or has exactly four characters. *)
Theorem resolver_match_invariants (reply : lookup_reply) (m : track_match) :
  fingerprint_and_lookup reply = Some m →
  (MIN_CONFIDENCE <= score m)%Q
  ∧ title m ≠ "" ∧ artist m ≠ "" ∧ album m ≠ ""
  ∧ (year m = "" ∨ String.length (year m) = 4).
Proof.
  intros H.
  assert (Hs : ∃ gs, scan_results gs = Some m).
  { destruct reply as [|[[|g gs]|]]; simpl in H; try discriminate.
    by exists (g :: gs). }
  destruct Hs as [gs Hs].
  apply scan_results_from in Hs as (g & r & _ & Hsc & _ & Htry).
  unfold try_recording in Htry.
  destruct (rec_title r) as [t|]; [|discriminate].
  destruct (first_artist r) as [a|]; [|discriminate].
  destruct (PyStr.truthy t) eqn:Ht; [|discriminate].
  destruct (PyStr.truthy a) eqn:Ha; [|discriminate].
  simpl in Htry. unfold album_and_year in Htry.
  apply truthy_true in Ht, Ha.
  destruct (rec_releases r) as [[|rel rels]|]; injection Htry as <-; simpl;
    split_ands; try done; try (by left).
  - destruct (rel_title rel) as [[|c s]|]; simpl; done.
  - destruct (rel_date rel) as [d|]; [|by left].
    destruct d as [|c1 [|c2 [|c3 [|c4 d]]]]; simpl;
      first [by left | by right].
Qed.

Lemma resolver_match_invariants_witness :
  ∃ m, fingerprint_and_lookup (three_lookup "/cd/03.flac") = Some m
       ∧ (MIN_CONFIDENCE <= score m)%Q ∧ album m ≠ ""
       ∧ (year m = "" ∨ String.length (year m) = 4).
Proof.
  eexists. split; [reflexivity|].
  destruct (resolver_match_invariants (three_lookup "/cd/03.flac") _ eq_refl)
    as (H1 & _ & _ & H4 & H5).
  split; [exact H1|]. split; [exact H4|exact H5].
Defined.

End ResolverInvariants.

(** ** The checks of analyze_album *)

Section AnalyzeFacts.
Import Resolver Tagger.

(** The numbers, the artists and the years the loop records. *)
Lemma scan_step_tracks (lookup : string → lookup_reply) (dir : string)
    (acc : scan) (i : nat) (name : string) :
  ∃ t, track_info (scan_step lookup dir acc i name) = track_info acc ++ [t]
       ∧ t_track_num t = i ∧ t_path t = join dir name
       ∧ (t_identified t = true →
            ∃ a, t_artist t = Some a ∧ a ≠ ""
                 ∧ artists (scan_step lookup dir acc i name)
                   = artists acc ++ [a])
       ∧ (t_identified t = false →
            t_artist t = None
            ∧ artists (scan_step lookup dir acc i name) = artists acc).
Proof.
  unfold scan_step.
  destruct (fingerprint_and_lookup (lookup (join dir name))) as [m|] eqn:E.
  - eexists. split; [reflexivity|]. simpl. split_ands; try done.
    intros _. exists (artist m). split_ands; try done.
    assert (Hs : ∃ gs, scan_results gs = Some m).
    { destruct (lookup (join dir name)) as [|[[|g gs]|]]; simpl in E;
        try discriminate. by exists (g :: gs). }
    destruct Hs as [gs Hs].
    apply scan_results_from in Hs as (g & r & _ & _ & _ & Htry).
    unfold try_recording in Htry.
    destruct (rec_title r) as [t|]; [|discriminate].
    destruct (first_artist r) as [a|]; [|discriminate].
    destruct (PyStr.truthy t); [|discriminate].
    destruct (PyStr.truthy a) eqn:Ha; [|discriminate].
    simpl in Htry. destruct (album_and_year r). injection Htry as <-.
    simpl. by apply truthy_true.
  - eexists. split; [reflexivity|]. simpl. by split_ands.
Qed.

Lemma scan_from_tracks (lookup : string → lookup_reply) (dir : string)
    (names : list string) (acc : scan) (i : nat) :
  let s := scan_from lookup dir acc i names in
  t_track_num <$> track_info s
    = (t_track_num <$> track_info acc) ++ seq i (length names)
  ∧ t_path <$> track_info s
    = (t_path <$> track_info acc) ++ (join dir <$> names)
  ∧ (Forall (λ a, a ≠ "") (artists acc) → Forall (λ a, a ≠ "") (artists s)).
Proof.
  revert acc i. induction names as [|n names IH]; intros acc i; simpl.
  - rewrite !app_nil_r. by split_ands.
  - destruct (scan_step_tracks lookup dir acc i n)
      as (t & Ht & Hnum & Hpath & Hid & Hun).
    destruct (IH (scan_step lookup dir acc i n) (S i)) as (H1 & H2 & H3).
    rewrite H1, H2, Ht, !fmap_app, <- !app_assoc. simpl.
    rewrite Hnum, Hpath. split_ands; try done.
    intros Hacc. apply H3. destruct (t_identified t) eqn:Et.
    + destruct (Hid eq_refl) as (a & _ & Ha & ->).
      apply Forall_app. split; [done|]. by constructor.
    + destruct (Hun eq_refl) as (_ & ->). done.
Qed.

(** X2.  The order of the checks: no FLAC file, then too few identified
    tracks, which is the case exactly when ten times their number is below
    seven times the number of files; an album that passes is either
    rejected for want of consensus or accepted.  "No artists identified" is
    never the answer: an album with seven tenths of its tracks identified
    has an artist. *)
Theorem analyze_album_gates (lookup : string → lookup_reply)
    (dir : string) (names : list string) :
  let files := flac_names names in
  let s := scan_album lookup dir files in
  let identified := length (List.filter t_identified (track_info s)) in
  (files = [] → analyze_album lookup dir names = inl NoFlacFiles)
  ∧ (files ≠ [] → 10 * identified < 7 * length files →
       analyze_album lookup dir names
         = inl (InsufficientIdentification identified (length files)))
  ∧ (files ≠ [] → 7 * length files ≤ 10 * identified →
       (∃ q, analyze_album lookup dir names = inl (NoConsensus q))
       ∨ (∃ a, analyze_album lookup dir names = inr a))
  ∧ analyze_album lookup dir names ≠ inl NoArtists.
Proof.
  intros files s identified.
  destruct (scan_album_counts lookup dir files) as [Hlen _].
  fold s in Hlen. fold identified in Hlen.
  unfold analyze_album. fold files.
  destruct files as [|f fs] eqn:Ef; [by split_ands|].
  fold s. fold identified.
  assert (Hpos : 0 < length (f :: fs)) by (simpl; lia).
  change MIN_IDENTIFIED_RATIO with (70 # 100)%Q.
  destruct (Qltb (ratio identified (length (f :: fs))) (70 # 100)) eqn:Hr.
  - apply ratio_below in Hr; [|done]. split_ands; try done. intros _ ?. lia.
  - apply ratio_not_below in Hr; [|done].
    assert (Hart : artists s ≠ []).
    { intros E. rewrite E in Hlen. simpl in *. lia. }
    rewrite bool_decide_eq_false_2 by done.
    destruct (most_common_1_spec (artists s) Hart) as (p & -> & _).
    split; [done|]. split; [intros _ ?; lia|].
    destruct (Qltb _ MIN_CONSENSUS_RATIO); split; try done; intros _ _.
    + left. by eexists.
    + right. by eexists.
Qed.

(** Of fifteen files the service knows the ten of [ten_names] only. *)
Definition ten_of_fifteen_lookup (path : string) : lookup_reply :=
  if bool_decide (path ∈ (Tagger.join "/cd" <$> ten_names))
  then ten_lookup path else Reply (Some []).

Definition fifteen_names : list string :=
  ["11.flac"; "12.flac"; "13.flac"; "14.flac"; "15.flac"] ++ ten_names.

Lemma analyze_album_gates_witness :
  analyze_album ten_of_fifteen_lookup "/cd" fifteen_names
    = inl (InsufficientIdentification 10 15)
  ∧ ((∃ q, analyze_album ten_lookup "/cd" ten_names = inl (NoConsensus q))
     ∨ (∃ a, analyze_album ten_lookup "/cd" ten_names = inr a)).
Proof.
  split.
  - apply (proj1 (proj2 (analyze_album_gates ten_of_fifteen_lookup "/cd"
                           fifteen_names))).
    + vm_compute. intros H. discriminate H.
    + vm_compute. lia.
  - apply (proj1 (proj2 (proj2 (analyze_album_gates ten_lookup "/cd"
                                  ten_names)))).
    + vm_compute. intros H. discriminate H.
    + vm_compute. lia.
Defined.

End AnalyzeFacts.

Section AcceptedFacts.
Import Resolver Tagger.

(** A track without a year the loop of lines 165-168 would take. *)
Definition no_year (t : track) : Prop :=
  t_year t = None ∨ t_year t = Some "".

Lemma first_year_spec (ts : list track) :
  (first_year ts = "" ∧ Forall no_year ts)
  ∨ (first_year ts ≠ "" ∧
     ∃ before t after, ts = before ++ t :: after ∧ Forall no_year before
                       ∧ t_year t = Some (first_year ts)).
Proof.
  induction ts as [|t ts IH]; simpl; [by left|].
  destruct (t_year t) as [[|c y]|] eqn:E; simpl.
  - destruct IH as [[H1 H2]|(H1 & b & t' & a & -> & H2 & H3)].
    + left. split; [done|]. constructor; [by right|done].
    + right. split; [done|]. exists (t :: b), t', a.
      split_ands; [done| |done]. constructor; [by right|done].
  - right. split; [done|]. exists [], t, ts. by split_ands.
  - destruct IH as [[H1 H2]|(H1 & b & t' & a & -> & H2 & H3)].
    + left. split; [done|]. constructor; [by left|done].
    + right. split; [done|]. exists (t :: b), t', a.
      split_ands; [done| |done]. constructor; [by left|done].
Qed.

(** X3.  What an accepted album carries: the folder analysed; one track
    per FLAC file, numbered 1, 2, ... in the order of the sorted names and
    pointing at that file; the number of identified tracks, which is at
    least seven tenths of the tracks and at most all of them; a primary
    artist that is not empty; and a consensus ratio between 0.70 and 1. *)
Theorem analyze_album_accepted (lookup : string → lookup_reply)
    (dir : string) (names : list string) (a : analysis) :
  analyze_album lookup dir names = inr a →
  a_source_path a = dir
  ∧ a_total_tracks a = length (flac_names names)
  ∧ t_track_num <$> a_tracks a = seq 1 (a_total_tracks a)
  ∧ t_path <$> a_tracks a = (Tagger.join dir <$> flac_names names)
  ∧ a_identified_count a = length (List.filter t_identified (a_tracks a))
  ∧ a_identified_count a ≤ a_total_tracks a
  ∧ 7 * a_total_tracks a ≤ 10 * a_identified_count a
  ∧ 0 < a_identified_count a
  ∧ a_artist a ≠ ""
  ∧ (70 # 100 <= a_consensus_ratio a)%Q ∧ (a_consensus_ratio a <= 1)%Q.
Proof.
  unfold analyze_album.
  set (files := flac_names names). set (s := scan_album lookup dir files).
  set (identified := length (List.filter t_identified (track_info s))).
  destruct (scan_album_counts lookup dir files) as [Hlen Htot].
  fold s in Hlen, Htot. fold identified in Hlen.
  destruct (scan_from_tracks lookup dir files
              {| track_info := []; artists := []; albums := [] |} 1)
    as (Hnum & Hpath & Hne).
  fold (scan_album lookup dir files) in Hnum, Hpath, Hne. fold s in Hnum, Hpath, Hne.
  simpl in Hnum, Hpath, Hne. specialize (Hne ltac:(constructor)).
  destruct files as [|f fs] eqn:Ef; [discriminate|].
  assert (Hpos : 0 < length (f :: fs)) by (simpl; lia).
  change MIN_IDENTIFIED_RATIO with (70 # 100)%Q.
  destruct (Qltb (ratio identified (length (f :: fs))) (70 # 100)) eqn:Hr;
    [discriminate|].
  apply ratio_not_below in Hr; [|done].
  destruct (bool_decide (artists s = [])) eqn:Hb; [discriminate|].
  apply bool_decide_eq_false in Hb.
  destruct (most_common_1_spec (artists s) Hb) as (p & -> & Hp & Hmax & _).
  change MIN_CONSENSUS_RATIO with (70 # 100)%Q.
  destruct (Qltb (ratio (occ p (artists s)) (length (artists s))) (70 # 100))
    eqn:Hc; [discriminate|].
  intros [= <-].
  cbn [a_source_path a_total_tracks a_tracks a_identified_count a_artist
       a_consensus_ratio].
  assert (Hid : identified ≤ length (track_info s))
    by apply List.filter_length_le.
  split; [done|]. split; [done|]. split; [exact Hnum|]. split; [exact Hpath|].
  split; [done|]. simpl length in *.
  split; [lia|]. split; [exact Hr|]. split; [lia|].
  split; [|split].
  - eapply Forall_forall in Hne; [exact Hne|]. done.
  - by apply Qltb_ge.
  - apply ratio_le_1.
    + unfold occ. apply length_filter.
    + lia.
Qed.

Lemma analyze_album_accepted_witness :
  ∃ a, analyze_album ten_lookup "/cd" ten_names = inr a
       ∧ t_track_num <$> a_tracks a = seq 1 10
       ∧ a_identified_count a ≤ a_total_tracks a
       ∧ a_artist a ≠ "".
Proof.
  eexists. split; [vm_compute; reflexivity|].
  match goal with
  | |- context [a_tracks ?a] =>
      destruct (analyze_album_accepted ten_lookup "/cd" ten_names a)
        as (_ & H2 & H3 & _ & _ & H6 & _ & _ & H9 & _)
  end; [vm_compute; reflexivity|].
  split; [exact H3|]. split; [exact H6|exact H9].
Defined.

(** X4.  The year of an accepted album is the first year that is not
    empty, in the order of the tracks, and empty when no track has one: with
    the years "", "2001", "1998" in that order it is "2001". *)
Theorem analyze_album_year (lookup : string → lookup_reply)
    (dir : string) (names : list string) (a : analysis) :
  analyze_album lookup dir names = inr a →
  (a_year a = "" ∧ Forall no_year (a_tracks a))
  ∨ (a_year a ≠ "" ∧
     ∃ before t after, a_tracks a = before ++ t :: after
                       ∧ Forall no_year before
                       ∧ t_year t = Some (a_year a)).
Proof.
  intros H.
  assert (Hy : a_year a = first_year (a_tracks a)).
  { unfold analyze_album in H.
    destruct (flac_names names); [discriminate|].
    destruct (Qltb _ MIN_IDENTIFIED_RATIO); [discriminate|].
    destruct (bool_decide _); [discriminate|].
    destruct (most_common_1 _) as [[p n]|]; [|discriminate].
    destruct (Qltb _ MIN_CONSENSUS_RATIO); [discriminate|].
    by injection H as <-. }
  rewrite Hy. apply first_year_spec.
Qed.

(** Three tracks of one artist, released "", "2001" and "1998". *)
Definition years_lookup (path : string) : lookup_reply :=
  let rel d := Some {| rel_title := Some "Album"; rel_date := Some d |} in
  if bool_decide (path = "/cd/01.flac") then reply_of "A" (rel "")
  else if bool_decide (path = "/cd/02.flac") then reply_of "A" (rel "2001-05")
  else reply_of "A" (rel "1998").

Lemma analyze_album_year_witness :
  ∃ a, analyze_album years_lookup "/cd" three_names = inr a
       ∧ a_year a = "2001"
       ∧ ∃ before t after, a_tracks a = before ++ t :: after
                           ∧ Forall no_year before
                           ∧ t_year t = Some "2001".
Proof.
  eexists. split; [vm_compute; reflexivity|]. split; [reflexivity|].
  match goal with
  | |- context [a_tracks ?a] =>
      destruct (analyze_album_year years_lookup "/cd" three_names a)
        as [[H _]|[_ H]]
  end.
  - vm_compute. reflexivity.
  - discriminate H.
  - exact H.
Defined.

End AcceptedFacts.

(** ** The title of an unidentified track *)

Section FallbackTitle.
Import Resolver Tagger.

Lemma drop_app_length_string (x y : string) :
  PyStr.drop (String.length x) (x +:+ y) = y.
Proof. induction x as [|c x IH]; sapp; simpl; [by destruct y|exact IH]. Qed.

Lemma take_app_length_string (x y : string) :
  PyStr.take (String.length x) (x +:+ y) = x.
Proof. induction x as [|c x IH]; sapp; simpl; [by destruct y|by rewrite IH]. Qed.

Lemma endswith_app (x suf : string) : PyStr.endswith suf (x +:+ suf) = true.
Proof.
  unfold PyStr.endswith. rewrite length_app_string.
  apply andb_true_iff. split; [apply Nat.leb_le; lia|].
  replace (String.length x + String.length suf - String.length suf)
    with (String.length x) by lia.
  rewrite drop_app_length_string. apply String.eqb_refl.
Qed.

Lemma stem_flac (x : string) : x ≠ "" → stem (x +:+ ".flac") = x.
Proof.
  intros Hx. unfold stem. rewrite endswith_app, length_app_string.
  simpl String.length.
  replace (5 <? String.length x + 5) with true.
  - replace (String.length x + 5 - 5) with (String.length x) by lia.
    apply take_app_length_string.
  - symmetry. apply Nat.ltb_lt. destruct x; [done|simpl; lia].
Qed.

Lemma of_nat_02_length (i : nat) :
  (i < 100 → String.length (PyStr.of_nat_02 i) = 2)
  ∧ (100 ≤ i < 1000 → String.length (PyStr.of_nat_02 i) = 3).
Proof.
  assert (H : forallb (λ i, String.length (PyStr.of_nat_02 i)
                            =? (if i <? 100 then 2 else 3))
                (seq 0 1000) = true) by (vm_compute; reflexivity).
  rewrite forallb_forall in H.
  split; intros Hi.
  - specialize (H i). rewrite in_seq in H.
    specialize (H ltac:(lia)). apply Nat.eqb_eq in H.
    replace (i <? 100) with true in H
      by (symmetry; apply Nat.ltb_lt; lia). exact H.
  - specialize (H i). rewrite in_seq in H.
    specialize (H ltac:(lia)). apply Nat.eqb_eq in H.
    replace (i <? 100) with false in H
      by (symmetry; apply Nat.ltb_ge; lia). exact H.
Qed.

(** X5.  A file the service does not identify becomes a track that is
    not identified and has no artist.  Its title is the file name without
    ".flac"; when that starts with the two-digit number of the track and
    " - ", the five first characters are cut: "07 - Song.flac" as seventh
    file gives "Song".  From the hundredth file on the number has three
    digits and the cut leaves a blank before the rest. *)
Theorem unidentified_track_title (lookup : string → lookup_reply)
    (dir : string) (acc : scan) (i : nat) (name : string) :
  fingerprint_and_lookup (lookup (Tagger.join dir name)) = None →
  ∃ t, track_info (scan_step lookup dir acc i name) = track_info acc ++ [t]
       ∧ artists (scan_step lookup dir acc i name) = artists acc
       ∧ t_identified t = false ∧ t_artist t = None ∧ t_track_num t = i
       ∧ (PyStr.startswith (PyStr.of_nat_02 i +:+ " - ") (stem name) = false →
            t_title t = stem name)
       ∧ (∀ rest, name = PyStr.of_nat_02 i +:+ " - " +:+ rest +:+ ".flac" →
            (i < 100 → t_title t = rest)
            ∧ (100 ≤ i < 1000 → t_title t = " " +:+ rest)).
Proof.
  intros E. unfold scan_step. rewrite E.
  eexists. split; [reflexivity|]. cbn [artists t_identified t_artist
                                       t_track_num t_title].
  split_ands; try done.
  - by intros ->.
  - intros rest ->.
    assert (Hstem : stem (PyStr.of_nat_02 i +:+ " - " +:+ rest +:+ ".flac")
                    = (PyStr.of_nat_02 i +:+ " - ") +:+ rest).
    { rewrite <- (stem_flac ((PyStr.of_nat_02 i +:+ " - ") +:+ rest)).
      - by rewrite !string_app_assoc.
      - intros H. apply (f_equal String.length) in H.
        rewrite !length_app_string in H. simpl in H. lia. }
    rewrite Hstem. unfold PyStr.startswith. rewrite prefix_app.
    destruct (of_nat_02_length i) as [H2 H3]. split; intros Hi.
    + specialize (H2 Hi).
      destruct (PyStr.of_nat_02 i) as [|c1 [|c2 [|c3 p]]]; try discriminate H2.
      reflexivity.
    + specialize (H3 Hi).
      destruct (PyStr.of_nat_02 i) as [|c1 [|c2 [|c3 [|c4 p]]]];
        try discriminate H3.
      reflexivity.
Qed.

Lemma unidentified_track_title_witness :
  ∃ t, track_info (scan_step (λ _, LookupError) "/cd"
                     {| track_info := []; artists := []; albums := [] |}
                     7 "07 - Song.flac") = [t]
       ∧ t_title t = "Song" ∧ t_artist t = None.
Proof.
  destruct (unidentified_track_title (λ _, LookupError) "/cd"
              {| track_info := []; artists := []; albums := [] |}
              7 "07 - Song.flac" eq_refl)
    as (t & Ht & _ & _ & Ha & _ & _ & Hrest).
  exists t. split; [exact Ht|]. split; [|exact Ha].
  apply (Hrest "Song"); [reflexivity|lia].
Defined.

End FallbackTitle.

(** ** Sanitized names *)

Section SanitizeFacts.
Import PyStr App.

Fixpoint has_char (c : ascii) (s : string) : bool :=
  match s with
  | "" => false
  | String x r => Ascii.eqb x c || has_char c r
  end.

(** The characters [sanitize] replaces. *)
Definition forbidden : list ascii :=
  ["/"; "\"; ":"; "*"; "?"; double_quote; "<"; ">"; "|"]%char.

Lemma replace_char_removes (old new : ascii) (s : string) :
  old ≠ new → has_char old (replace_char old new s) = false.
Proof.
  intros Hne. induction s as [|x s IH]; [reflexivity|]. simpl. rewrite IH.
  destruct (Ascii.eqb x old) eqn:E; [|by rewrite E].
  rewrite orb_false_r. apply Ascii.eqb_neq. by intros ->.
Qed.

Lemma replace_char_absent (c old new : ascii) (s : string) :
  c ≠ new → has_char c s = false → has_char c (replace_char old new s) = false.
Proof.
  intros Hne. induction s as [|x s IH]; [reflexivity|]. simpl.
  intros H. apply orb_false_iff in H as [Hx Hs]. rewrite IH by done.
  destruct (Ascii.eqb x old); [|by rewrite Hx].
  rewrite orb_false_r. apply Ascii.eqb_neq. by intros ->.
Qed.

Lemma replace_char_id (old new : ascii) (s : string) :
  has_char old s = false → replace_char old new s = s.
Proof.
  induction s as [|x s IH]; [reflexivity|]. simpl.
  intros H. apply orb_false_iff in H as [Hx Hs]. by rewrite Hx, IH.
Qed.

Lemma has_char_lstrip (c : ascii) (s : string) :
  has_char c s = false → has_char c (lstrip s) = false.
Proof.
  induction s as [|x s IH]; [reflexivity|]. rewrite lstrip_cons.
  intros H. destruct (is_space x); [|exact H].
  simpl in H. apply orb_false_iff in H as [_ Hs]. by apply IH.
Qed.

Lemma has_char_rstrip (c : ascii) (s : string) :
  has_char c s = false → has_char c (rstrip s) = false.
Proof.
  induction s as [|x s IH]; [reflexivity|]. rewrite rstrip_cons.
  intros H. destruct (all_space (String x s)); [reflexivity|].
  simpl in *. apply orb_false_iff in H as [Hx Hs]. by rewrite Hx, IH.
Qed.

Lemma fold_replace_clean (cs : list ascii) (s : string) (c : ascii) :
  Forall (λ x, x ≠ "-"%char) cs → c ∈ cs →
  has_char c (fold_left (λ n x, replace_char x "-" n) cs s) = false.
Proof.
  induction cs as [|x cs IH] using rev_ind; intros Hcs Hin; [inversion Hin|].
  apply Forall_app in Hcs as [Hcs Hx]. rewrite Forall_singleton in Hx.
  rewrite fold_left_app. simpl.
  destruct (decide (c = x)) as [->|Hne].
  - by apply replace_char_removes.
  - apply elem_of_app in Hin as [Hin|Hin].
    + apply replace_char_absent; [|by apply IH].
      eapply Forall_forall in Hcs; [exact Hcs|done].
    + apply list_elem_of_singleton in Hin. done.
Qed.

Lemma fold_replace_id (cs : list ascii) (s : string) :
  (∀ c, c ∈ cs → has_char c s = false) →
  fold_left (λ n x, replace_char x "-" n) cs s = s.
Proof.
  revert s. induction cs as [|x cs IH]; intros s H; [reflexivity|].
  simpl. rewrite replace_char_id by (apply H; by left).
  apply IH. intros c Hc. apply H. by right.
Qed.

Lemma rstrip_idem (s : string) : rstrip (rstrip s) = rstrip s.
Proof.
  induction s as [|c s IH]; [reflexivity|]. rewrite rstrip_cons.
  destruct (all_space (String c s)) eqn:E; [reflexivity|].
  rewrite rstrip_cons, all_space_cons, all_space_rstrip, <- all_space_cons, E.
  by rewrite IH.
Qed.

Lemma strip_idem (s : string) : strip (strip s) = strip s.
Proof.
  assert (Hl : lstrip (strip s) = strip s).
  { destruct (strip s) as [|c r] eqn:E; [reflexivity|].
    apply strip_head in E. by rewrite lstrip_cons, E. }
  unfold strip at 1. rewrite Hl. unfold strip. apply rstrip_idem.
Qed.

Lemma forbidden_not_dash : Forall (λ x, x ≠ "-"%char) forbidden.
Proof. repeat constructor; discriminate. Qed.

(** X6.  [sanitize] gives a name that holds none of the nine characters
    it replaces (slash, backslash, colon, star, question mark, double
    quote, the two angle brackets and the bar) and neither starts nor ends
    with white space, and
    it leaves such a name as it is: sanitizing twice is sanitizing once.
    That holds for every input, the empty string included. *)
Theorem sanitize_clean_idempotent (name : string) :
  (∀ c, c ∈ forbidden → has_char c (sanitize name) = false)
  ∧ strip (sanitize name) = sanitize name
  ∧ sanitize (sanitize name) = sanitize name
  ∧ sanitize "" = "".
Proof.
  assert (Hclean : ∀ c, c ∈ forbidden → has_char c (sanitize name) = false).
  { intros c Hc. unfold sanitize, strip.
    apply has_char_rstrip, has_char_lstrip.
    apply (fold_replace_clean forbidden); [apply forbidden_not_dash|done]. }
  split; [exact Hclean|]. split; [apply strip_idem|]. split; [|reflexivity].
  unfold sanitize at 1. fold forbidden.
  rewrite (fold_replace_id forbidden) by exact Hclean.
  apply strip_idem.
Qed.

(** X7.  [sanitize_filename] of the command-line tagger does the same on
    a string and turns a missing name into the word Unknown; in both cases the
    result holds none of the nine characters, a path separator in
    particular. *)
Theorem sanitize_filename_clean (name : option string) :
  Cli.sanitize_filename None = "Unknown"
  ∧ (∀ s, Cli.sanitize_filename (Some s) = sanitize s)
  ∧ (∀ c, c ∈ forbidden → has_char c (Cli.sanitize_filename name) = false)
  ∧ Path.has_slash (Cli.sanitize_filename name) = false.
Proof.
  split; [reflexivity|]. split; [reflexivity|].
  assert (H : ∀ c, c ∈ forbidden →
                   has_char c (Cli.sanitize_filename name) = false).
  { intros c Hc. destruct name as [s|].
    - unfold Cli.sanitize_filename, strip.
      apply has_char_rstrip, has_char_lstrip.
      apply (fold_replace_clean forbidden); [apply forbidden_not_dash|done].
    - revert c Hc. apply Forall_forall. by repeat constructor. }
  split; [exact H|].
  destruct name as [s|]; [apply has_slash_sanitize|reflexivity].
Qed.

End SanitizeFacts.

(** ** File names of the tracks *)

Section Naming.
Import PyStr Path Fs App Tagger.

Lemma string_of_uint_no_space (d : Decimal.uint) :
  has_char " " (NilEmpty.string_of_uint d) = false.
Proof. induction d; simpl; done. Qed.

Lemma string_of_uint_inj (d d' : Decimal.uint) :
  NilEmpty.string_of_uint d = NilEmpty.string_of_uint d' → d = d'.
Proof.
  intros H. apply (f_equal NilEmpty.uint_of_string) in H.
  rewrite !NilEmpty.usu in H. by injection H.
Qed.

Lemma of_nat_inj (i j : nat) : of_nat i = of_nat j → i = j.
Proof.
  intros H. by apply DecimalNat.Unsigned.to_uint_inj, string_of_uint_inj.
Qed.

(** [str(n)] has no leading zero, unless it is the one digit of zero. *)
Lemma of_nat_leading_zero (n : nat) (r : string) :
  of_nat n = String "0" r → r = "".
Proof.
  unfold of_nat. intros H.
  assert (Hn : Nat.to_uint n = Decimal.unorm (Nat.to_uint n)).
  { rewrite <- DecimalNat.Unsigned.to_of.
    by rewrite DecimalNat.Unsigned.of_to. }
  destruct (Nat.to_uint n) as [|d'| | | | | | | | |] eqn:E;
    simpl in H; try discriminate H.
  injection H as <-.
  unfold Decimal.unorm in Hn. simpl Decimal.nzhead in Hn.
  destruct (Decimal.nzhead d') eqn:Ez;
    try (exfalso; revert Ez; rewrite <- Hn;
         apply DecimalFacts.nzhead_nonzero).
  by injection Hn as ->.
Qed.

Lemma of_nat_02_inj (i j : nat) : of_nat_02 i = of_nat_02 j → i = j.
Proof.
  unfold of_nat_02. cbv zeta.
  destruct (String.length (of_nat i) <? 2) eqn:Ei;
    destruct (String.length (of_nat j) <? 2) eqn:Ej; intros H.
  - sapp_in H. injection H as H. by apply of_nat_inj.
  - sapp_in H. symmetry in H. pose proof (of_nat_leading_zero _ _ H) as H0.
    rewrite H0 in H. rewrite H in Ej. discriminate Ej.
  - sapp_in H. pose proof (of_nat_leading_zero _ _ H) as H0.
    rewrite H0 in H. rewrite H in Ei. discriminate Ei.
  - by apply of_nat_inj.
Qed.

Lemma of_nat_02_no_space (i : nat) : has_char " " (of_nat_02 i) = false.
Proof.
  unfold of_nat_02, of_nat. cbv zeta.
  destruct (_ <? 2); [sapp; simpl|]; apply string_of_uint_no_space.
Qed.

Lemma cut_at_space (a b x y : string) :
  has_char " " a = false → has_char " " b = false →
  a +:+ String " " x = b +:+ String " " y → a = b.
Proof.
  revert b. induction a as [|c a IH]; intros [|c' b] Ha Hb H; sapp_in H.
  - done.
  - injection H as <- _. simpl in Hb. discriminate Hb.
  - injection H as -> _. simpl in Ha. discriminate Ha.
  - injection H as -> H. simpl in Ha, Hb.
    apply orb_false_iff in Ha as [_ Ha]. apply orb_false_iff in Hb as [_ Hb].
    f_equal. by apply IH.
Qed.

(** A name that starts with the padded number, a space and more, gives
    the number back. *)
Lemma numbered_inj (i j : nat) (x y : string) :
  of_nat_02 i +:+ " - " +:+ x = of_nat_02 j +:+ " - " +:+ y → i = j.
Proof.
  intros H. apply of_nat_02_inj.
  apply (cut_at_space _ _ ("- " +:+ x) ("- " +:+ y));
    [apply of_nat_02_no_space|apply of_nat_02_no_space|exact H].
Qed.

Lemma new_file_name_inj (artist artist' : string) (i j : nat)
    (ta tt ta' tt' : string) :
  new_file_name artist i ta tt = new_file_name artist' j ta' tt' → i = j.
Proof.
  unfold new_file_name.
  destruct (_ && _); destruct (_ && _); apply numbered_inj.
Qed.

(** X8.  Two tracks with different numbers never get the same file name,
    whatever their artists and titles: the name starts with the number,
    padded to two digits, and the first space ends it.  This holds for the
    names [save] gives and for those of the command-line tagger. *)
Theorem file_names_distinct (i j : nat) :
  i ≠ j →
  (∀ artist artist' ta tt ta' tt',
     new_file_name artist i ta tt ≠ new_file_name artist' j ta' tt')
  ∧ (∀ t t', t_track_num t = i → t_track_num t' = j →
             Cli.new_filename t ≠ Cli.new_filename t').
Proof.
  intros Hne. split.
  - intros artist artist' ta tt ta' tt' H. by apply new_file_name_inj in H.
  - intros t t' <- <- H. unfold Cli.new_filename in H.
    by apply numbered_inj in H.
Qed.

Lemma file_names_distinct_witness :
  new_file_name "Various Artists" 7 "A" "One"
    ≠ new_file_name "Various Artists" 123 "A" "One"
  ∧ new_file_name "B" 1 "B" "" ≠ new_file_name "B" 10 "B" "".
Proof.
  split; apply (file_names_distinct _ _); lia.
Defined.

End Naming.

(** ** What a move carries to the destination *)

Section Carried.
Import PyStr Path Fs App Tagger.

Variables (f : form) (artist album_name : string) (total : nat).

(** The name and the content [save_track] gives the [i]-th file. *)
Definition target (i : nat) : string :=
  let '(track_artist, track_title) := track_identity artist i (f_track f i) in
  new_file_name artist i track_artist track_title.

Definition retagged (fl : file) (i : nat) : file :=
  let '(track_artist, track_title) := track_identity artist i (f_track f i) in
  retag fl (f_art_data f) track_artist artist album_name track_title i total
    (is_compilation artist)
    (strip (f_year f)) (strip (f_genre f))
    (strip (f_disc_number f)) (strip (f_disc_total f)).

Lemma target_inj (i j : nat) : target i = target j → i = j.
Proof.
  unfold target.
  destruct (track_identity artist i _) as [a b].
  destruct (track_identity artist j _) as [a' b'].
  apply new_file_name_inj.
Qed.

(** The loop of [save] on a move: the listing of the destination gets the
    files under their new names, and nothing else in it changes. *)
Lemma save_tracks_listing (src dst : string) (names : list string)
    (t : tree) (i : nat) (ds dd : dir) :
  src ≠ dst →
  t !! src = Some ds →
  t !! dst = Some dd →
  NoDup names →
  (∀ x, x ∈ names → is_Some (ds !! x)) →
  ∃ t' dd',
    save_tracks f artist album_name src dst false total t i names = Some t'
    ∧ t' !! dst = Some dd'
    ∧ (∀ k name fl, names !! k = Some name → ds !! name = Some fl →
                    dd' !! target (i + k) = Some (retagged fl (i + k)))
    ∧ (∀ n, (∀ k, k < length names → n ≠ target (i + k)) →
            dd' !! n = dd !! n).
Proof.
  intros Hne. revert t i ds dd.
  induction names as [|name names IH]; intros t i ds dd Hsrc Hdst Hnd Hin.
  - exists t, dd. split; [done|]. split; [done|]. split; [|done].
    intros k name fl H. by rewrite lookup_nil in H.
  - apply NoDup_cons in Hnd as [Hname Hnd].
    destruct (Hin name ltac:(left)) as [fl Hfl].
    simpl save_tracks. unfold save_track.
    assert (Ht : target i = let '(a, b) := track_identity artist i (f_track f i)
                            in new_file_name artist i a b) by reflexivity.
    assert (Hr : ∀ x, retagged x i
                 = let '(a, b) := track_identity artist i (f_track f i) in
                   retag x (f_art_data f) a artist album_name b i total
                     (is_compilation artist)
                     (strip (f_year f)) (strip (f_genre f))
                     (strip (f_disc_number f)) (strip (f_disc_total f)))
      by reflexivity.
    destruct (track_identity artist i (f_track f i)) as [ta tt].
    rewrite Hsrc, Hfl. unfold move_file.
    rewrite lookup_insert_eq, lookup_insert_eq.
    rewrite lookup_insert_ne by done.
    rewrite lookup_insert_ne by done. rewrite Hdst.
    rewrite <- Ht, <- Hr. clear Ht Hr.
    match goal with
    | |- context [save_tracks _ _ _ _ _ _ _ ?t1 _ _] => set (t1' := t1)
    end.
    destruct (IH t1' (S i) (delete name ds)
                (<[target i := retagged fl i]> dd))
      as (t' & dd' & Hrun & Hd & Hall & Hrest).
    + unfold t1'. rewrite lookup_insert_ne by done.
      rewrite lookup_insert_eq. f_equal. apply delete_insert_eq.
    + unfold t1'. by rewrite lookup_insert_eq.
    + done.
    + intros x Hx. rewrite lookup_delete_ne.
      * apply Hin. by right.
      * intros ->. done.
    + exists t', dd'. rewrite Hrun. split; [done|]. split; [done|]. split.
      * intros [|k] nm fl' Hk Hfl'.
        -- simpl in Hk. injection Hk as <-. rewrite Hfl in Hfl'.
           injection Hfl' as <-. rewrite Nat.add_0_r.
           rewrite Hrest; [apply lookup_insert_eq|].
           intros k _ E. apply target_inj in E. lia.
        -- simpl in Hk. replace (i + S k) with (S i + k) by lia.
           apply (Hall k nm fl'); [done|]. rewrite lookup_delete_ne; [done|].
           intros ->. apply Hname. by eapply list_elem_of_lookup_2.
      * intros n Hn. rewrite Hrest.
        -- rewrite lookup_insert_ne; [done|]. intros E.
           apply (Hn 0); [simpl; lia|]. by rewrite Nat.add_0_r.
        -- intros k Hk. replace (S i + k) with (i + S k) by lia.
           apply Hn. simpl. lia.
Qed.

End Carried.

Section CarriedBySave.
Import PyStr Path Fs App Tagger.

Lemma mkdir_empty (q : string) (t : tree) (k : string) :
  t !! k = None ∨ t !! k = Some ∅ →
  mkdir_if_missing q t !! k = None ∨ mkdir_if_missing q t !! k = Some ∅.
Proof.
  intros H. unfold mkdir_if_missing. destruct (t !! q) eqn:E; [done|].
  destruct (decide (q = k)) as [->|Hne].
  - right. apply lookup_insert_eq.
  - by rewrite lookup_insert_ne.
Qed.

Lemma makedirs_fresh (p : string) (t : tree) :
  t !! p = None → makedirs p t !! p = Some ∅.
Proof.
  intros H. unfold makedirs.
  assert (Hf : ∀ qs t0, t0 !! p = None ∨ t0 !! p = Some ∅ →
             fold_left (λ t q, mkdir_if_missing q t) qs t0 !! p = None
             ∨ fold_left (λ t q, mkdir_if_missing q t) qs t0 !! p = Some ∅).
  { induction qs as [|q qs IH]; intros t0 H0; [done|].
    simpl. by apply IH, mkdir_empty. }
  pose proof (Hf (ancestors p) t (or_introl H)) as E.
  revert E. generalize (fold_left (λ t q, mkdir_if_missing q t)
                          (ancestors p) t).
  intros t0 E. unfold mkdir_if_missing.
  destruct E as [E|E]; rewrite E; [apply lookup_insert_eq|done].
Qed.

(** X9.  A move by [save] of a flat album of the library to a place that
    is free (see [plain_move]: in particular nothing is at the destination
    and the destination is not below the source) carries the FLAC files of
    the source and nothing else: the [k]-th of them, in the order of their
    names, is in the destination under the name made of its number and its
    title, with the new tags and the audio it had; the destination holds no
    other file, so what is not a FLAC file (a cover image, a log) does not
    arrive. *)
Theorem save_carries_flac_files (clk : clock) (f : form) (st : state)
    (d : dir) :
  disk st !! request_folder f = Some d →
  strip (f_artist f) ≠ "" → strip (f_album_name f) ≠ "" →
  plain_move f (disk st) = true →
  normpath (request_dest f) ≠ normpath (request_folder f) →
  request_dest f ≠ dirname (request_folder f) →
  let artist := strip (f_artist f) in
  let album_name := strip (f_album_name f) in
  let names := flac_names (map fst (map_to_list d)) in
  ∃ t h dd,
    save clk f st = (Saved artist album_name, {| disk := t; history := h |})
    ∧ t !! request_dest f = Some dd
    ∧ (∀ k name fl,
         names !! k = Some name → d !! name = Some fl →
         dd !! target f artist (S k)
           = Some (retagged f artist album_name (length names) fl (S k)))
    ∧ (∀ n, is_Some (dd !! n) →
            ∃ k, k < length names ∧ n = target f artist (S k)).
Proof.
  intros Hsrc Ha Hb Hpm Hne Hpar artist album_name names.
  pose proof (plain_move_fresh _ _ Hpm) as Hfresh. clear Hpm.
  set (src := request_folder f) in *. set (dst := request_dest f) in *.
  set (bp := backup_path_of (backup_stamp clk) src) in *.
  destruct (create_backup_spec (backup_stamp clk) _ _ _ Hsrc)
    as (Hbp & Hnew & Hkeep & _).
  fold bp in Hbp, Hnew, Hkeep.
  destruct (new_dir_not_backup (strip (f_artist f)) (strip (f_album_name f))
              (backup_stamp clk) src) as [Hn1 Hn2].
  fold (request_dest f) in Hn1, Hn2. fold dst bp in Hn1, Hn2.
  assert (Hsb : src ≠ bp).
  { intros E. symmetry in E. by apply backup_path_not_source in E. }
  assert (Hsd : src ≠ dst) by (intros E; apply Hne; by rewrite E).
  unfold save. fold (request_folder f). fold src.
  assert (Hex : exists_dir src (disk st) = true)
    by (apply exists_dir_true; by rewrite Hsrc).
  rewrite Hex. simpl negb. cbv iota.
  apply truthy_true in Ha, Hb. rewrite Ha, Hb. simpl orb. cbv iota.
  fold (request_dest f). fold dst.
  destruct (create_backup (backup_stamp clk) src (disk st)) as [bp' t1] eqn:Ecb.
  simpl in Hbp, Hnew, Hkeep. subst bp'.
  assert (H1s : t1 !! src = Some d).
  { rewrite Hkeep; [done|done|]. apply source_not_old_backup. }
  assert (H1d : t1 !! dst = None) by (rewrite Hkeep; done).
  rewrite H1s.
  replace (String.eqb (normpath dst) (normpath src)) with false
    by (symmetry; by apply String.eqb_neq).
  replace (exists_dir dst t1) with false
    by (symmetry; by apply exists_dir_false).
  simpl andb. cbv iota.
  destruct (listing_flac_names d) as [Hnd Hin].
  fold names in Hnd, Hin. fold names. fold artist album_name.
  destruct (save_tracks_listing f artist album_name (length names)
              src dst names (makedirs dst t1) 1 d ∅)
    as (t3 & dd & Hrun & H3d & Hall & Hrest); try done.
  { by apply makedirs_keep. }
  { by apply makedirs_fresh. }
  rewrite Hrun.
  destruct (add_history_entry _ _ _) as [e h].
  eexists _, h, dd. split; [reflexivity|].
  split; [|split].
  - unfold remove_folder, rmtree.
    rewrite remove_empty_parent_other by done.
    destruct (exists_dir src t3); [by rewrite lookup_delete_ne|done].
  - intros k name fl Hk Hfl. by apply (Hall k name fl).
  - intros n Hn.
    destruct (decide (Exists (λ k, n = target f artist (S k))
                        (seq 0 (length names)))) as [Hyes|Hno].
    + apply Exists_exists in Hyes as (k & Hk & E).
      apply elem_of_seq in Hk. exists k. split; [lia|done].
    + rewrite Hrest in Hn.
      * rewrite lookup_empty in Hn. by destruct Hn.
      * intros k Hk E. apply Hno, Exists_exists. exists k.
        split; [apply elem_of_seq; lia|done].
Qed.

End CarriedBySave.

Section CarriedRun.
Import PyStr Path Fs App Tagger.

(** A ripped album with two tracks and a cover image beside them. *)
Definition ripped : dir :=
  {[ "b.flac" := Flac [("TITLE", "x")] [] "audio-b";
     "a.flac" := Flac [] [] "audio-a";
     "cover.jpg" := Blob "jpeg" ]}.

Definition ripped_path : string := "/home/arm/music/Unknown Artist/rip1".

Definition ripped_disk : tree :=
  <[ripped_path := ripped]> (<["/home/arm/music" := ∅]> ∅).

Definition file_ripped : form :=
  {| f_original_path := ""; f_is_existing := false; f_folder := "rip1";
     f_artist := "C"; f_album_name := "R";
     f_year := "1999"; f_genre := ""; f_disc_number := ""; f_disc_total := "";
     f_track := λ i, if i =? 1 then "One" else "";
     f_art_data := None |}.

Lemma save_carries_flac_files_witness :
  ∃ t h dd,
    save (at_time "20240101_100000") file_ripped
         {| disk := ripped_disk; history := [] |}
      = (Saved "C" "R", {| disk := t; history := h |})
    ∧ t !! album_R = Some dd
    ∧ dd !! "01 - One.flac"
        = Some (Flac [("ARTIST", "C"); ("ALBUMARTIST", "C"); ("ALBUM", "R");
                      ("TITLE", "One"); ("TRACKNUMBER", "1");
                      ("TRACKTOTAL", "2"); ("DATE", "1999")] [] "audio-a")
    ∧ dd !! "02 - Track 2.flac"
        = Some (Flac [("ARTIST", "C"); ("ALBUMARTIST", "C"); ("ALBUM", "R");
                      ("TITLE", "Track 2"); ("TRACKNUMBER", "2");
                      ("TRACKTOTAL", "2"); ("DATE", "1999")] [] "audio-b")
    ∧ dd !! "cover.jpg" = None.
Proof.
  destruct (save_carries_flac_files (at_time "20240101_100000") file_ripped
              {| disk := ripped_disk; history := [] |} ripped)
    as (t & h & dd & Hsave & Hdst & Hall & Hother).
  - vm_compute. reflexivity.
  - vm_compute. intros H. discriminate H.
  - vm_compute. intros H. discriminate H.
  - vm_compute. reflexivity.
  - vm_compute. intros H. discriminate H.
  - vm_compute. intros H. discriminate H.
  - exists t, h, dd. split; [exact Hsave|]. split; [exact Hdst|].
    split; [|split].
    + apply (Hall 0 "a.flac" (Flac [] [] "audio-a"));
        vm_compute; reflexivity.
    + apply (Hall 1 "b.flac" (Flac [("TITLE", "x")] [] "audio-b"));
        vm_compute; reflexivity.
    + destruct (dd !! "cover.jpg") as [x|] eqn:E; [|reflexivity].
      destruct (Hother "cover.jpg") as (k & Hk & Hn); [by rewrite E|].
      exfalso. change (length _) with 2 in Hk.
      destruct k as [|[|k]]; [| |lia]; vm_compute in Hn; discriminate Hn.
Defined.

End CarriedRun.

(** ** Titles between the editor and [save] *)

Section EditorFacts.
Import PyStr Path Fs App Tagger Editor.

Lemma has_char_app (c : ascii) (a b : string) :
  has_char c (a +:+ b) = has_char c a || has_char c b.
Proof.
  induction a as [|x a IH]; sapp; [reflexivity|].
  simpl. by rewrite IH, orb_assoc.
Qed.

Lemma has_char_take_drop (c : ascii) (n : nat) (s : string) :
  has_char c s = has_char c (take n s) || has_char c (drop n s).
Proof.
  revert s. induction n as [|n IH]; intros [|x s]; try reflexivity.
  simpl. by rewrite (IH s), orb_assoc.
Qed.

Lemma lower_char_dash (c : ascii) : lower_char c = "-"%char → c = "-"%char.
Proof.
  intros H. destruct (decide (c = "-"%char)) as [|Hne]; [done|exfalso].
  revert H. unfold lower_char. cbv zeta.
  destruct (_ || _) eqn:E; [|done].
  intros H. apply (f_equal nat_of_ascii) in H.
  change (nat_of_ascii "-") with 45 in H.
  assert (Hb : 65 ≤ nat_of_ascii c ≤ 222).
  { apply orb_true_iff in E as [E|E].
    - apply andb_true_iff in E as [E1 E2].
      apply Nat.leb_le in E1, E2. lia.
    - apply andb_true_iff in E as [E _]. apply andb_true_iff in E as [E1 E2].
      apply Nat.leb_le in E1, E2. lia. }
  rewrite nat_ascii_embedding in H by lia. lia.
Qed.

Lemma prefix_cons (a b : ascii) (p s : string) :
  String.prefix (String a p) (String b s)
  = if ascii_dec a b then String.prefix p s else false.
Proof. reflexivity. Qed.

(** A prefix found after lowering, when it holds no dash, covers no dash
    of the string. *)
Lemma lower_prefix_no_dash (p s : string) :
  has_char "-" p = false →
  String.prefix p (lower s) = true →
  has_char "-" (take (String.length p) s) = false.
Proof.
  revert s. induction p as [|a p IH]; intros s Hp H; [reflexivity|].
  destruct s as [|c s]; [discriminate H|].
  simpl lower in H. rewrite prefix_cons in H.
  destruct (ascii_dec a (lower_char c)) as [->|]; [|discriminate H].
  simpl in Hp. apply orb_false_iff in Hp as [Hc Hp].
  simpl. rewrite (IH s Hp H), orb_false_r.
  apply Ascii.eqb_neq. intros ->. by rewrite Ascii.eqb_refl in Hc.
Qed.

Lemma all_digits_no_dash (s : string) :
  all_digits s = true → has_char "-" s = false.
Proof.
  induction s as [|c s IH]; [reflexivity|]. simpl.
  intros H. apply andb_true_iff in H as [Hc Hs]. rewrite (IH Hs), orb_false_r.
  apply Ascii.eqb_neq. intros ->. discriminate Hc.
Qed.

Lemma placeholder_no_dash (s : string) :
  placeholder s = true → has_char "-" s = false.
Proof.
  unfold placeholder, isdigit, startswith. intros H.
  apply andb_true_iff in H as [Hp Hd]. apply andb_true_iff in Hd as [_ Hd].
  rewrite (has_char_take_drop _ 6).
  pose proof (lower_prefix_no_dash "track " s eq_refl Hp) as Ht.
  change (String.length "track ") with 6 in Ht. rewrite Ht.
  by apply all_digits_no_dash.
Qed.

Lemma all_digits_uint (d : Decimal.uint) :
  all_digits (NilEmpty.string_of_uint d) = true.
Proof. induction d; simpl; done. Qed.

Lemma truthy_of_nat (i : nat) : truthy (of_nat i) = true.
Proof.
  unfold of_nat.
  destruct (Nat.to_uint i) eqn:E; try reflexivity.
  exfalso. pose proof (f_equal Nat.of_uint E) as E0.
  rewrite DecimalNat.Unsigned.of_to in E0. simpl in E0. subst i.
  discriminate E.
Qed.

(** The positional default of [save] is a title the editor hides. *)
Lemma placeholder_default (i : nat) :
  placeholder ("Track " +:+ of_nat i) = true.
Proof.
  unfold placeholder, isdigit.
  apply andb_true_iff. split;
    [exact (prefix_app "track " (lower (of_nat i)))|].
  change (drop 6 _) with (of_nat i). rewrite truthy_of_nat.
  apply all_digits_uint.
Qed.

Lemma all_space_app (a b : string) :
  all_space (a +:+ b) = all_space a && all_space b.
Proof.
  induction a as [|x a IH]; sapp; [reflexivity|].
  rewrite !all_space_cons, IH. by rewrite andb_assoc.
Qed.

Lemma rstrip_app (a b : string) :
  all_space b = false → rstrip (a +:+ b) = a +:+ rstrip b.
Proof.
  intros Hb. induction a as [|x a IH]; sapp; [reflexivity|].
  rewrite rstrip_cons, all_space_cons, all_space_app, Hb.
  rewrite !andb_false_r. by rewrite IH.
Qed.

(** A string that [strip] leaves as it is, and is not empty. *)
Definition trimmed (s : string) : Prop := strip s = s ∧ s ≠ "".

Lemma trimmed_rstrip (s : string) :
  trimmed s → rstrip s = s ∧ all_space s = false.
Proof.
  intros [Hs Hne]. split.
  - rewrite <- Hs at 1. unfold strip. rewrite rstrip_idem. exact Hs.
  - destruct (all_space s) eqn:E; [|reflexivity].
    apply strip_blank in E. congruence.
Qed.

Lemma strip_joined (a b : string) :
  trimmed a → trimmed b → strip (a +:+ " - " +:+ b) = a +:+ " - " +:+ b.
Proof.
  intros Ha Hb. destruct (trimmed_rstrip b Hb) as [Hrb Hsb].
  destruct Ha as [Ha Hane]. destruct a as [|c a]; [done|].
  apply strip_head in Ha. unfold strip. sapp. rewrite lstrip_cons, Ha.
  rewrite <- app_cons.
  rewrite rstrip_app.
  - f_equal. change (rstrip (" - " +:+ b) = " - " +:+ b).
    rewrite (rstrip_app " - " b Hsb). by rewrite Hrb.
  - change (all_space (" - " +:+ b) = false).
    rewrite all_space_app, Hsb. apply andb_false_r.
Qed.

Lemma string_app_prefix (x y x' y' : string) :
  x +:+ y = x' +:+ y' → String.length x ≤ String.length x' →
  ∃ z, x' = x +:+ z ∧ y = z +:+ y'.
Proof.
  revert x'. induction x as [|c x IH]; intros x' H Hl.
  - exists x'. by sapp.
  - destruct x' as [|c' x']; [simpl in Hl; lia|].
    sapp_in H. injection H as -> H.
    destruct (IH x' H) as (z & -> & ->); [simpl in Hl; lia|].
    exists z. by sapp.
Qed.

(** The separator is found where the two parts were joined, when it does
    not occur earlier. *)
Lemma split_once_joined (a b : string) :
  ¬ occurs " - " (a +:+ " -") →
  split_once " - " (a +:+ " - " +:+ b) = Some (a, b).
Proof.
  intros Hno.
  assert (Hc : contains " - " (a +:+ " - " +:+ b) = true)
    by (apply contains_occurs; by exists a, b).
  apply contains_split in Hc as (a' & b' & Hs). rewrite Hs.
  pose proof (split_once_app _ _ _ _ Hs) as Happ.
  pose proof (split_once_first _ _ _ _ Hs a b eq_refl) as Hlen.
  symmetry in Happ.
  destruct (string_app_prefix _ _ _ _ Happ Hlen) as (z & Ha & Hb).
  destruct z as [|c z].
  - sapp_in Hb. rewrite Ha. sapp_in Ha.
    assert (E : b' = b).
    { clear -Hb. sapp_in Hb. by injection Hb. }
    rewrite E. f_equal. f_equal. clear. induction a' as [|x a' IH]; sapp;
      [reflexivity|by rewrite <- IH].
  - exfalso. apply Hno. rewrite Ha.
    assert (Hz : ∃ w, String c z +:+ " -" = " - " +:+ w).
    { destruct (string_app_prefix " - " b' (String c z +:+ " -")
                  (" " +:+ b)) as (w & Hw & _).
      - rewrite Hb. rewrite !string_app_assoc. by sapp.
      - rewrite length_app_string. simpl. lia.
      - by exists w. }
    destruct Hz as [w Hw]. exists a', w.
    rewrite string_app_assoc, Hw. reflexivity.
Qed.

(** X10.  The title [Artist - Title] of a compilation track survives the
    cycle of saving and editing, as far as the track artist and the title
    go.  When the album artist is a compilation artist for [save], and the
    track artist and the title are trimmed, not empty, the artist is not the
    album artist and no separator occurs before the one that joins them:
    [save] stores the two in the tags ARTIST and TITLE, the editor shows the
    file as [Artist - Title] again (for the first file, or when the album
    artist it read is the same), does not take it for a placeholder, and the
    next [save] splits it into the same artist and title under whatever
    album artist it is given that is a compilation artist: the one stored,
    or the words Various Artists, which the editor shows as album artist in
    place of a stored name that is not one of its five.  (With that other
    album artist the next [save] does not reproduce the tag ALBUMARTIST nor
    the folder.) *)
Theorem compilation_title_round_trip (artist ta tt album_name : string)
    (i total : nat) (fl : file) (name : string) (lv : album_level)
    (art : option string) (year genre dn dt : string) :
  is_compilation artist = true →
  artist ≠ "" →
  trimmed ta → trimmed tt → ta ≠ artist →
  ¬ occurs " - " (ta +:+ " -") →
  (∃ tags pictures audio, fl = Flac tags pictures audio) →
  i = 1 ∨ lv_artist lv = artist →
  let joined := ta +:+ " - " +:+ tt in
  track_identity artist i joined = (ta, tt)
  ∧ (read_track i name
       (Some (retag fl art ta artist album_name tt i total
                (is_compilation artist) year genre dn dt)) lv).2 = joined
  ∧ placeholder joined = false
  ∧ (∀ shown j, is_compilation shown = true →
                track_identity shown j joined = (ta, tt))
  ∧ is_compilation "Various Artists" = true.
Proof.
  intros Hc Hart Hta Htt Hne Hno (tags & pictures & audio & ->) Hlv joined.
  assert (Hsplit : ∀ shown j, is_compilation shown = true →
                              track_identity shown j joined = (ta, tt)).
  { intros shown j Hs'. unfold track_identity. cbv zeta. fold joined.
    assert (Hs : strip joined = joined) by (by apply strip_joined).
    rewrite Hs.
    assert (Ht : truthy joined = true).
    { destruct Hta as [_ Hta']. unfold joined.
      destruct ta; [done|]. by sapp. }
    rewrite Ht, Hs'. simpl andb.
    assert (Hin : contains " - " joined = true)
      by (apply contains_occurs; by exists ta, tt).
    rewrite Hin. unfold joined. rewrite split_once_joined by done.
    destruct Hta as [-> Hta'], Htt as [-> Htt'].
    apply truthy_true in Hta', Htt'. by rewrite Hta', Htt'. }
  split; [by apply Hsplit|]. split; [|split; [|split; [exact Hsplit|done]]].
  - unfold retag, read_track.
    assert (Ha : truthy ta = true) by (apply truthy_true; apply Hta).
    assert (Hr : truthy artist = true) by (by apply truthy_true).
    assert (Hd : String.eqb ta artist = false) by (by apply String.eqb_neq).
    change (tag_first "title" (stem name) _) with tt.
    change (tag_first "artist" "" _) with ta.
    change (tag_first "albumartist" "" _) with artist.
    destruct Hlv as [->|Hlv].
    + change (1 =? 1) with true. cbv iota. cbn [lv_artist].
      by rewrite Hr, Ha, Hd.
    + destruct (i =? 1).
      * cbn [lv_artist]. by rewrite Hr, Ha, Hd.
      * by rewrite Hlv, Ha, Hd.
  - destruct (placeholder joined) eqn:E; [|reflexivity].
    apply placeholder_no_dash in E. unfold joined in E.
    rewrite !has_char_app in E. simpl in E.
    by rewrite orb_true_r in E.
Qed.

(** An album stored under the artist Sampler, which is a compilation
    artist for [save] and not one of the five names of the editor. *)
Lemma compilation_title_round_trip_witness :
  track_identity "Sampler" 3 "Nina Simone - Sinnerman"
    = ("Nina Simone", "Sinnerman")
  ∧ (read_track 3 "03 - Nina Simone - Sinnerman.flac"
       (Some (retag (Flac [] [] "audio") None "Nina Simone" "Sampler"
                "Jazz" "Sinnerman" 3 12 (is_compilation "Sampler")
                "1965" "" "" ""))
       {| lv_artist := "Sampler"; lv_album := "Jazz";
          lv_year := ""; lv_genre := ""; lv_disc_number := "";
          lv_disc_total := ""; lv_has_art := false;
          lv_compilation := true |}).2
    = "Nina Simone - Sinnerman"
  ∧ placeholder "Nina Simone - Sinnerman" = false
  ∧ track_identity "Various Artists" 3 "Nina Simone - Sinnerman"
    = ("Nina Simone", "Sinnerman").
Proof.
  destruct (compilation_title_round_trip "Sampler" "Nina Simone"
              "Sinnerman" "Jazz" 3 12 (Flac [] [] "audio")
              "03 - Nina Simone - Sinnerman.flac"
              {| lv_artist := "Sampler"; lv_album := "Jazz";
                 lv_year := ""; lv_genre := ""; lv_disc_number := "";
                 lv_disc_total := ""; lv_has_art := false;
                 lv_compilation := true |}
              None "1965" "" "" "")
    as (H1 & H2 & H3 & H4 & H5).
  - vm_compute. reflexivity.
  - intros H. discriminate H.
  - split; [vm_compute; reflexivity|intros H; discriminate H].
  - split; [vm_compute; reflexivity|intros H; discriminate H].
  - intros H. discriminate H.
  - intros H. apply contains_occurs in H. vm_compute in H. discriminate H.
  - by eexists _, _, _.
  - by right.
  - split; [exact H1|]. split; [exact H2|]. split; [exact H3|].
    by apply H4.
Defined.

Lemma default_title_whole (i : nat) :
  contains " - " ("Track " +:+ of_nat i) = false.
Proof.
  destruct (contains " - " ("Track " +:+ of_nat i)) eqn:E; [|reflexivity].
  apply contains_occurs in E. by apply fallback_title_whole in E.
Qed.

(** X11.  A stored title of the form [track N], in any letter case and
    with any number, does not survive an edit: on a track whose artist is
    the album artist the editor shows an empty title for it, and [save]
    turns an empty title into the word Track and the position of the file,
    which is again such a title. *)
Theorem placeholder_title_replaced (artist tt album_name folder : string)
    (i total : nat) (tags : list (string * string)) (pictures : list picture)
    (audio : string) (name : string) (rest : list string) (d : dir)
    (lv : album_level) (art : option string) (comp : bool)
    (year genre dn dt : string) :
  artist ≠ "" →
  placeholder tt = true →
  d !! name = Some (retag (Flac tags pictures audio) art artist artist
                      album_name tt i total comp year genre dn dt) →
  i = 1 ∨ lv_artist lv = artist →
  (∃ lv' shown,
     read_tracks folder d i (name :: rest) lv
       = (lv', {| s_num := i; s_title := ""; s_file := name;
                  s_path := Tagger.join folder name |} :: shown))
  ∧ track_identity artist i "" = (artist, "Track " +:+ of_nat i)
  ∧ placeholder ("Track " +:+ of_nat i) = true.
Proof.
  intros Hart Hp Hd Hlv. split; [|split].
  - simpl read_tracks. rewrite Hd. unfold retag, read_track.
    assert (Hr : truthy artist = true) by (by apply truthy_true).
    change (tag_first "title" (stem name) _) with tt.
    change (tag_first "artist" "" _) with artist.
    change (tag_first "albumartist" "" _) with artist.
    assert (He : String.eqb artist artist = true) by apply String.eqb_refl.
    destruct Hlv as [->|Hlv].
    + change (1 =? 1) with true. cbv iota. cbn [lv_artist].
      rewrite Hr, He. simpl andb. cbv iota. rewrite Hp.
      destruct (read_tracks _ _ _ _ _) as [lv' shown]. by eexists _, _.
    + destruct (i =? 1).
      * cbn [lv_artist]. rewrite Hr, He. simpl andb. cbv iota. rewrite Hp.
        destruct (read_tracks _ _ _ _ _) as [lv' shown]. by eexists _, _.
      * rewrite Hlv, Hr, He. simpl andb. cbv iota. rewrite Hp.
        destruct (read_tracks _ _ _ _ _) as [lv' shown]. by eexists _, _.
  - unfold track_identity. change (strip "") with "". cbv zeta.
    change (truthy "") with false. cbv iota.
    rewrite default_title_whole. by rewrite andb_false_r.
  - apply placeholder_default.
Qed.

Lemma placeholder_title_replaced_witness :
  (∃ lv' shown,
     read_tracks "/home/arm/music/A/P"
       {[ "03 - TRACK 07.flac" :=
            retag (Flac [] [] "audio") None "A" "A" "P" "TRACK 07" 3 9 false
              "" "" "" "" ]}
       3 ["03 - TRACK 07.flac"]
       {| lv_artist := "A"; lv_album := "P"; lv_year := ""; lv_genre := "";
          lv_disc_number := ""; lv_disc_total := ""; lv_has_art := false;
          lv_compilation := false |}
       = (lv', {| s_num := 3; s_title := "";
                  s_file := "03 - TRACK 07.flac";
                  s_path := Tagger.join "/home/arm/music/A/P"
                              "03 - TRACK 07.flac" |} :: shown))
  ∧ track_identity "A" 3 "" = ("A", "Track " +:+ of_nat 3)
  ∧ placeholder ("Track " +:+ of_nat 3) = true.
Proof.
  apply (placeholder_title_replaced "A" "TRACK 07" "P" "/home/arm/music/A/P"
           3 9 [] [] "audio" "03 - TRACK 07.flac" [] _ _ None false
           "" "" "" "").
  - intros H. discriminate H.
  - vm_compute. reflexivity.
  - vm_compute. reflexivity.
  - by right.
Defined.

Lemma read_tracks_shape (folder : string) (d : dir) (names : list string)
    (i : nat) (lv : album_level) :
  let shown := (read_tracks folder d i names lv).2 in
  s_num <$> shown = seq i (length names)
  ∧ s_file <$> shown = names
  ∧ s_path <$> shown = Tagger.join folder <$> names
  ∧ Forall (λ tr, placeholder (s_title tr) = false) shown.
Proof.
  revert i lv. induction names as [|name names IH]; intros i lv.
  - simpl. by split_ands.
  - simpl read_tracks.
    destruct (read_track i name (d !! name) lv) as [lv1 title].
    specialize (IH (S i) lv1).
    destruct (read_tracks folder d (S i) names lv1) as [lv' shown].
    cbv zeta in IH. simpl snd in *.
    destruct IH as (H1 & H2 & H3 & H4).
    cbv zeta. split_ands.
    + rewrite fmap_cons. cbn [s_num].
      change (seq i (length (name :: names)))
        with (i :: seq (S i) (length names)). by rewrite H1.
    + rewrite fmap_cons. cbn [s_file]. by rewrite H2.
    + rewrite !fmap_cons. cbn [s_path]. by rewrite H3.
    + apply Forall_cons. split; [|done]. cbn [s_title].
      destruct (placeholder title) eqn:E; [reflexivity|exact E].
Qed.

(** X12.  What the editor lists for a flat album: a folder that is
    entered in the tree under the path given, this path being canonical and
    not the root, with no directory below it.  One track for each FLAC
    file, in the order of the file names and numbered from 1, each with
    its file name and its path in the folder; no title shown is of the form
    [track N]; the artist shown is never the words Unknown Artist and the
    album never Unknown Album (an album filed under them is shown with
    empty fields). *)
Theorem get_album_info_listing (folder_path folder : string) (t : tree)
    (d : dir) :
  t !! folder_path = Some d →
  canonical folder_path = true → folder_path ≠ "/" →
  no_dir_below folder_path t = true →
  let info := get_album_info folder_path folder t in
  let names := flac_names (map fst (map_to_list d)) in
  s_num <$> i_tracks info = seq 1 (length names)
  ∧ s_file <$> i_tracks info = names
  ∧ s_path <$> i_tracks info = (λ name, folder_path +:+ "/" +:+ name) <$> names
  ∧ Forall (λ tr, placeholder (s_title tr) = false) (i_tracks info)
  ∧ i_artist info ≠ "Unknown Artist"
  ∧ i_album info ≠ "Unknown Album"
  ∧ i_original_path info = folder_path.
Proof.
  intros Hd _ _ _ info names. unfold info, get_album_info. rewrite Hd.
  change (default ∅ (Some d)) with d. cbv zeta. fold names.
  pose proof (read_tracks_shape folder_path d names 1 initial) as H.
  destruct (read_tracks folder_path _ 1 names initial) as [lv shown].
  cbv zeta in H. simpl snd in H. destruct H as (H1 & H2 & H3 & H4).
  cbn [i_tracks i_artist i_album i_original_path].
  split; [exact H1|]. split; [exact H2|]. split; [exact H3|].
  split; [exact H4|]. split; [|split; [|reflexivity]].
  - destruct (String.eqb _ "Unknown Artist") eqn:E; [discriminate|].
    by apply String.eqb_neq.
  - destruct (String.eqb _ "Unknown Album") eqn:E; [discriminate|].
    by apply String.eqb_neq.
Qed.

Lemma get_album_info_listing_witness :
  let info := get_album_info ripped_path "rip1" ripped_disk in
  s_num <$> i_tracks info = [1; 2]
  ∧ s_file <$> i_tracks info = ["a.flac"; "b.flac"]
  ∧ s_path <$> i_tracks info
    = ["/home/arm/music/Unknown Artist/rip1/a.flac";
       "/home/arm/music/Unknown Artist/rip1/b.flac"]
  ∧ i_original_path info = ripped_path.
Proof.
  intros info.
  destruct (get_album_info_listing ripped_path "rip1" ripped_disk ripped)
    as (H1 & H2 & H3 & _ & _ & _ & H7).
  - vm_compute. reflexivity.
  - vm_compute. reflexivity.
  - intros H. discriminate H.
  - vm_compute. reflexivity.
  - split; [etransitivity; [exact H1|vm_compute; reflexivity]|].
    split; [etransitivity; [exact H2|vm_compute; reflexivity]|].
    split; [etransitivity; [exact H3|vm_compute; reflexivity]|].
    exact H7.
Defined.

End EditorFacts.

Section HistoryLength.
Import App.

Lemma add_history_entry_length (now : string) (d : entry_data)
    (h : list entry) :
  length (add_history_entry now d h).2 = min 100 (length h + 1).
Proof.
  unfold add_history_entry, last_100. cbv zeta. simpl snd.
  rewrite !length_app. simpl length.
  destruct (100 <? length h + 1) eqn:E.
  - apply Nat.ltb_lt in E. rewrite length_drop, !length_app. simpl length. lia.
  - apply Nat.ltb_ge in E. rewrite !length_app. simpl length. lia.
Qed.

End HistoryLength.

Section DeleteFacts.
Import PyStr Path Fs App Delete.

Variable realpath : string → string.

(** X13.  The guard of [delete_album], for a path that designates a
    folder or nothing.  An empty path, or a canonical path at which a
    canonical tree has nothing: album not found.  A folder of the tree
    whose real path does not start with the real path of the music
    directory: invalid path.  In these cases nothing changes, on the disk
    or in the history.  A folder of the tree that is a path of the library
    and whose real path starts with that of the music directory: the
    request is carried out under the names of the folder and of its parent,
    leaves no folder at the path and one more entry in the history, up to
    the cap of 100. *)
Theorem delete_guard (clk : clock) (path : string) (keep_backup : bool)
    (st : state) :
  let r := delete_album realpath clk path keep_backup st in
  (path = "" → r = (NotFound, st))
  ∧ (canonical path = true → canonical_tree (disk st) = true →
     nothing_at path (disk st) = true →
     r = (NotFound, st))
  ∧ (path ≠ "" → is_Some (disk st !! path) →
     startswith (realpath MUSIC_DIR) (realpath path) = false →
     r = (InvalidPath, st))
  ∧ (in_library path = true → is_Some (disk st !! path) →
     startswith (realpath MUSIC_DIR) (realpath path) = true →
     r.1 = Deleted (basename (dirname path)) (basename path) keep_backup
     ∧ disk r.2 !! path = None
     ∧ length (history r.2) = min 100 (length (history st) + 1)).
Proof.
  intros r. unfold r, delete_album. split_ands.
  - by intros ->.
  - intros _ _ H. apply nothing_at_None in H.
    apply exists_dir_false in H. rewrite H. by rewrite orb_true_r.
  - intros Hp Hx Hs. apply truthy_true in Hp. apply exists_dir_true in Hx.
    by rewrite Hp, Hx, Hs.
  - intros Hl Hx Hs.
    assert (Hp : truthy path = true).
    { apply in_library_shape in Hl as [x ->]. reflexivity. }
    apply exists_dir_true in Hx. rewrite Hp, Hx, Hs.
    simpl negb. simpl orb. cbv iota.
    set (bt := if keep_backup then _ else _).
    destruct bt as [bp t] eqn:Ebt.
    pose proof (add_history_entry_length (entry_iso clk)
      {| d_artist := basename (dirname path); d_album := basename path;
         d_action := "Deleted album"
                     +:+ (if keep_backup then " (backup kept)"
                          else " (no backup)");
         d_original_path := path; d_new_path := None; d_backup_path := bp |}
      (history st)) as Hlen.
    destruct (add_history_entry _ _ _) as [i h]. simpl in Hlen |- *.
    split; [reflexivity|]. split; [|exact Hlen].
    apply remove_empty_parent_None. apply lookup_delete_eq.
Qed.


Lemma add_history_entry_last (now : string) (d : entry_data)
    (h : list entry) :
  (add_history_entry now d h).2
    = skipn (length h - 99) h ++ [new_entry now d h].
Proof.
  unfold add_history_entry, last_100. cbv zeta. simpl snd.
  fold (new_entry now d h). rewrite !length_app. simpl length.
  destruct (100 <? length h + 1) eqn:E.
  - apply Nat.ltb_lt in E.
    replace (length h + 1 - 100) with (length h - 99) by lia.
    apply drop_app_le. lia.
  - apply Nat.ltb_ge in E. replace (length h - 99) with 0 by lia.
    by rewrite drop_0.
Qed.



End DeleteFacts.

Section DeleteRuns.
Import PyStr Path Fs App Delete.

(** The four cases on the library, links resolving to themselves but for
    the folder of Q, which is a link to a folder outside the music
    directory. *)
Lemma delete_guard_witness :
  let st := {| disk := library; history := append_all (deletions 3) [] |} in
  let now := at_time "20240101_100000" in
  let links := λ p, if String.eqb p album_Q then "/mnt/usb/Q" else p in
  delete_album links now "" true st = (NotFound, st)
  ∧ delete_album links now "/home/arm/music/A/X" true st = (NotFound, st)
  ∧ delete_album links now album_Q true st = (InvalidPath, st)
  ∧ (delete_album links now album_P true st).1 = Deleted "A" "P" true
  ∧ disk (delete_album links now album_P true st).2 !! album_P = None
  ∧ length (history (delete_album links now album_P true st).2) = 4.
Proof.
  intros st now links.
  destruct (delete_guard links now "" true st) as (H1 & _).
  destruct (delete_guard links now "/home/arm/music/A/X" true st)
    as (_ & H2 & _).
  destruct (delete_guard links now album_Q true st) as (_ & _ & H3 & _).
  destruct (delete_guard links now album_P true st) as (_ & _ & _ & H4).
  split; [by apply H1|].
  split; [apply H2; vm_compute; reflexivity|].
  split.
  { apply H3; [intros H; discriminate H|vm_compute; by eexists|].
    vm_compute. reflexivity. }
  destruct H4 as (H5 & H6 & H7).
  - vm_compute. reflexivity.
  - vm_compute. by eexists.
  - vm_compute. reflexivity.
  - split; [exact H5|]. split; [exact H6|].
    etransitivity; [exact H7|]. vm_compute. reflexivity.
Defined.



End DeleteRuns.

Section MatchesFacts.
Import PyStr Resolver Matches.

(** The recordings that fit, with the score of their group, in the order
    the loops meet them. *)
Definition fits_of (g : result_group) : list candidate :=
  if Qltb (score_of g) (1 # 2) then []
  else omap (candidate_of (score_of g)) (recordings_of g).

Definition fits (gs : list result_group) : list candidate :=
  gs ≫= fits_of.

Definition key_of (c : candidate) : string := lower (c_title c).

Definition enter (seen : list (string * candidate)) (c : candidate) :=
  upsert (key_of c) c seen.

Lemma add_recordings_enter (sc : Q) (rs : list recording)
    (seen : list (string * candidate)) :
  fold_left (add_recording sc) rs seen
  = fold_left enter (omap (candidate_of sc) rs) seen.
Proof.
  revert seen. induction rs as [|r rs IH]; intros seen; [reflexivity|].
  simpl. unfold add_recording at 2.
  destruct (candidate_of sc r) as [c|]; simpl; apply IH.
Qed.

Lemma collect_enter (gs : list result_group)
    (seen : list (string * candidate)) :
  fold_left add_group gs seen = fold_left enter (fits gs) seen.
Proof.
  revert seen. induction gs as [|g gs IH]; intros seen; [reflexivity|].
  change (fits (g :: gs)) with (fits_of g ++ fits gs).
  rewrite fold_left_app. simpl fold_left.
  rewrite IH. f_equal. unfold add_group, fits_of.
  destruct (Qltb (score_of g) (1 # 2)); [reflexivity|].
  apply add_recordings_enter.
Qed.

Lemma fits_valid (gs : list result_group) (c : candidate) :
  c ∈ fits gs →
  (1 # 2 <= c_score c)%Q ∧ c_title c ≠ "" ∧ c_artist c ≠ "".
Proof.
  unfold fits. rewrite list_elem_of_bind. intros (g & Hc & _).
  unfold fits_of in Hc. destruct (Qltb (score_of g) (1 # 2)) eqn:E;
    [inversion Hc|].
  apply Qltb_ge in E. apply list_elem_of_omap in Hc as (r & _ & Hr).
  unfold candidate_of in Hr.
  destruct (rec_title r) as [t|]; [|discriminate Hr].
  destruct (first_artist r) as [a|]; [|discriminate Hr].
  destruct (truthy t && truthy a) eqn:Et; [|discriminate Hr].
  apply andb_true_iff in Et as [Ht Ha]. apply truthy_true in Ht, Ha.
  destruct (first_titled _) as [album year]. by injection Hr as <-.
Qed.

(** The entry of a key in [seen_titles]. *)
Fixpoint find_key (k : string) (seen : list (string * candidate))
  : option candidate :=
  match seen with
  | [] => None
  | (k0, c) :: rest => if String.eqb k0 k then Some c else find_key k rest
  end.

Lemma find_key_elem (k : string) (c : candidate)
    (seen : list (string * candidate)) :
  NoDup seen.*1 → (k, c) ∈ seen → find_key k seen = Some c.
Proof.
  induction seen as [|[k0 c0] seen IH]; intros Hnd Hin; [inversion Hin|].
  rewrite fmap_cons in Hnd. apply NoDup_cons in Hnd as [Hn Hnd].
  simpl. apply elem_of_cons in Hin as [Hin|Hin].
  - injection Hin as <- <-. by rewrite String.eqb_refl.
  - destruct (String.eqb k0 k) eqn:E; [|by apply IH].
    apply String.eqb_eq in E. subst k0. exfalso. apply Hn.
    apply (list_elem_of_fmap_2 fst) in Hin. exact Hin.
Qed.

Lemma find_key_keys (k : string) (seen : list (string * candidate)) :
  is_Some (find_key k seen) ↔ k ∈ seen.*1.
Proof.
  induction seen as [|[k0 c0] seen IH]; simpl.
  - split; [by intros [x H]|intros H; inversion H].
  - destruct (String.eqb k0 k) eqn:E.
    + apply String.eqb_eq in E. subst k0. split; [by left|by eexists].
    + apply String.eqb_neq in E. rewrite IH. split; [by right|].
      intros H. apply elem_of_cons in H as [H|H]; [by subst|done].
Qed.

Lemma upsert_keys (key : string) (c : candidate)
    (seen : list (string * candidate)) :
  (upsert key c seen).*1 = if decide (key ∈ seen.*1) then seen.*1
                           else seen.*1 ++ [key].
Proof.
  induction seen as [|[k old] seen IH]; [reflexivity|].
  simpl. destruct (String.eqb k key) eqn:E.
  - apply String.eqb_eq in E. subst k.
    rewrite decide_True by (by left). reflexivity.
  - apply String.eqb_neq in E. rewrite fmap_cons, IH. simpl.
    destruct (decide (key ∈ seen.*1)) as [Hin|Hout].
    + rewrite decide_True by (by right). reflexivity.
    + rewrite decide_False; [reflexivity|].
      intros H. apply elem_of_cons in H as [H|H]; [by subst|done].
Qed.

Lemma upsert_find (key : string) (c : candidate)
    (seen : list (string * candidate)) (k : string) :
  find_key k (upsert key c seen)
  = if String.eqb key k
    then match find_key key seen with
         | Some old => Some (if Qltb (c_score old) (c_score c) then c else old)
         | None => Some c
         end
    else find_key k seen.
Proof.
  induction seen as [|[k0 old] seen IH]; simpl.
  - reflexivity.
  - destruct (String.eqb k0 key) eqn:E; simpl.
    + apply String.eqb_eq in E. subst k0.
      destruct (String.eqb key k); reflexivity.
    + rewrite IH. destruct (String.eqb key k) eqn:E2; [|reflexivity].
      apply String.eqb_eq in E2. subst k. by rewrite E.
Qed.

(** What [seen_titles] holds after the candidates [cs] have come by. *)
Definition seen_inv (cs : list candidate) (seen : list (string * candidate))
  : Prop :=
  NoDup seen.*1
  ∧ (∀ k c, find_key k seen = Some c →
       k = key_of c ∧ c ∈ cs
       ∧ ∀ c', c' ∈ cs → key_of c' = k → (c_score c' <= c_score c)%Q)
  ∧ (∀ c, c ∈ cs → key_of c ∈ seen.*1).

Lemma seen_inv_enter (cs : list candidate) (seen : list (string * candidate))
    (c : candidate) :
  seen_inv cs seen → seen_inv (cs ++ [c]) (enter seen c).
Proof.
  intros (Hnd & Hall & Hcov). unfold enter. split; [|split].
  - rewrite upsert_keys. destruct (decide (key_of c ∈ seen.*1)); [done|].
    apply NoDup_app. split; [done|]. split; [|apply NoDup_singleton].
    intros x Hx Hx'. apply list_elem_of_singleton in Hx'. by subst.
  - intros k x. rewrite upsert_find.
    destruct (String.eqb (key_of c) k) eqn:E.
    + apply String.eqb_eq in E. subst k.
      destruct (find_key (key_of c) seen) as [old|] eqn:Eo.
      * destruct (Hall _ _ Eo) as (Hk & Ho & Hbest).
        destruct (Qltb (c_score old) (c_score c)) eqn:Eq; intros [= <-].
        -- apply Qltb_lt in Eq. split; [done|].
           split; [apply elem_of_app; right; by left|].
           intros c' Hc' Hkey. apply elem_of_app in Hc' as [Hc'|Hc'].
           ++ apply Qle_trans with (c_score old); [by apply Hbest|].
              by apply Qlt_le_weak.
           ++ apply list_elem_of_singleton in Hc'. subst. apply Qle_refl.
        -- apply Qltb_ge in Eq. split; [done|].
           split; [apply elem_of_app; by left|].
           intros c' Hc' Hkey. apply elem_of_app in Hc' as [Hc'|Hc'].
           ++ by apply Hbest.
           ++ apply list_elem_of_singleton in Hc'. by subst.
      * intros [= <-]. split; [done|].
        split; [apply elem_of_app; right; by left|].
        intros c' Hc' Hkey. apply elem_of_app in Hc' as [Hc'|Hc'].
        -- exfalso. apply Hcov in Hc'. rewrite Hkey in Hc'.
           apply find_key_keys in Hc' as [y Hy]. congruence.
        -- apply list_elem_of_singleton in Hc'. subst. apply Qle_refl.
    + apply String.eqb_neq in E. intros Hx.
      destruct (Hall _ _ Hx) as (Hk & Ho & Hbest).
      split; [done|]. split; [apply elem_of_app; by left|].
      intros c' Hc' Hkey. apply elem_of_app in Hc' as [Hc'|Hc'].
      * by apply Hbest.
      * apply list_elem_of_singleton in Hc'. subst c'. by subst k.
  - intros c' Hc'. rewrite upsert_keys.
    apply elem_of_app in Hc' as [Hc'|Hc'].
    + apply Hcov in Hc'. destruct (decide (key_of c ∈ seen.*1)); [done|].
      apply elem_of_app. by left.
    + apply list_elem_of_singleton in Hc'. subst c'.
      destruct (decide (key_of c ∈ seen.*1)); [done|].
      apply elem_of_app. right. by left.
Qed.

Lemma seen_inv_fold (cs done : list candidate)
    (seen : list (string * candidate)) :
  seen_inv done seen → seen_inv (done ++ cs) (fold_left enter cs seen).
Proof.
  revert done seen. induction cs as [|c cs IH]; intros done seen H.
  - by rewrite app_nil_r.
  - simpl. replace (done ++ c :: cs) with ((done ++ [c]) ++ cs)
      by (by rewrite <- app_assoc).
    by apply IH, seen_inv_enter.
Qed.

Lemma collect_inv (gs : list result_group) : seen_inv (fits gs) (collect gs).
Proof.
  unfold collect. rewrite collect_enter.
  apply (seen_inv_fold (fits gs) [] []).
  split; [constructor|]. split; [discriminate|]. intros c H. inversion H.
Qed.

(** The order of the scores, best first. *)
Definition ge_score (a b : candidate) : Prop := (c_score b <= c_score a)%Q.

Lemma insert_by_score_perm (c : candidate) (l : list candidate) :
  insert_by_score c l ≡ₚ c :: l.
Proof.
  induction l as [|y l IH]; simpl; [done|].
  destruct (Qle_bool (c_score y) (c_score c)); [done|].
  rewrite IH. apply Permutation_swap.
Qed.

Lemma sort_by_score_perm (l : list candidate) : sort_by_score l ≡ₚ l.
Proof.
  induction l as [|x l IH]; simpl; [done|].
  by rewrite insert_by_score_perm, IH.
Qed.

Lemma insert_by_score_sorted (c : candidate) (l : list candidate) :
  StronglySorted ge_score l → StronglySorted ge_score (insert_by_score c l).
Proof.
  induction l as [|y l IH]; intros Hs; simpl.
  - by repeat constructor.
  - apply StronglySorted_inv in Hs as [Hs Hy].
    destruct (Qle_bool (c_score y) (c_score c)) eqn:E.
    + apply Qle_bool_iff in E. constructor; [by constructor|].
      constructor; [exact E|].
      eapply Forall_impl; [exact Hy|]. intros z Hz. unfold ge_score in *.
      by apply Qle_trans with (c_score y).
    + constructor; [by apply IH|].
      rewrite insert_by_score_perm. constructor; [|done].
      unfold ge_score. apply Qlt_le_weak, Qnot_le_lt.
      intros H. apply Qle_bool_iff in H. congruence.
Qed.

Lemma sort_by_score_sorted (l : list candidate) :
  StronglySorted ge_score (sort_by_score l).
Proof.
  induction l as [|x l IH]; simpl; [constructor|].
  by apply insert_by_score_sorted.
Qed.

(** X16.  The matches offered for one track.  When the handler answers
    with matches, they are at most ten and at least one candidates, each
    shown with its title, artist, album and year and with the percentage
    the floating point computation gives for its score (whatever that is),
    such that: each comes from a recording of the reply that
    has a title and a first artist with a name, in a group with a score of
    one half or more; no two have the same title once lowered; for its
    title each has the best score of the reply; and they are in the order
    of their scores, the best first. *)
Theorem fingerprint_matches (percent : Q → Z) (arg : string)
    (present : string → bool) (lookup : string → lookup_reply)
    (ms : list shown_match) :
  api_fingerprint_track percent arg present lookup = Success ms →
  ∃ gs cs,
    lookup (strip arg) = Reply (Some gs)
    ∧ ms = to_shown percent <$> cs
    ∧ 0 < length cs ≤ 10
    ∧ NoDup (key_of <$> cs)
    ∧ StronglySorted ge_score cs
    ∧ ∀ c, c ∈ cs →
        c ∈ fits gs
        ∧ (1 # 2 <= c_score c)%Q ∧ c_title c ≠ "" ∧ c_artist c ≠ ""
        ∧ ∀ c', c' ∈ fits gs → key_of c' = key_of c →
                (c_score c' <= c_score c)%Q.
Proof.
  unfold api_fingerprint_track. cbv zeta.
  destruct (negb (truthy (strip arg)) || negb (present (strip arg)));
    [discriminate|].
  destruct (negb (endswith ".flac" (strip arg))); [discriminate|].
  destruct (lookup (strip arg)) as [|[gs|]]; try discriminate.
  destruct gs as [|g gs]; [discriminate|].
  pose proof (collect_inv (g :: gs)) as (Hnd & Hall & Hcov).
  destruct (collect (g :: gs)) as [|kc seen] eqn:Ec; [discriminate|].
  intros [= <-]. set (all := kc :: seen) in *.
  set (sorted := sort_by_score all.*2).
  assert (Hkeys : key_of <$> all.*2 = all.*1).
  { rewrite <- list_fmap_compose. apply list_fmap_ext.
    intros i [k c] Hi. simpl.
    apply list_elem_of_lookup_2 in Hi. apply find_key_elem in Hi; [|done].
    by destruct (Hall _ _ Hi) as [-> _]. }
  exists (g :: gs), (firstn 10 sorted). split; [reflexivity|].
  split; [reflexivity|]. split; [|split; [|split]].
  - rewrite length_take. unfold sorted.
    rewrite sort_by_score_perm, length_fmap. unfold all. simpl length. lia.
  - rewrite fmap_take. eapply sublist_NoDup; [|apply sublist_take].
    unfold sorted. rewrite sort_by_score_perm. by rewrite Hkeys.
  - apply (StronglySorted_app_1_l _ _ (skipn 10 sorted)).
    rewrite take_drop. apply sort_by_score_sorted.
  - intros c Hc. apply elem_of_take in Hc as (i & Hc & _).
    apply list_elem_of_lookup_2 in Hc. unfold sorted in Hc.
    rewrite sort_by_score_perm in Hc.
    apply list_elem_of_fmap in Hc as ([k c0] & -> & Hin). simpl.
    apply find_key_elem in Hin; [|done].
    destruct (Hall _ _ Hin) as (-> & Hfit & Hbest).
    split; [done|]. destruct (fits_valid _ _ Hfit) as (H1 & H2 & H3).
    split; [done|]. split; [done|]. split; [done|].
    intros c' Hc' Hk. by apply Hbest.
Qed.

End MatchesFacts.

Section MatchesRun.
Import PyStr Resolver Matches.

(** A reply with the same title twice, in two letter cases, and a
    recording without artist. *)
Definition two_titles_reply : lookup_reply :=
  Reply (Some
    [ {| res_score := Some (90 # 100);
         res_recordings := Some
           [ {| rec_id := None; rec_title := Some "Sinnerman";
                rec_artists := [ {| ac_name := Some "Nina Simone" |} ];
                rec_releases := Some
                  [ {| rel_title := None; rel_date := Some "1965" |};
                    {| rel_title := Some "Pastel Blues";
                       rel_date := Some "1965-10-01" |} ] |};
             {| rec_id := None; rec_title := Some "Untitled";
                rec_artists := []; rec_releases := None |} ] |};
      {| res_score := Some (96 # 100);
         res_recordings := Some
           [ {| rec_id := None; rec_title := Some "SINNERMAN";
                rec_artists := [ {| ac_name := Some "N. Simone" |} ];
                rec_releases := None |};
             {| rec_id := None; rec_title := Some "Other";
                rec_artists := [ {| ac_name := Some "X" |} ];
                rec_releases := None |} ] |};
      {| res_score := Some (40 # 100);
         res_recordings := Some
           [ {| rec_id := None; rec_title := Some "Low";
                rec_artists := [ {| ac_name := Some "Y" |} ];
                rec_releases := None |} ] |} ]).

(** A percentage for the scores of the example, which are whole
    hundredths. *)
Definition whole_percent (q : Q) : Z := Qfloor (q * 100).

Lemma fingerprint_matches_witness :
  ∃ gs cs,
    two_titles_reply = Reply (Some gs)
    ∧ [ {| m_title := "SINNERMAN"; m_artist := "N. Simone"; m_album := "";
           m_year := ""; m_percent := 96 |};
        {| m_title := "Other"; m_artist := "X"; m_album := "";
           m_year := ""; m_percent := 96 |} ] = to_shown whole_percent <$> cs
    ∧ 0 < length cs ≤ 10
    ∧ NoDup (key_of <$> cs)
    ∧ StronglySorted ge_score cs
    ∧ ∀ c, c ∈ cs →
        c ∈ fits gs
        ∧ (1 # 2 <= c_score c)%Q ∧ c_title c ≠ "" ∧ c_artist c ≠ ""
        ∧ ∀ c', c' ∈ fits gs → key_of c' = key_of c →
                (c_score c' <= c_score c)%Q.
Proof.
  apply (fingerprint_matches whole_percent " /m/a.flac " (λ _, true)
           (λ _, two_titles_reply)).
  vm_compute. reflexivity.
Defined.

End MatchesRun.

Section ReleasesFacts.
Import Releases.

(** The key under which a candidate was entered. *)
Definition entered_as (c : candidate) : string :=
  key_of (c_artist c) (c_album c) (c_track_count c).

(** Line 174. *)
Definition match_ok (local : Z) (c : candidate) : Prop :=
  c_track_match c = ((0 <? local)%Z && (c_track_count c =? local)%Z).

Definition score_z (c : candidate) : Z := default 0%Z (parse (c_score c)).

(** The order of the answer: those whose track count matches first, and
    among equals the better score first. *)
Definition ranked (a b : candidate) : Prop :=
  before (c_track_match a, score_z a) (c_track_match b, score_z b) = true.

Lemma scan_spec (local : Z) (rels : list found_release) (seen : list string)
    (acc cs : list candidate) :
  scan local rels seen acc = Some cs →
  length acc < 5 →
  (∀ k, k ∈ seen ↔ k ∈ entered_as <$> acc) →
  NoDup (entered_as <$> acc) →
  Forall (match_ok local) acc →
  length cs ≤ 5 ∧ NoDup (entered_as <$> cs) ∧ Forall (match_ok local) cs.
Proof.
  revert seen acc.
  induction rels as [|r rels IH]; intros seen acc Hs Hlen Hseen Hnd Hok.
  - injection Hs as <-. split; [lia|done].
  - revert Hs. cbn [scan].
    destruct (fr_id r) as [rid|]; [|discriminate].
    destruct (sum_counts (fr_track_counts r)) as [tc|]; [|discriminate].
    set (artist := default "Unknown" (fr_artist r)).
    set (title := default "Unknown" (fr_title r)).
    set (key := key_of artist title tc).
    destruct (bool_decide (key ∈ seen)) eqn:Ek.
    + intros Hs. by apply (IH seen acc).
    + apply bool_decide_eq_false in Ek.
      match goal with
      | |- context [acc ++ [?x]] => set (c := x)
      end.
      assert (Hnd' : NoDup (entered_as <$> acc ++ [c])).
      { rewrite fmap_app. apply NoDup_app. split; [done|].
        split; [|apply NoDup_singleton].
        intros k Hk Hk'. apply list_elem_of_singleton in Hk'. subst k.
        apply Ek. by apply Hseen. }
      assert (Hok' : Forall (match_ok local) (acc ++ [c])).
      { apply Forall_app. split; [done|]. apply Forall_singleton.
        unfold match_ok, c. simpl. by destruct (0 <? local)%Z. }
      destruct (5 <=? length (acc ++ [c])) eqn:E5.
      * intros [= <-]. rewrite length_app in *. simpl in *.
        split; [lia|done].
      * apply Nat.leb_gt in E5. intros Hs.
        apply (IH (key :: seen) (acc ++ [c])); try done.
        intros k. rewrite fmap_app, elem_of_app, elem_of_cons, Hseen.
        simpl. rewrite list_elem_of_singleton. unfold entered_as at 2.
        simpl. tauto.
Qed.

Lemma before_total (a b : bool * Z) : before a b = false → before b a = true.
Proof.
  destruct a as [[] x], b as [[] y]; unfold before; simpl;
    rewrite ?Z.leb_le, ?Z.leb_gt; try done; lia.
Qed.

Lemma before_trans (a b c : bool * Z) :
  before a b = true → before b c = true → before a c = true.
Proof.
  destruct a as [[] x], b as [[] y], c as [[] z]; unfold before; simpl;
    rewrite ?Z.leb_le; try done; lia.
Qed.

Lemma insert_ranked_perm (x : (bool * Z) * candidate)
    (l : list ((bool * Z) * candidate)) :
  insert_ranked x l ≡ₚ x :: l.
Proof.
  induction l as [|y l IH]; simpl; [done|].
  destruct (before x.1 y.1); [done|]. rewrite IH. apply Permutation_swap.
Qed.

Lemma insert_ranked_sorted (x : (bool * Z) * candidate)
    (l : list ((bool * Z) * candidate)) :
  StronglySorted (λ a b, before a.1 b.1 = true) l →
  StronglySorted (λ a b, before a.1 b.1 = true) (insert_ranked x l).
Proof.
  induction l as [|y l IH]; intros Hs; simpl.
  - by repeat constructor.
  - apply StronglySorted_inv in Hs as [Hs Hy].
    destruct (before x.1 y.1) eqn:E.
    + constructor; [by constructor|]. constructor; [exact E|].
      eapply Forall_impl; [exact Hy|]. intros z Hz. simpl in *.
      by apply before_trans with y.1.
    + constructor; [by apply IH|].
      rewrite insert_ranked_perm. constructor; [|done].
      by apply before_total.
Qed.

Lemma sort_ranked_spec (cs out : list candidate) :
  sort_ranked cs = Some out →
  out ≡ₚ cs
  ∧ Forall (λ c, is_Some (parse (c_score c))) out
  ∧ StronglySorted ranked out.
Proof.
  unfold sort_ranked. intros H.
  destruct (mapM _ cs) as [keyed|] eqn:Em; [|discriminate H].
  simpl in H. injection H as <-.
  apply mapM_Some_1 in Em.
  set (sorted := foldr insert_ranked [] keyed).
  assert (Hp : sorted ≡ₚ keyed).
  { unfold sorted. clear. induction keyed as [|x l IH]; simpl; [done|].
    by rewrite insert_ranked_perm, IH. }
  assert (Hs : StronglySorted (λ a b, before a.1 b.1 = true) sorted).
  { unfold sorted. clear. induction keyed as [|x l IH]; simpl; [constructor|].
    by apply insert_ranked_sorted. }
  assert (Hk : Forall (λ kc, parse (c_score kc.2) = Some kc.1.2
                             ∧ kc.1.1 = c_track_match kc.2) keyed).
  { clear -Em. induction Em as [|c kc cs keyed H _ IH]; [constructor|].
    constructor; [|exact IH].
    destruct (parse (c_score c)) as [z|] eqn:Ez; [|discriminate H].
    simpl in H. injection H as <-. simpl. by rewrite Ez. }
  assert (H2 : keyed.*2 = cs).
  { clear -Em. induction Em as [|c kc cs keyed H _ IH]; [reflexivity|].
    rewrite fmap_cons, IH. f_equal.
    destruct (parse (c_score c)) as [z|]; [|discriminate H].
    simpl in H. by injection H as <-. }
  rewrite <- Hp in Hk.
  split; [by rewrite Hp, H2|]. split.
  - apply Forall_fmap. eapply Forall_impl; [exact Hk|].
    intros [k c] [H _]. simpl in *. by rewrite H.
  - clear -Hs Hk. induction Hs as [|kc l Hs IH Hall]; [constructor|].
    apply Forall_cons in Hk as [Hkc Hk]. rewrite fmap_cons.
    constructor; [by apply IH|].
    apply Forall_fmap. apply Forall_forall. intros kc' Hin.
    pose proof (proj1 (Forall_forall _ _) Hall _ Hin) as Hb.
    pose proof (proj1 (Forall_forall _ _) Hk _ Hin) as [Hz' Hm'].
    destruct Hkc as [Hz Hm]. unfold ranked, score_z. simpl.
    rewrite Hz, Hz', <- Hm, <- Hm'. simpl.
    by destruct kc as [[m z] c], kc' as [[m' z'] c'].
Qed.

(** X17.  The releases offered for an album, whatever the search
    replies: at most five; no two with the same artist, title and track
    count, letter case apart; a candidate is marked as matching exactly
    when the local track count is positive and equal to its own; the
    score of each is a numeral; those that match come first, and among
    candidates that agree on matching the better score comes first. *)
Theorem search_releases_ranked (reply : option (list found_release))
    (local : Z) :
  let cs := search_musicbrainz_releases reply local in
  length cs ≤ 5
  ∧ NoDup (entered_as <$> cs)
  ∧ Forall (match_ok local) cs
  ∧ Forall (λ c, is_Some (parse (c_score c))) cs
  ∧ StronglySorted ranked cs.
Proof.
  intros cs. unfold cs, search_musicbrainz_releases.
  assert (Hnil : length (@nil candidate) ≤ 5
                 ∧ NoDup (entered_as <$> [])
                 ∧ Forall (match_ok local) []
                 ∧ Forall (λ c, is_Some (parse (c_score c))) []
                 ∧ StronglySorted ranked []).
  { simpl. split; [lia|]. repeat constructor. }
  destruct reply as [[|r rels]|]; try exact Hnil.
  destruct (scan local (r :: rels) [] []) as [found|] eqn:Es; [|exact Hnil].
  destruct (scan_spec _ _ _ _ _ Es) as (Hlen & Hnd & Hok).
  { simpl. lia. }
  { intros k. split; intros H; inversion H. }
  { constructor. }
  { constructor. }
  destruct (sort_ranked found) as [out|] eqn:Eo; [|exact Hnil].
  destruct (sort_ranked_spec _ _ Eo) as (Hp & Hparse & Hsorted).
  simpl. split; [by rewrite Hp|]. split; [by rewrite Hp|].
  split; [by rewrite Hp|]. split; [exact Hparse|exact Hsorted].
Qed.

End ReleasesFacts.

Section ReleaseDetailsFacts.
Import PyStr App ReleaseDetails.

Lemma release_compilation (album_artist : string) :
  ReleaseDetails.is_compilation album_artist = true →
  App.is_compilation album_artist = true.
Proof.
  unfold ReleaseDetails.is_compilation, App.is_compilation. intros H.
  apply bool_decide_eq_true_1 in H. apply orb_true_iff. left.
  apply bool_decide_eq_true_2.
  repeat (apply elem_of_cons in H as [->|H];
          [apply (bool_decide_unpack _); vm_compute; reflexivity|]).
  inversion H.
Qed.

(** X18.  The titles of a compilation release go through [save] as they
    were sent.  For a release whose artist phrase is one of the five
    compilation names of line 196, the entry made of a track that has a
    title and a credited artist is the artist, the separator and the title;
    the album artist is a compilation artist for [save] as well; and,
    the title being trimmed and no separator occurring before the one that
    joins the two, [save] splits the entry into that artist and that title,
    whatever the position of the track. *)
Theorem release_entry_split_back (album_artist : string) (t : mb_track)
    (entry : string) (i : nat) :
  ReleaseDetails.is_compilation album_artist = true →
  track_entry album_artist t = Some (Some entry) →
  ∀ ta, track_artist_of t = Some ta → ta ≠ "" →
  trimmed (title_of t) → ¬ occurs " - " (ta +:+ " -") →
  entry = ta +:+ " - " +:+ title_of t
  ∧ App.is_compilation album_artist = true
  ∧ track_identity album_artist i entry = (ta, title_of t).
Proof.
  intros Hc He ta Hta Hne Htt Hno. unfold track_entry in He. cbv zeta in He.
  rewrite Hta in He. simpl in He. rewrite Hc in He.
  apply truthy_true in Hne. rewrite Hne in He. simpl in He.
  destruct (truthy (title_of t)) eqn:Et; [|discriminate He].
  injection He as <-. split; [reflexivity|].
  pose proof (release_compilation _ Hc) as Hc'. split; [exact Hc'|].
  assert (Htrim : trimmed ta).
  { split; [|by apply truthy_true]. unfold track_artist_of in Hta.
    destruct (credit_of t) as [|c cs]; [by injection Hta as <-|].
    destruct (join_credit (c :: cs)) as [s|]; [|discriminate Hta].
    simpl in Hta. injection Hta as <-. apply strip_idem. }
  unfold track_identity. cbv zeta.
  rewrite (strip_joined _ _ Htrim Htt).
  assert (Ht : truthy (ta +:+ " - " +:+ title_of t) = true).
  { destruct ta; [done|]. by sapp. }
  rewrite Ht, Hc'. simpl andb.
  assert (Hin : contains " - " (ta +:+ " - " +:+ title_of t) = true)
    by (apply contains_occurs; by eexists _, _).
  rewrite Hin, split_once_joined by done.
  destruct Htrim as [-> _], Htt as [-> _]. by rewrite Hne, Et.
Qed.

(** A track of a compilation, credited to two artists. *)
Definition duet : mb_track :=
  {| t_recording :=
       Some {| r_title := Some "Under Pressure";
               r_credit := [Credited (Some "Queen") (Some " & ");
                            Credited (Some "David Bowie") None] |};
     t_title := Some "Under Pressure (remaster)";
     t_credit := [] |}.

Lemma release_entry_split_back_witness :
  "Queen & David Bowie - Under Pressure"
    = "Queen & David Bowie" +:+ " - " +:+ title_of duet
  ∧ App.is_compilation "Various Artists" = true
  ∧ track_identity "Various Artists" 7 "Queen & David Bowie - Under Pressure"
      = ("Queen & David Bowie", title_of duet).
Proof.
  apply (release_entry_split_back "Various Artists" duet
           "Queen & David Bowie - Under Pressure" 7).
  - vm_compute. reflexivity.
  - vm_compute. reflexivity.
  - vm_compute. reflexivity.
  - intros H. discriminate H.
  - split; [vm_compute; reflexivity|intros H; discriminate H].
  - intros H. apply contains_occurs in H. vm_compute in H. discriminate H.
Defined.

End ReleaseDetailsFacts.

(** ** Applying an analysis *)

Section JoinedPaths.
Import PyStr Path.








End JoinedPaths.

Section ApplyFacts.
Import PyStr Path Fs Tagger Cli.











End ApplyFacts.

(** ** What [undo] writes to the history *)

Section UndoRecord.
Import PyStr Path Fs App.

Lemma mark_undone_first (id : nat) (h : list entry) :
  (∃ e, e ∈ h ∧ e_id e = id) →
  ∃ older e newer,
    h = older ++ e :: newer
    ∧ e_id e = id
    ∧ (∀ x, x ∈ older → e_id x ≠ id)
    ∧ mark_undone id h = older ++ set_undone e :: newer.
Proof.
  induction h as [|x h IH]; intros (e & Hin & Hid); [inversion Hin|].
  simpl. destruct (e_id x =? id) eqn:E.
  - apply Nat.eqb_eq in E. exists [], x, h. split_ands; try done.
    intros y Hy. inversion Hy.
  - apply Nat.eqb_neq in E.
    destruct IH as (older & e' & newer & -> & Hid' & Hold & Hm).
    { exists e. split; [|done].
      apply elem_of_cons in Hin as [->|Hin]; [done|exact Hin]. }
    exists (x :: older), e', newer. split_ands; try done.
    + intros y Hy. apply elem_of_cons in Hy as [->|Hy]; [done|by apply Hold].
    + simpl. by rewrite Hm.
Qed.

(** X20.  What [undo] does to the history.  When it answers with success,
    one entry and no more is marked as undone: the first entry of the file
    that has the id of the target, the target being the newest entry that
    is not undone and has a backup path; nothing else of the history
    changes.  With any other answer the history is as it was, and when
    nothing is to be undone or the backup is not found the disk is as it
    was too. *)
Theorem undo_marks_one_entry (st : state) :
  let r := undo st in
  match r.1 with
  | UndoSuccessful a b =>
      ∃ target older e newer,
        get_last_undoable (history st) = Some target
        ∧ a = e_artist target ∧ b = e_album target
        ∧ history st = older ++ e :: newer
        ∧ e_id e = e_id target
        ∧ (∀ x, x ∈ older → e_id x ≠ e_id target)
        ∧ history r.2 = older ++ set_undone e :: newer
  | NothingToUndo | BackupNotFound _ _ => r.2 = st
  | _ => history r.2 = history st
  end.
Proof.
  intros r. unfold r, undo.
  destruct (get_last_undoable (history st)) as [target|] eqn:Et;
    [|reflexivity].
  destruct (e_backup_path target) as [bp|]; [|reflexivity].
  destruct (truthy bp && exists_dir bp (disk st)); [|reflexivity].
  destruct (negb (truthy (dirname (e_original_path target))));
    [reflexivity|].
  destruct (move_dir bp _ _) as [t|]; [|reflexivity].
  simpl.
  assert (Hin : ∃ e, e ∈ history st ∧ e_id e = e_id target).
  { exists target. split; [|done]. unfold get_last_undoable in Et.
    apply find_rev_Some in Et as (older & newer & -> & _).
    apply elem_of_app. right. by left. }
  destruct (mark_undone_first _ _ Hin) as (older & e & newer & H1 & H2 & H3 & H4).
  exists target, older, e, newer. by split_ands.
Qed.

End UndoRecord.

(** ** One backup for a folder name *)

Section OneBackup.
Import PyStr Path Fs App.

Lemma child_of_backup_dir (name : string) :
  name ≠ "" → has_slash name = false →
  child_name BACKUP_DIR (BACKUP_DIR +:+ "/" +:+ name) = Some name.
Proof.
  intros Hne Hs. unfold child_name, startswith.
  rewrite <- string_app_assoc, prefix_app.
  replace (String.length BACKUP_DIR + 1)
    with (String.length (BACKUP_DIR +:+ "/")) by reflexivity.
  rewrite drop_app_length_string.
  apply truthy_true in Hne. by rewrite Hne, Hs.
Qed.

Lemma backup_name_no_slash (stamp p : string) :
  has_slash stamp = false →
  has_slash ("backup_" +:+ stamp +:+ "_" +:+ basename p) = false.
Proof.
  intros H. rewrite !has_slash_app, H, has_slash_basename. reflexivity.
Qed.

(** X21.  [create_backup] keeps one backup for a folder name, not for a
    folder.  After the backup of a folder, the new backup holds the listing
    of the folder, and every other backup whose name ends with an
    underscore and the name of the folder is gone: an earlier backup of the
    same folder, but also the backup of any folder with the same name (an
    album of that title by another artist) or with a name that ends with an
    underscore and that name.  The time stamps are those of [strftime] and
    hold no slash. *)
Theorem create_backup_one_per_name (stamp stamp' src other : string)
    (t : tree) (d : dir) :
  t !! src = Some d →
  has_slash stamp' = false →
  endswith ("_" +:+ basename src)
           ("backup_" +:+ stamp' +:+ "_" +:+ basename other) = true →
  backup_path_of stamp' other ≠ backup_path_of stamp src →
  let t' := (create_backup stamp src t).2 in
  t' !! backup_path_of stamp src = Some d
  ∧ t' !! backup_path_of stamp' other = None.
Proof.
  intros Hsrc Hst Hend Hne t'. unfold t', create_backup. cbv zeta. simpl snd.
  rewrite backup_path_join. unfold copytree.
  set (P := λ kv : string * dir, old_backup (basename src) kv.1 = false).
  assert (H1 : filter P t !! src = Some d).
  { apply map_lookup_filter_Some. split; [done|].
    apply source_not_old_backup. }
  rewrite H1. split; [apply lookup_insert_eq|].
  rewrite lookup_insert_ne by done.
  apply map_lookup_filter_None. right. intros x _. unfold P. simpl.
  unfold old_backup, backup_path_of.
  rewrite child_of_backup_dir.
  - by rewrite Hend.
  - discriminate.
  - by apply backup_name_no_slash.
Qed.

Lemma create_backup_one_per_name_witness :
  let t := <[BACKUP_DIR +:+ "/backup_20230101_000000_Q" :=
               {["01.flac" := Flac [] [] "other-q"]}]> library in
  let t' := (create_backup "20240101_100000" album_Q t).2 in
  t' !! backup_path_of "20240101_100000" album_Q = library !! album_Q
  ∧ t' !! backup_path_of "20230101_000000" "/home/arm/music/Z/Q" = None.
Proof.
  intros t t'.
  destruct (create_backup_one_per_name "20240101_100000" "20230101_000000"
              album_Q "/home/arm/music/Z/Q" t
              {["01.flac" := Flac [("TITLE", "q1")] [] "audio-q1"]})
    as [H1 H2].
  - vm_compute. reflexivity.
  - reflexivity.
  - vm_compute. reflexivity.
  - vm_compute. intros H. discriminate H.
  - split; [|exact H2]. etransitivity; [exact H1|]. vm_compute. reflexivity.
Defined.

End OneBackup.

(** ** Editing an album where it is *)

Section InPlace.
Import PyStr Path Fs App Tagger.

(** The loop of [save] when the album stays where it is: the FLAC files
    get their new tags under the names they have; nothing else changes. *)
Lemma save_tracks_in_place (f : form) (artist album_name src dst : string)
    (total : nat) (names : list string) (t : tree) (i : nat) (ds : dir) :
  t !! src = Some ds →
  NoDup names →
  (∀ x, x ∈ names → is_Some (ds !! x)) →
  ∃ ds',
    save_tracks f artist album_name src dst true total t i names
      = Some (<[src := ds']> t)
    ∧ (∀ k name fl, names !! k = Some name → ds !! name = Some fl →
                    ds' !! name
                      = Some (retagged f artist album_name total fl (i + k)))
    ∧ (∀ x, x ∉ names → ds' !! x = ds !! x).
Proof.
  revert t i ds.
  induction names as [|name names IH]; intros t i ds Hsrc Hnd Hin.
  - exists ds. split; [|done]. simpl. f_equal. symmetry.
    by apply insert_id.
  - apply NoDup_cons in Hnd as [Hname Hnd].
    destruct (Hin name ltac:(left)) as [fl Hfl].
    simpl save_tracks. unfold save_track.
    assert (Hr : ∀ x, retagged f artist album_name total x i
                 = let '(a, b) := track_identity artist i (f_track f i) in
                   retag x (f_art_data f) a artist album_name b i total
                     (is_compilation artist)
                     (strip (f_year f)) (strip (f_genre f))
                     (strip (f_disc_number f)) (strip (f_disc_total f)))
      by reflexivity.
    destruct (track_identity artist i (f_track f i)) as [ta tt].
    rewrite Hsrc, Hfl, <- Hr. clear Hr.
    set (ds1 := <[name := retagged f artist album_name total fl i]> ds).
    destruct (IH (<[src := ds1]> t) (S i) ds1)
      as (ds' & Hrun & Hall & Hrest).
    + apply lookup_insert_eq.
    + done.
    + intros x Hx. unfold ds1. rewrite lookup_insert_ne.
      * apply Hin. by right.
      * intros ->. done.
    + exists ds'. rewrite Hrun. split; [by rewrite insert_insert_eq|]. split.
      * intros [|k] nm fl' Hk Hfl'.
        -- simpl in Hk. injection Hk as <-. rewrite Hfl in Hfl'.
           injection Hfl' as <-. rewrite Nat.add_0_r.
           rewrite Hrest by done. apply lookup_insert_eq.
        -- simpl in Hk. replace (i + S k) with (S i + k) by lia.
           apply (Hall k nm fl'); [done|]. unfold ds1.
           rewrite lookup_insert_ne; [done|]. intros ->.
           apply Hname. by eapply list_elem_of_lookup_2.
      * intros x Hx. apply not_elem_of_cons in Hx as [Hx1 Hx2].
        rewrite Hrest by done. unfold ds1. by rewrite lookup_insert_ne.
Qed.



End InPlace.

(** ** The answers of [save] *)

Section SaveAnswers.
Import PyStr Path Fs App Tagger.

Lemma save_tracks_Some (f : form) (artist album_name src dst : string)
    (same_location : bool) (total : nat) (names : list string) (t : tree)
    (i : nat) (ds : dir) :
  t !! src = Some ds →
  (same_location = false → src ≠ dst ∧ is_Some (t !! dst)) →
  NoDup names →
  (∀ x, x ∈ names → is_Some (ds !! x)) →
  ∃ t', save_tracks f artist album_name src dst same_location total t i names
        = Some t'.
Proof.
  intros Hsrc Hdst Hnd Hin. destruct same_location.
  - destruct (save_tracks_in_place f artist album_name src dst total names
                t i ds Hsrc Hnd Hin) as (ds' & Hrun & _).
    by eexists.
  - destruct (Hdst eq_refl) as [Hne Hd].
    destruct (save_tracks_move f artist album_name src dst total names
                t i ds Hne Hsrc Hd Hnd Hin) as (t' & Hrun & _).
    by eexists.
Qed.

(** X24.  The answers of [save], in the order of its checks.  A source
    path, written in canonical form, at which a canonical tree has nothing:
    album not found, nothing changes.  A source folder that is entered and
    an artist or an album name that is blank: fields required, nothing
    changes.  A source of the library and a destination that is another
    folder and is entered: folder exists, and the history is as it was.  A
    source of the library and a destination that is the source itself, or a
    plain move (see [plain_move]): the answer is Saved, and the history gets
    one entry at its end (the oldest entry goes once there are 100): it is
    not undone, has the length of the history plus one as id, and records
    the source, the destination and the backup made. *)
Theorem save_answers (clk : clock) (f : form) (st : state) :
  let folder := request_folder f in
  let dest := request_dest f in
  let artist := strip (f_artist f) in
  let album_name := strip (f_album_name f) in
  let r := save clk f st in
  (canonical folder = true → canonical_tree (disk st) = true →
   nothing_at folder (disk st) = true →
   r = (AlbumNotFound, st))
  ∧ (exists_dir folder (disk st) = true → artist = "" ∨ album_name = "" →
     r = (FieldsRequired, st))
  ∧ (well_formed f st → in_library folder = true →
     normpath dest ≠ normpath folder →
     exists_dir dest (disk st) = true →
     r.1 = FolderExists (sanitize artist) (sanitize album_name)
     ∧ history r.2 = history st)
  ∧ (well_formed f st → in_library folder = true →
     normpath dest = normpath folder ∨ plain_move f (disk st) = true →
     r.1 = Saved artist album_name
     ∧ ∃ e, history r.2
              = skipn (length (history st) - 99) (history st) ++ [e]
            ∧ e_id e = length (history st) + 1
            ∧ e_undone e = false
            ∧ e_artist e = artist ∧ e_album e = album_name
            ∧ e_original_path e = folder
            ∧ e_new_path e = Some dest
            ∧ e_backup_path e
                = Some (backup_path_of (backup_stamp clk) folder)).
Proof.
  intros folder dest artist album_name r.
  split.
  { intros _ _ H. apply nothing_at_None, exists_dir_false in H.
    unfold r, save. fold (request_folder f). fold folder.
    by rewrite H. }
  split.
  { intros H Hblank. unfold r, save. fold (request_folder f). fold folder.
    rewrite H. simpl negb. cbv iota. fold artist album_name.
    destruct Hblank as [-> | ->]; [reflexivity|].
    by rewrite orb_true_r. }
  split.
  { intros Hwf _ Hne Hd. unfold r.
    by rewrite (save_folder_exists clk f st Hwf Hne Hd). }
  intros (Hex & Ha & Hb) _ Hcase.
  apply exists_dir_true in Hex as [d Hsrc]. fold folder in Hsrc.
  set (bp := backup_path_of (backup_stamp clk) folder).
  destruct (create_backup_spec (backup_stamp clk) _ _ _ Hsrc)
    as (Hbp & _ & Hkeep & _).
  fold bp in Hbp, Hkeep.
  destruct (new_dir_not_backup (strip (f_artist f))
              (strip (f_album_name f)) (backup_stamp clk) folder)
    as [Hn1 Hn2].
  fold (request_dest f) in Hn1, Hn2. fold dest bp in Hn1, Hn2.
  assert (Hsb : folder ≠ bp).
  { intros E. symmetry in E. by apply backup_path_not_source in E. }
  unfold r, save. fold (request_folder f). fold folder.
  replace (exists_dir folder (disk st)) with true
    by (symmetry; apply exists_dir_true; by rewrite Hsrc).
  simpl negb. cbv iota.
  apply truthy_true in Ha, Hb. rewrite Ha, Hb. simpl orb. cbv iota.
  fold (request_dest f). fold dest artist album_name.
  destruct (create_backup (backup_stamp clk) folder (disk st))
    as [bp' t1] eqn:Ecb.
  simpl in Hbp, Hkeep. subst bp'.
  assert (H1s : t1 !! folder = Some d).
  { rewrite Hkeep; [done|done|]. apply source_not_old_backup. }
  rewrite H1s.
  set (same := String.eqb (normpath dest) (normpath folder)).
  assert (Hcheck : negb same && exists_dir dest t1 = false).
  { destruct same eqn:Es; [reflexivity|]. simpl.
    destruct Hcase as [E|E].
    - unfold same in Es. rewrite E, String.eqb_refl in Es. discriminate Es.
    - apply exists_dir_false. rewrite Hkeep by done.
      by apply plain_move_fresh. }
  rewrite Hcheck.
  set (names := flac_names (map fst (map_to_list d))).
  destruct (listing_flac_names d) as [Hnd Hin]. fold names in Hnd, Hin.
  set (t2 := if same then t1 else makedirs dest t1).
  destruct (save_tracks_Some f artist album_name folder dest same
              (length names) names t2 1 d) as [t3 Hrun]; try done.
  { unfold t2. destruct same; [done|]. by apply makedirs_keep. }
  { intros Es. unfold t2. rewrite Es. split; [|apply makedirs_at].
    intros E. unfold same in Es. rewrite E, String.eqb_refl in Es.
    discriminate Es. }
  rewrite Hrun.
  match goal with
  | |- context [add_history_entry ?now ?dat ?h] =>
      pose proof (add_history_entry_last now dat h) as Hl;
      destruct (add_history_entry now dat h) as [i h']
  end.
  simpl in Hl. simpl. split; [reflexivity|].
  eexists. split; [exact Hl|]. by split_ands.
Qed.

(** The four answers, on the library: a folder that is not there, a blank
    album name, the move of P onto Q, and the move of P to R. *)
Lemma save_answers_witness :
  let st := {| disk := library; history := [] |} in
  let now := at_time "20240101_100000" in
  save now (edit_in_place "/home/arm/music/A/X" "A" "X" "One") st
    = (AlbumNotFound, st)
  ∧ save now (edit_in_place album_P "A" " " "One") st = (FieldsRequired, st)
  ∧ (save now move_P_onto_Q st).1 = FolderExists "B" "Q"
  ∧ (save now move_P_to_R st).1 = Saved "C" "R"
  ∧ ∃ e, history (save now move_P_to_R st).2 = [e]
         ∧ e_id e = 1 ∧ e_undone e = false
         ∧ e_original_path e = album_P ∧ e_new_path e = Some album_R.
Proof.
  intros st now.
  destruct (save_answers now
              (edit_in_place "/home/arm/music/A/X" "A" "X" "One") st)
    as (H1 & _).
  destruct (save_answers now (edit_in_place album_P "A" " " "One") st)
    as (_ & H2 & _).
  destruct (save_answers now move_P_onto_Q st) as (_ & _ & H3 & _).
  destruct (save_answers now move_P_to_R st) as (_ & _ & _ & H4).
  split; [apply H1; vm_compute; reflexivity|].
  split; [apply H2; [vm_compute; reflexivity|right; vm_compute; reflexivity]|].
  split.
  { apply H3.
    - split; [vm_compute; reflexivity|].
      split; vm_compute; intros H; discriminate H.
    - vm_compute. reflexivity.
    - vm_compute. intros H. discriminate H.
    - vm_compute. reflexivity. }
  destruct H4 as (H5 & e & He & Hid & Hu & _ & _ & Ho & Hn & _).
  - split; [vm_compute; reflexivity|].
    split; vm_compute; intros H; discriminate H.
  - vm_compute. reflexivity.
  - right. vm_compute. reflexivity.
  - split; [exact H5|]. exists e. split; [exact He|].
    split; [exact Hid|]. split; [exact Hu|]. split; [exact Ho|exact Hn].
Defined.

End SaveAnswers.

(** ** The ids of a young history *)

Section YoungHistory.
Import App.

Lemma append_all_ids (ds : list (string * entry_data)) (h : list entry) :
  e_id <$> h = seq 1 (length h) →
  length h + length ds ≤ 100 →
  e_id <$> append_all ds h = seq 1 (length h + length ds).
Proof.
  revert h. induction ds as [|[now d] ds IH]; intros h Hids Hlen.
  - simpl. by rewrite Nat.add_0_r.
  - change (append_all ((now, d) :: ds) h)
      with (append_all ds (add_history_entry now d h).2).
    simpl length in *.
    assert (Hadd : (add_history_entry now d h).2 = h ++ [new_entry now d h]).
    { rewrite add_history_entry_last.
      replace (length h - 99) with 0 by lia. by rewrite drop_0. }
    rewrite Hadd. rewrite IH.
    + rewrite length_app. simpl. f_equal. lia.
    + rewrite fmap_app, Hids, length_app. simpl.
      replace (length h + 1) with (S (length h)) by lia.
      by rewrite seq_S.
    + rewrite length_app. simpl. lia.
Qed.

(** X25.  Up to a hundred actions after an empty history, the entries
    carry the ids 1, 2, ... in their order, and no two entries share an
    id. *)
Theorem young_history_ids (ds : list (string * entry_data)) :
  length ds ≤ 100 →
  e_id <$> append_all ds [] = seq 1 (length ds)
  ∧ NoDup (e_id <$> append_all ds []).
Proof.
  intros Hlen.
  assert (H : e_id <$> append_all ds [] = seq 1 (length ds)).
  { by apply (append_all_ids ds []). }
  split; [exact H|]. rewrite H. apply NoDup_seq.
Qed.

Lemma young_history_ids_witness :
  e_id <$> append_all (deletions 3) [] = seq 1 (length (deletions 3))
  ∧ NoDup (e_id <$> append_all (deletions 3) []).
Proof.
  apply (young_history_ids (deletions 3)). vm_compute.
  repeat constructor.
Defined.

End YoungHistory.
